(** * Lowering of Tile programs to Stripe blocks: tile/lang/gen_stripe.cc

    A shallow embedding of [StripeGenerator] and the properties of the
    blocks it produces.

    Conventions of the embedding.
    - [int64_t] and [uint64_t] values are integers of [Z]; the arithmetic the
      generator performs on them ([Integerize], the index ranges, the sign
      flip of constraints) is written with its two's-complement wrap-around
      ([wrap64], [wrapu64]).  Loop counters over the sizes of vectors are
      plain numbers.
    - [std::map<std::string, V>] is an association list whose keys are
      strictly increasing ([sorted_keys]); iteration is list order, [find] is
      the first match.  [std::set<std::string>] is such a list of keys.
    - A C++ exception is the [Err] case of [result]; so is behaviour the
      language leaves undefined (reading past a vector, a null pointer).
    - [kernel] and [main] are shared pointers in the source: a block pushed
      onto its parent's statement list keeps changing afterwards.  The
      embedding works on the block as a local value and stores it back at
      its position in the parent ([commit_kernel], the last line of [Run]).
    - What gen_stripe.cc uses from other files of the repository (the string
      constants of [Intrinsic] and [Special], [byte_size], [is_special],
      [to_string], the bound solver and the contraction transforms of
      bound.h, defract.h and reduce.h) is collected in the records
      [Names] and [Collaborators] and taken as a parameter. *)

From Stdlib Require Import ZArith List String Ascii Bool Lia.
From Stdlib Require Import DecimalString DecimalNat.
From Stdlib Require Import Floats.SpecFloat.
Import ListNotations.

Local Open Scope string_scope.
Local Open Scope list_scope.
Local Open Scope Z_scope.

Set Implicit Arguments.

(** ** Machine integers *)

Definition wrap64 (z : Z) : Z := (z + 2 ^ 63) mod 2 ^ 64 - 2 ^ 63.
Definition wrapu64 (z : Z) : Z := z mod 2 ^ 64.
Definition in_int64 (z : Z) : Prop := - 2 ^ 63 <= z < 2 ^ 63.

(** ** Exceptions *)

Inductive error : Type :=
| UnknownShape (name : string)      (* "Unknown shape: %s" *)
| UnsupportedArity                  (* "Currently, we only support ..." *)
| NonIntegerTerm                    (* "Non-integer polynomial in Integerize" *)
| NotImplemented                    (* "Not implemented!" *)
| OutOfRange                        (* std::out_of_range of map::at *)
| External (what : string)          (* thrown by a collaborator *)
| Undefined.                        (* undefined behaviour *)

Inductive result (A : Type) : Type :=
| OK (a : A)
| Err (e : error).

Arguments OK {A} a.
Arguments Err {A} e.

Definition bind {A B : Type} (c : result A) (k : A -> result B) : result B :=
  match c with
  | OK a => k a
  | Err e => Err e
  end.

Notation "x <- c ;; k" := (bind c (fun x => k))
  (at level 61, c at next level, right associativity).

(** A loop whose body may throw. *)
Fixpoint foldM {A B : Type} (body : A -> B -> result A) (l : list B) (a : A) : result A :=
  match l with
  | [] => OK a
  | x :: rest => a' <- body a x ;; foldM body rest a'
  end.

(** ** std::map and std::set over strings *)

Definition smap (V : Type) : Type := list (string * V).

Fixpoint find {V : Type} (k : string) (m : smap V) : option V :=
  match m with
  | [] => None
  | (k', v) :: m' => if String.eqb k k' then Some v else find k m'
  end.

Definition keys {V : Type} (m : smap V) : list string := map fst m.

Definition key_lt (a b : string) : Prop := String.compare a b = Lt.

Inductive sorted_keys : list string -> Prop :=
| sorted_nil : sorted_keys []
| sorted_cons k l : Forall (key_lt k) l -> sorted_keys l -> sorted_keys (k :: l).

Definition count (k : string) (s : list string) : bool :=
  existsb (String.eqb k) s.

Fixpoint set_insert (k : string) (s : list string) : list string :=
  match s with
  | [] => [k]
  | k' :: s' =>
      match String.compare k k' with
      | Eq => s
      | Lt => k :: s
      | Gt => k' :: set_insert k s'
      end
  end.

(** ** Polynomials (tile/math/polynomial.h, tile/math/bignum.h) *)

(** Modelled from the spec: the rational numbers of bignum.h, which are not
    among the sources; a coefficient has a numerator and a denominator. *)
Record Rational : Type := mkRational { numerator : Z; denominator : Z }.

(** Modelled from the spec: the polynomial class of polynomial.h, which is
    not among the sources.  The spec's affine expression is a constant plus
    a map from index names to non-zero coefficients; gen_stripe.cc walks
    one map ([getMap]) and finds the constant in it as the term of the
    empty name (lines 275 and 460), so the polynomial is that map, and a
    term whose coefficient becomes zero is erased from it. *)
Definition Polynomial (T : Type) : Type := smap T.
Definition Affine : Type := Polynomial Z.

Definition constant (a : Affine) : Z :=
  match find "" a with Some c => c | None => 0 end.

Definition rconstant (p : Polynomial Rational) : Rational :=
  match find "" p with Some c => c | None => mkRational 0 1 end.

(** Modelled from the spec: one step of [operator+=] of polynomial.h,
    [map_[k] += v], then the entry is erased if it became zero. *)
Fixpoint add_term (k : string) (v : Z) (m : Affine) : Affine :=
  match m with
  | [] => if wrap64 v =? 0 then [] else [(k, wrap64 v)]
  | (k', v') :: m' =>
      match String.compare k k' with
      | Eq => if wrap64 (v' + v) =? 0 then m' else (k', wrap64 (v' + v)) :: m'
      | Lt => if wrap64 v =? 0 then m else (k, wrap64 v) :: m
      | Gt => (k', v') :: add_term k v m'
      end
  end.

(** Modelled from the spec: the constructors [Polynomial(T x)] and
    [Polynomial(const std::string& i, T x = 1)] of polynomial.h; a zero
    coefficient gives the empty map. *)
Definition Affine_of_int (x : Z) : Affine := if x =? 0 then [] else [("", x)].
Definition Affine_of_index (i : string) (x : Z) : Affine :=
  if x =? 0 then [] else [(i, x)].

(** Modelled from the spec: [operator+=], [operator-=] and the unary minus
    of polynomial.h, term by term. *)
Definition Affine_add (a b : Affine) : Affine :=
  fold_left (fun acc t => add_term (fst t) (snd t) acc) b a.
Definition Affine_sub (a b : Affine) : Affine :=
  fold_left (fun acc t => add_term (fst t) (- snd t) acc) b a.
Definition Affine_neg (a : Affine) : Affine :=
  map (fun t => (fst t, wrap64 (- snd t))) a.

Definition coeff (k : string) (a : Affine) : Z :=
  match find k a with Some c => c | None => 0 end.

(** ** Index bounds (tile/lang/bound.h)

    The records of this section and of the next three are the
    declarations of headers that are not among the sources, with the
    fields gen_stripe.cc reads or writes. *)

Record Bound : Type := mkBound { min : Z; max : Z }.
Definition IndexBounds : Type := smap Bound.

(** ** Shapes (tile/base/shape.h) *)

(** [DataType] is an enumeration over [int]; only its value is carried. *)
Definition DataType : Type := Z.

Record TensorDimension : Type := mkDim { stride : Z; size : Z }.
Record TensorShape : Type := mkShape { type : DataType; dims : list TensorDimension }.

Definition ShapeMap : Type := smap TensorShape.

(** ** Parsed programs and bindings (tile/lang/ops.h, tile/lang/type.h) *)

Inductive AggregationOp : Type :=
| Agg_SUM | Agg_MAX | Agg_MIN | Agg_PROD | Agg_ASSIGN | Agg_NONE.

Inductive CombinationOp : Type :=
| Comb_MULTIPLY | Comb_PLUS | Comb_EQ | Comb_COND | Comb_NONE.

Record TensorSpec : Type := mkSpec {
  id : string;
  spec : list (Polynomial Rational)
}.

Record Contraction : Type := mkContraction {
  specs : list TensorSpec;
  agg_op : AggregationOp;
  comb_op : CombinationOp;
  use_default : string;
  no_defract : bool
}.

Record Function : Type := mkFunction { fn : string; params : list string }.

Record Attribute : Type := mkAttribute {
  attr_name : string;
  attr_params : list string
}.

Inductive OpTag : Type := CONTRACTION | FUNCTION | CONSTANT.

Record Op : Type := mkOp {
  tag : OpTag;
  output : string;
  inputs : list string;
  c : Contraction;
  f : Function;
  attributes : list Attribute
}.

Record Program : Type := mkProgram { ops : list Op }.

Inductive BindingTag : Type := TENSOR | ICONST | FCONST | TUPLE.

Record Binding : Type := mkBinding {
  btag : BindingTag;
  shape : TensorShape;
  iconst : Z;
  fconst : spec_float
}.

Definition Bindings : Type := smap Binding.

Record RangeConstraint : Type := mkRangeConstraint {
  rc_poly : Polynomial Rational;
  rc_range : Z
}.

Record SimpleConstraint : Type := mkSimpleConstraint {
  poly : Polynomial Rational;
  rhs : Z
}.

Record RunInfo : Type := mkRunInfo {
  program_name : string;
  code : string;
  input_shapes : ShapeMap;
  output_shapes : ShapeMap;
  const_inputs : list string
}.

(** ** Stripe blocks (tile/stripe/stripe.h) *)

Inductive RefDir : Type := RefNone | RefIn | RefOut | RefInOut.

(** [Location] is only ever value-initialised ([{}]) by the generator. *)
Inductive Location : Type := NoLocation.

Record Refinement : Type := mkRefinement {
  dir : RefDir;
  from : string;
  into : string;
  access : list Affine;
  ref_shape : TensorShape;
  ref_agg_op : string;
  location : Location;
  is_const : bool;
  offset : Z;
  bank_dim : option Z
}.

Record Index : Type := mkIndex { idx_name : string; range : Z }.

Inductive Literal : Type :=
| IntLit (i : Z)
| FloatLit (x : spec_float).

Record BlockOf (S : Type) : Type := mkBlock {
  name : string;
  comments : string;
  tags : list string;
  idxs : list Index;
  constraints : list Affine;
  refs : list Refinement;
  stmts : list S
}.

#[warnings="-register-all"]
Inductive Statement : Type :=
| Load (from_ into_ : string)
| Store (from_ into_ : string)
| Constant (name_ : string) (value : Literal)
| Special (name_ : string) (params_ inputs_ outputs_ : list string)
| Intrinsic (name_ : string) (inputs_ outputs_ : list string)
| BlockStmt (b : BlockOf Statement).

Definition Block : Type := BlockOf Statement.

(** [std::make_shared<Block>()]. *)
Definition new_Block : Block := mkBlock "" "" [] [] [] [] [].

Definition set_name (b : Block) (n : string) : Block :=
  mkBlock n (comments b) (tags b) (idxs b) (constraints b) (refs b) (stmts b).
Definition set_comments (b : Block) (s : string) : Block :=
  mkBlock (name b) s (tags b) (idxs b) (constraints b) (refs b) (stmts b).
(** Modelled from the spec: [set_tag] of stripe.h; the tags are a set. *)
Definition set_tag (b : Block) (t : string) : Block :=
  mkBlock (name b) (comments b) (set_insert t (tags b)) (idxs b) (constraints b)
    (refs b) (stmts b).
Definition set_idxs (b : Block) (l : list Index) : Block :=
  mkBlock (name b) (comments b) (tags b) l (constraints b) (refs b) (stmts b).
Definition set_constraints (b : Block) (l : list Affine) : Block :=
  mkBlock (name b) (comments b) (tags b) (idxs b) l (refs b) (stmts b).
Definition set_refs (b : Block) (l : list Refinement) : Block :=
  mkBlock (name b) (comments b) (tags b) (idxs b) (constraints b) l (stmts b).
Definition set_stmts (b : Block) (l : list Statement) : Block :=
  mkBlock (name b) (comments b) (tags b) (idxs b) (constraints b) (refs b) l.

Definition push_idx (b : Block) (i : Index) : Block := set_idxs b (idxs b ++ [i]).
Definition push_constraint (b : Block) (a : Affine) : Block :=
  set_constraints b (constraints b ++ [a]).
Definition push_ref (b : Block) (r : Refinement) : Block := set_refs b (refs b ++ [r]).
Definition push_stmt (b : Block) (s : Statement) : Block := set_stmts b (stmts b ++ [s]).

(** Modelled from the spec: [Block::idx_by_name] of stripe.h, the declared
    index of that name; the first one, or a null pointer. *)
Definition idx_by_name (b : Block) (n : string) : option Index :=
  List.find (fun i => String.eqb (idx_name i) n) (idxs b).

(** [stmts.insert(std::prev(stmts.end()), s)]. *)
Definition insert_before_last (s : Statement) (l : list Statement) : list Statement :=
  match rev l with
  | [] => [s]   (* not reached: the list holds the kernel *)
  | x :: r => rev r ++ [s; x]
  end.

(** The kernel is the node the last statement of [main] points to. *)
Definition commit_kernel (main kernel : Block) : Block :=
  set_stmts main (removelast (stmts main) ++ [BlockStmt kernel]).

(** ** What the generator takes from the rest of the repository *)

Record Names : Type := mkNames {
  Intrinsic_ASSIGN : string;
  Intrinsic_SUM : string;
  Intrinsic_MAX : string;
  Intrinsic_MIN : string;
  Intrinsic_PROD : string;
  Intrinsic_MUL : string;
  Intrinsic_ADD : string;
  Intrinsic_EQ : string;
  Intrinsic_COND : string;
  Special_ZERO : string;
  Special_COPY : string
}.

Record Collaborators : Type := mkCollaborators {
  (* static_cast<int64_t> of a boost cpp_int *)
  int64_of_Integer : Z -> Z;
  (* TensorShape::byte_size, Function::is_special, to_string(const Op&) *)
  byte_size : TensorShape -> Z;
  is_special : Function -> bool;
  to_string_Op : Op -> string;
  (* Parser::Parse and BindProgram, which the constructor calls *)
  Parse : string -> result Program;
  BindProgram : Program -> ShapeMap -> ShapeMap -> result (Program * Bindings);
  (* bound.h, defract.h, reduce.h *)
  ConstrainIndexVarsToInts : Contraction -> result Contraction;
  GatherConstraints : Contraction -> list TensorShape -> result (list RangeConstraint);
  ReduceOutputPolynomials : Contraction -> list RangeConstraint -> result Contraction;
  MergeParallelConstraints : list RangeConstraint -> result (list RangeConstraint);
  Defract : Contraction -> list RangeConstraint -> result Contraction;
  ComputeBounds : list RangeConstraint -> result (IndexBounds * list SimpleConstraint)
}.

Section Generator.

Variable N : Names.
Variable E : Collaborators.

(** ** Integerize (gen_stripe.cc, lines 453-471) *)

(** The value of [static_cast<int64_t>(numerator(term.second))], an [int64_t]. *)
Definition int_value (q : Rational) : Z := wrap64 (int64_of_Integer E (numerator q)).

Definition Integerize_term (bounds : IndexBounds) (res : Affine)
    (term : string * Rational) : result Affine :=
  if negb (denominator (snd term) =? 1) then Err NonIntegerTerm
  else if String.eqb (fst term) ""
  then OK (Affine_add res (Affine_of_int (int_value (snd term))))
  else
    match find (fst term) bounds with
    | None => Err OutOfRange
    | Some bound =>
        let res :=
          Affine_add res (Affine_of_int (wrap64 (int_value (snd term) * min bound))) in
        if negb (min bound =? max bound)
        then OK (Affine_add res (Affine_of_index (fst term) (int_value (snd term))))
        else OK res
    end.

Definition Integerize (poly : Polynomial Rational) (bounds : IndexBounds) : result Affine :=
  foldM (Integerize_term bounds) poly [].

(** ** The generator object *)

Record StripeGenerator : Type := mkStripeGenerator {
  parsed_ : Program;
  vars_ : Bindings;
  runinfo_ : RunInfo;
  externals_ : list string
}.

(** The constructor (lines 18-22). *)
Definition StripeGenerator_new (runinfo : RunInfo) : result StripeGenerator :=
  parsed <- Parse E (code runinfo) ;;
  bound <- BindProgram E parsed (input_shapes runinfo) (output_shapes runinfo) ;;
  OK (mkStripeGenerator (fst bound) (snd bound) runinfo []).

Variable g : StripeGenerator.

(** printf's [%zu]. *)
Definition decimal (n : nat) : string := NilEmpty.string_of_uint (Nat.to_uint n).

Definition ScalarName (name : string) : string := String.append "$" name.

Definition IsConst (name : string) : bool := count name (const_inputs (runinfo_ g)).

Definition GetShape (name : string) : result TensorShape :=
  match find name (vars_ g) with
  | None => Err (UnknownShape name)
  | Some b => OK (shape b)
  end.

Definition ScalarShape (name : string) : result TensorShape :=
  match find name (vars_ g) with
  | None => Err (UnknownShape name)
  | Some b =>
      OK (mkShape (type (shape b))
            (map (fun dim => mkDim (stride dim) 1) (dims (shape b))))
  end.

Definition GetAggOp (op : AggregationOp) : string :=
  match op with
  | Agg_SUM => Intrinsic_SUM N
  | Agg_MAX => Intrinsic_MAX N
  | Agg_MIN => Intrinsic_MIN N
  | Agg_PROD => Intrinsic_PROD N
  | Agg_ASSIGN => Intrinsic_ASSIGN N
  | _ => ""
  end.

Definition GetComboOp (op : CombinationOp) : string :=
  match op with
  | Comb_MULTIPLY => Intrinsic_MUL N
  | Comb_PLUS => Intrinsic_ADD N
  | Comb_EQ => Intrinsic_EQ N
  | Comb_COND => Intrinsic_COND N
  | _ => ""
  end.

Definition AddIntrinsic (block : Block) (name : string) (inputs outputs : list string) : Block :=
  push_stmt block (Intrinsic name inputs outputs).

(** [AddKernel] (lines 396-408), with the default empty prefix: the parent
    with the new block pushed, and the block. *)
Definition AddKernel (parent : Block) (op : Op) : Block * Block :=
  let block := set_name new_Block (String.append "kernel_" (decimal (List.length (stmts parent)))) in
  let block := set_comments block (to_string_Op E op) in
  let block := set_tag block "kernel" in
  let block :=
    fold_left
      (fun b attr =>
         if String.eqb (attr_name attr) "pid" && negb (Nat.eqb (List.length (attr_params attr)) 0)
         then set_name b (hd "" (attr_params attr))
         else b)
      (attributes op) block in
  (push_stmt parent (BlockStmt block), block).

Definition MakeShapes (con : Contraction) : result (list TensorShape) :=
  foldM (fun shapes sp => sh <- GetShape (id sp) ;; OK (shapes ++ [sh])) (specs con) [].

(** ** CompileContraction (lines 505-544) *)

Definition fancy_poly (p : Polynomial Rational) : bool :=
  Nat.ltb 2 (List.length p)
  || (Nat.eqb (List.length p) 2 && (numerator (rconstant p) =? 0)).

(** The loop of lines 515-521 over [cion.specs[0].spec]. *)
Definition is_fancy (cion : Contraction) : bool :=
  match specs cion with
  | [] => false   (* not reached: the arity was checked *)
  | out :: _ => existsb fancy_poly (spec out)
  end.

Definition CompileContraction (cion : Contraction) (shapes : list TensorShape)
  : result (Contraction * list RangeConstraint) :=
  let n := List.length (specs cion) in
  if negb (Nat.eqb n 2) && negb (Nat.eqb n 3) && negb (Nat.eqb n 4)
  then Err UnsupportedArity
  else
    integral_cion <- ConstrainIndexVarsToInts E cion ;;
    let fancy := is_fancy cion in
    cons <- GatherConstraints E integral_cion shapes ;;
    rc <- (if fancy && negb (no_defract cion)
           then
             reduced <- ReduceOutputPolynomials E integral_cion cons ;;
             cons <- GatherConstraints E reduced shapes ;;
             OK (reduced, cons)
           else OK (integral_cion, cons)) ;;
    cons <- MergeParallelConstraints E (snd rc) ;;
    defracted <- Defract E (fst rc) cons ;;
    cons <- GatherConstraints E defracted shapes ;;
    cons <- MergeParallelConstraints E cons ;;
    OK (defracted, cons).

(** ** NeedsInitialize (lines 247-284) *)

(** The loop over the output dimensions: [OK None] stands for [return true],
    [OK (Some out_idxs)] for falling out of the loop.  [affine == 0] holds
    of the empty map. *)
Fixpoint NeedsInitialize_dims (block : Block) (out_dims : list TensorDimension) (i : nat)
    (out_idxs : list string) : result (option (list string)) :=
  match out_dims with
  | [] => OK (Some out_idxs)
  | d :: rest =>
      match refs block with
      | [] => Err Undefined
      | front :: _ =>
          match nth_error (access front) i with
          | None => Err Undefined
          | Some affine =>
              if Nat.eqb (List.length affine) 0 && (size d =? 1)
              then NeedsInitialize_dims block rest (S i) out_idxs
              else if negb (constant affine =? 0) || negb (Nat.eqb (List.length affine) 1)
              then OK None
              else
                match affine with
                | [] => Err Undefined
                | (idx, mult) :: _ =>
                    if negb (mult =? 1) then OK None
                    else if count idx out_idxs then OK None
                    else
                      match idx_by_name block idx with
                      | None => Err Undefined
                      | Some ix =>
                          if negb (range ix =? size d) then OK None
                          else NeedsInitialize_dims block rest (S i) (set_insert idx out_idxs)
                      end
                end
          end
      end
  end.

Definition any_inputs (out_idxs : list string) (con : Affine) : bool :=
  existsb (fun kvp => negb (String.eqb (fst kvp) "") && negb (count (fst kvp) out_idxs)) con.

Definition NeedsInitialize (block : Block) (out_shape : TensorShape) : result bool :=
  r <- NeedsInitialize_dims block (dims out_shape) 0 [] ;;
  match r with
  | None => OK true
  | Some out_idxs => OK (existsb (fun con => negb (any_inputs out_idxs con)) (constraints block))
  end.

(** ** ProcessContraction (lines 131-245) *)

(** One [access] vector: [Integerize] of every polynomial of the spec. *)
Definition spec_access (bounds : IndexBounds) (sp : TensorSpec) : result (list Affine) :=
  foldM (fun acc poly => a <- Integerize poly bounds ;; OK (acc ++ [a])) (spec sp) [].

(** The body of the loop over [cion.specs] (lines 156-204); the state is the
    kernel and [scalar_inputs], [i] is the loop counter. *)
Definition contraction_spec (cion : Contraction) (bounds : IndexBounds) (i : nat)
    (kernel : Block) (scalar_inputs : list string) (sp : TensorSpec)
  : result (Block * list string) :=
  shape <- ScalarShape (id sp) ;;
  access <- spec_access bounds sp ;;
  if Nat.eqb i 0
  then
    OK (push_ref kernel
          (mkRefinement RefOut (id sp) (id sp) access shape (GetAggOp (agg_op cion))
             NoLocation false 0 None),
        scalar_inputs)
  else
    let scalar_name := ScalarName (id sp) in
    let scalar_inputs := scalar_inputs ++ [scalar_name] in
    let load :=
      (push_stmt
         (push_ref kernel
            (mkRefinement RefIn (id sp) (id sp) access shape "" NoLocation
               (IsConst (id sp)) 0 None))
         (Load (id sp) scalar_name),
       scalar_inputs) in
    match find (id sp) (vars_ g) with
    | Some src =>
        match btag src with
        | FCONST => OK (push_stmt kernel (Constant scalar_name (FloatLit (fconst src))),
                        scalar_inputs)
        | ICONST => OK (push_stmt kernel (Constant scalar_name (IntLit (iconst src))),
                        scalar_inputs)
        | _ => OK load
        end
    | None => OK load
    end.

Fixpoint contraction_specs (cion : Contraction) (bounds : IndexBounds) (i : nat)
    (sps : list TensorSpec) (kernel : Block) (scalar_inputs : list string)
  : result (Block * list string) :=
  match sps with
  | [] => OK (kernel, scalar_inputs)
  | sp :: rest =>
      st <- contraction_spec cion bounds i kernel scalar_inputs sp ;;
      contraction_specs cion bounds (S i) rest (fst st) (snd st)
  end.

(** Lines 206-212. *)
Definition contraction_idx (kernel : Block) (kvp : string * Bound) : Block :=
  let range := wrapu64 (max (snd kvp) - min (snd kvp) + 1) in
  if range =? 1 then kernel else push_idx kernel (mkIndex (fst kvp) range).

(** Lines 213-218. *)
Definition contraction_constraint (bounds : IndexBounds) (kernel : Block)
    (constraint : SimpleConstraint) : result Block :=
  lhs <- Integerize (poly constraint) bounds ;;
  let lhs := Affine_sub lhs (Affine_of_int (rhs constraint)) in
  let lhs := Affine_neg lhs in
  OK (push_constraint kernel lhs).

(** The statement of lines 221-228. *)
Definition init_stmt (op : Op) : Statement :=
  if String.eqb (use_default (c op)) ""
  then Special (Special_ZERO N) [] [] [output op]
  else Special (Special_COPY N) [] [use_default (c op)] [output op].

(** Lines 232-241. *)
Definition combination (cion : Contraction) (op : Op) (scalar_inputs : list string)
    (kernel : Block) : Block :=
  if Nat.ltb 1 (List.length scalar_inputs)
  then
    let combo_op := GetComboOp (comb_op cion) in
    if negb (String.eqb combo_op "")
    then set_tag (AddIntrinsic kernel combo_op scalar_inputs [ScalarName (output op)])
           (String.append "comb_op_" combo_op)
    else kernel
  else AddIntrinsic kernel "assign" scalar_inputs [ScalarName (output op)].

Definition ProcessContraction (main : Block) (op : Op) : result Block :=
  out_shape <- GetShape (output op) ;;
  if byte_size E out_shape =? 0 then OK main
  else
    shapes <- MakeShapes (c op) ;;
    compiled <- CompileContraction (c op) shapes ;;
    let cion := fst compiled in
    let range_cons := snd compiled in
    solved <- ComputeBounds E range_cons ;;
    let bounds := fst solved in
    let simple_cons := snd solved in
    let added := AddKernel main op in
    let main := fst added in
    let kernel := set_tag (snd added) "contraction" in
    let kernel := set_tag kernel (String.append "agg_op_" (GetAggOp (agg_op cion))) in
    st <- contraction_specs cion bounds 0 (specs cion) kernel [] ;;
    let scalar_inputs := snd st in
    let kernel := fold_left contraction_idx bounds (fst st) in
    kernel <- foldM (contraction_constraint bounds) simple_cons kernel ;;
    match shapes with
    | [] => Err Undefined   (* shapes[0]; not reached: the arity was checked *)
    | shape0 :: _ =>
        init <- NeedsInitialize kernel shape0 ;;
        let main :=
          if init then set_stmts main (insert_before_last (init_stmt op) (stmts main))
          else main in
        let kernel := combination cion op scalar_inputs kernel in
        let kernel := push_stmt kernel (Store (ScalarName (output op)) (output op)) in
        OK (commit_kernel main kernel)
    end.

(** ** ProcessElementwise (lines 286-376) *)

(** Lines 293-304; [i] is the loop counter. *)
Fixpoint eltwise_out (i : nat) (out_dims : list TensorDimension) (kernel : Block)
    (out_access : list Affine) : Block * list Affine :=
  match out_dims with
  | [] => (kernel, out_access)
  | d :: rest =>
      let idx := mkIndex (String.append "i" (decimal (i + 1))) (size d) in
      let out_access :=
        if 1 <? size d then out_access ++ [Affine_of_index (idx_name idx) 1]
        else out_access ++ [Affine_of_int 0] in
      eltwise_out (S i) rest (push_idx kernel idx) out_access
  end.

(** The body of the loop of lines 314-323. *)
Definition broadcast_step (kernel : Block) (in_dims : list TensorDimension) (diff : Z)
    (access : list Affine) (i : nat) : result (list Affine) :=
  if diff <=? Z.of_nat i
  then
    match nth_error in_dims (Z.to_nat (Z.of_nat i - diff)) with
    | None => Err Undefined
    | Some dim =>
        if 1 <? size dim
        then
          match nth_error (idxs kernel) i with
          | None => Err Undefined
          | Some ix => OK (access ++ [Affine_of_index (idx_name ix) 1])
          end
        else OK (access ++ [[]])
    end
  else OK access.

Definition broadcast_access (kernel : Block) (out_shape in_shape : TensorShape)
  : result (list Affine) :=
  let diff := Z.of_nat (List.length (dims out_shape)) - Z.of_nat (List.length (dims in_shape)) in
  foldM (broadcast_step kernel (dims in_shape) diff) (seq 0 (List.length (dims out_shape))) [].

(** The body of the loop over [op.inputs] (lines 306-349). *)
Definition eltwise_input (out_shape : TensorShape) (kernel : Block) (input : string)
  : result Block :=
  match find input (vars_ g) with
  | None => Err OutOfRange
  | Some binding =>
      match btag binding with
      | TENSOR =>
          access <- broadcast_access kernel out_shape (shape binding) ;;
          sshape <- ScalarShape input ;;
          OK (push_stmt
                (push_ref kernel
                   (mkRefinement RefIn input input access sshape "" NoLocation
                      (IsConst input) 0 None))
                (Load input (ScalarName input)))
      | ICONST => OK (push_stmt kernel (Constant (ScalarName input) (IntLit (iconst binding))))
      | FCONST => OK (push_stmt kernel (Constant (ScalarName input) (FloatLit (fconst binding))))
      | TUPLE => Err NotImplemented
      end
  end.

Definition ProcessElementwise (main : Block) (op : Op) : result Block :=
  let added := AddKernel main op in
  let main := fst added in
  let kernel := set_tag (snd added) "eltwise" in
  let kernel := set_tag kernel (String.append "eltwise_" (fn (f op))) in
  out_shape <- GetShape (output op) ;;
  let built := eltwise_out 0 (dims out_shape) kernel [] in
  let out_access := snd built in
  kernel <- foldM (eltwise_input out_shape) (inputs op) (fst built) ;;
  let kernel := set_idxs kernel (filter (fun idx => negb (range idx =? 1)) (idxs kernel)) in
  out_scalar <- ScalarShape (output op) ;;
  let kernel :=
    push_ref kernel
      (mkRefinement RefOut (output op) (output op) out_access out_scalar "" NoLocation
         false 0 None) in
  let kernel :=
    AddIntrinsic kernel (fn (f op)) (map ScalarName (inputs op)) [ScalarName (output op)] in
  let kernel := push_stmt kernel (Store (ScalarName (output op)) (output op)) in
  OK (commit_kernel main kernel).

(** ** ProcessSpecial and ProcessReshape (lines 378-394) *)

Definition ProcessSpecial (main : Block) (op : Op) : result Block :=
  OK (push_stmt main (Special (fn (f op)) (params (f op)) (inputs op) [output op])).

Definition ProcessReshape (main : Block) (op : Op) : result Block :=
  match inputs op with
  | [] => Err Undefined
  | input0 :: _ =>
      OK (push_stmt main (Special (fn (f op)) (params (f op)) [input0] [output op]))
  end.

(** ** AddDecls and Run (lines 24-129) *)

Definition zero_access (s : TensorShape) : list Affine := repeat [] (List.length (dims s)).

Definition program_decl (item : string * TensorShape) : Refinement :=
  mkRefinement RefNone "" (fst item) (zero_access (snd item)) (snd item) "" NoLocation
    (IsConst (fst item)) 0 None.

Definition main_decl (is_input : bool) (item : string * TensorShape) : Refinement :=
  if is_input
  then mkRefinement RefIn (fst item) (fst item) (zero_access (snd item)) (snd item) ""
         NoLocation (IsConst (fst item)) 0 None
  else mkRefinement RefOut (fst item) (fst item) (zero_access (snd item)) (snd item)
         (Intrinsic_ASSIGN N) NoLocation false 0 None.

(** The state [AddDecls] changes: [externals_], [program] and [main]. *)
Record Decls : Type := mkDecls {
  decl_externals : list string;
  decl_program : Block;
  decl_main : Block
}.

Definition AddDecls (st : Decls) (shapes : ShapeMap) (is_input : bool) : Decls :=
  fold_left
    (fun st item =>
       mkDecls (set_insert (fst item) (decl_externals st))
         (push_ref (decl_program st) (program_decl item))
         (push_ref (decl_main st) (main_decl is_input item)))
    shapes st.

(** The dispatch of lines 43-59. *)
Definition ProcessOp (main : Block) (op : Op) : result Block :=
  match tag op with
  | CONTRACTION => ProcessContraction main op
  | FUNCTION =>
      if is_special E (f op) then ProcessSpecial main op
      else if String.eqb (fn (f op)) "reshape" then ProcessReshape main op
      else ProcessElementwise main op
  | CONSTANT => OK main
  end.

Definition temp_decl (item : string * Binding) : Refinement :=
  mkRefinement RefNone "" (fst item) (zero_access (shape (snd item))) (shape (snd item)) ""
    NoLocation (IsConst (fst item)) 0 None.

(** The body of the loop of lines 62-81. *)
Definition add_temporary (exts : list string) (main : Block) (item : string * Binding) : Block :=
  if negb (count (fst item) exts)
  then
    match btag (snd item) with
    | TENSOR => push_ref main (temp_decl item)
    | _ => main
    end
  else main.

Definition Run : result Block :=
  let program := set_name (set_tag new_Block "program") (program_name (runinfo_ g)) in
  let main := set_name (set_tag new_Block "main") "main" in
  let st := mkDecls (externals_ g) program main in
  let st := AddDecls st (input_shapes (runinfo_ g)) true in
  let st := AddDecls st (output_shapes (runinfo_ g)) false in
  main <- foldM ProcessOp (ops (parsed_ g)) (decl_main st) ;;
  let main := fold_left (add_temporary (decl_externals st)) (vars_ g) main in
  OK (push_stmt (decl_program st) (BlockStmt main)).

End Generator.

(** [GenerateStripe] (line 560). *)
Definition GenerateStripe (N : Names) (E : Collaborators) (runinfo : RunInfo) : result Block :=
  gen <- StripeGenerator_new E runinfo ;;
  Run N E gen.

(** * Vocabulary of the statements *)

(** A map entry for coefficient [z]: none when [z] is zero. *)
Definition entry (z : Z) : option Z := if z =? 0 then None else Some z.

Definition index_terms {T : Type} (p : Polynomial T) : Polynomial T :=
  filter (fun t => negb (String.eqb (fst t) "")) p.

Definition total (l : list Z) : Z := fold_right Z.add 0 l.

(** Every coefficient is an [int64_t]. *)
Definition int64_values (a : Affine) : Prop := Forall (fun t => in_int64 (snd t)) a.

Section IntegerizeVocabulary.

Variable E : Collaborators.

(** [bounds] has an entry for every index name of [p]. *)
Definition covers (bounds : IndexBounds) (p : Polynomial Rational) : Prop :=
  forall i q, In (i, q) p -> i <> "" -> find i bounds <> None.

Definition non_integer (t : string * Rational) : Prop := denominator (snd t) <> 1.

(** The cast of line 459 returns a value that an [int64_t] holds
    unchanged. *)
Definition exact_cast : Prop := forall z, in_int64 z -> int64_of_Integer E z = z.

(** Every numerator of [p] is a value that an [int64_t] holds. *)
Definition int64_coeffs (p : Polynomial Rational) : Prop :=
  Forall (fun t => in_int64 (numerator (snd t))) p.

(** The constant term of [p]: the numerator of the term of the empty
    name, which is the term itself when its denominator is 1. *)
Definition const_term (p : Polynomial Rational) : Z :=
  match find "" p with Some q => numerator q | None => 0 end.

(** [c * bounds[i].min] for the indexed term [t], [c] being its numerator. *)
Definition shift (bounds : IndexBounds) (t : string * Rational) : Z :=
  match find (fst t) bounds with
  | Some b => numerator (snd t) * min b
  | None => 0
  end.

Definition shift_sum (bounds : IndexBounds) (p : Polynomial Rational) : Z :=
  total (map (shift bounds) (index_terms p)).

(** What one term adds to the constant. *)
Definition term_shift (bounds : IndexBounds) (t : string * Rational) : Z :=
  if String.eqb (fst t) "" then numerator (snd t) else shift bounds t.

(** The entry of index [i] in the result: coefficient [c] when the bound of
    [i] is not degenerate. *)
Definition kept (bounds : IndexBounds) (i : string) (q : Rational) : option Z :=
  match find i bounds with
  | Some b => if min b =? max b then None else entry (numerator q)
  | None => None
  end.

Definition kept_coeff (bounds : IndexBounds) (p : Polynomial Rational) (i : string)
  : option Z :=
  match find i p with
  | Some q => kept bounds i q
  | None => None
  end.

End IntegerizeVocabulary.

(** ** Constraints and output indexes *)

(** Every index variable of [con] is one of [out_idxs]: an "output only"
    constraint in the words of the source. *)
Definition output_only (out_idxs : list string) (con : Affine) : Prop :=
  forall k, In k (keys con) -> k <> "" -> count k out_idxs = true.

(** Every index variable of [con] is outside [out_idxs]. *)
Definition only_outside (out_idxs : list string) (con : Affine) : Prop :=
  forall k, In k (keys con) -> k <> "" -> count k out_idxs = false.

(** The rule "true exactly for a constraint with only index variables
    outside the output index variables", for a block whose dimension
    checks pass. *)
Definition outside_constraint_rule (block : Block) (out_shape : TensorShape) : Prop :=
  forall out_idxs,
    NeedsInitialize_dims block (dims out_shape) 0 [] = OK (Some out_idxs) ->
    (NeedsInitialize block out_shape = OK true <->
     exists con, In con (constraints block) /\ only_outside out_idxs con).

(** ** Output polynomials *)

Definition output_polys (cion : Contraction) : list (Polynomial Rational) :=
  match specs cion with
  | [] => []
  | out :: _ => spec out
  end.

(** A polynomial as the map holds it: sorted names, no zero coefficient. *)
Definition wf_poly (p : Polynomial Rational) : Prop :=
  sorted_keys (keys p) /\ Forall (fun t => numerator (snd t) <> 0) p.

(** The rule "more than two index terms, or exactly two and a zero
    constant", counting the terms of an index only. *)
Definition index_term_rule (cion : Contraction) : Prop :=
  is_fancy cion = true <->
  exists p, In p (output_polys cion)
    /\ ((2 < List.length (index_terms p))%nat
        \/ (List.length (index_terms p) = 2%nat /\ numerator (rconstant p) = 0)).

(** ** Kernels *)

Definition is_load_or_constant (s : Statement) : Prop :=
  match s with
  | Load _ _ | Constant _ _ => True
  | _ => False
  end.

(** The range [Run] gives the index of a bound (line 207). *)
Definition bound_range (b : Bound) : Z := wrapu64 (max b - min b + 1).

(** The indexes a contraction kernel declares for [bounds]. *)
Definition declared_idxs (bounds : IndexBounds) : list Index :=
  map (fun kvp => mkIndex (fst kvp) (bound_range (snd kvp)))
    (filter (fun kvp => negb (bound_range (snd kvp) =? 1)) bounds).

Definition is_special_stmt (s : Statement) : Prop :=
  match s with
  | Special _ _ _ _ => True
  | _ => False
  end.

Definition no_unit_index (b : Block) : Prop := Forall (fun ix => range ix <> 1) (idxs b).

(** Every kernel block among the statements has no index of range 1. *)
Definition kernels_no_unit_index (l : list Statement) : Prop :=
  Forall (fun s => match s with BlockStmt k => no_unit_index k | _ => True end) l.

(** An In refinement of one of the specs [sps]. *)
Definition input_ref_of (sps : list TensorSpec) (r : Refinement) : Prop :=
  dir r = RefIn /\ exists sp, In sp sps /\ from r = id sp /\ into r = id sp.

Definition scalar_names (sps : list TensorSpec) : list string :=
  map (fun sp => String.append "$" (id sp)) sps.

Section KernelVocabulary.

Variable N : Names.
Variable E : Collaborators.

(** The kernel of a contraction before its loops (lines 151-153). *)
Definition contraction_kernel0 (main : Block) (op : Op) (cion : Contraction) : Block :=
  set_tag (set_tag (snd (AddKernel E main op)) "contraction")
    (String.append "agg_op_" (GetAggOp N (agg_op cion))).

(** The Out refinement of line 164 for the first spec. *)
Definition output_ref (cion : Contraction) (out : TensorSpec) (acc : list Affine)
    (shape : TensorShape) : Refinement :=
  mkRefinement RefOut (id out) (id out) acc shape (GetAggOp N (agg_op cion))
    NoLocation false 0 None.

(** The statements of lines 232-241 for the scalar inputs [si]. *)
Definition combination_stmts (cion : Contraction) (op : Op) (si : list string)
  : list Statement :=
  if Nat.ltb 1 (List.length si)
  then
    if String.eqb (GetComboOp N (comb_op cion)) "" then []
    else [Intrinsic (GetComboOp N (comb_op cion)) si [String.append "$" (output op)]]
  else [Intrinsic "assign" si [String.append "$" (output op)]].

(** Steps 4 and 5-7 of the compilation (lines 526-530 and 534-543). *)
Definition reduce_and_gather (shapes : list TensorShape) (integral_cion : Contraction)
    (cons : list RangeConstraint) : result (Contraction * list RangeConstraint) :=
  reduced <- ReduceOutputPolynomials E integral_cion cons ;;
  cons <- GatherConstraints E reduced shapes ;;
  OK (reduced, cons).

Definition merge_and_defract (shapes : list TensorShape)
    (rc : Contraction * list RangeConstraint) : result (Contraction * list RangeConstraint) :=
  cons <- MergeParallelConstraints E (snd rc) ;;
  defracted <- Defract E (fst rc) cons ;;
  cons <- GatherConstraints E defracted shapes ;;
  cons <- MergeParallelConstraints E cons ;;
  OK (defracted, cons).

End KernelVocabulary.

(** The generator [gen] with another list of operations. *)
Definition with_ops (gen : StripeGenerator) (l : list Op) : StripeGenerator :=
  mkStripeGenerator (mkProgram l) (vars_ gen) (runinfo_ gen) (externals_ gen).

(** The rule "one intrinsic of the operator and its tag for more than one
    scalar input; an assign intrinsic for exactly one scalar input or an
    operator of empty name". *)
Definition assign_for_empty_operator (N : Names) (E : Collaborators) (gen : StripeGenerator)
    (main : Block) (op : Op) : Prop :=
  forall main' out_shape shapes cion range_cons kernel pre,
    ProcessContraction N E gen main op = OK main' ->
    GetShape gen (output op) = OK out_shape ->
    byte_size E out_shape <> 0 ->
    MakeShapes gen (c op) = OK shapes ->
    CompileContraction E (c op) shapes = OK (cion, range_cons) ->
    stmts main' = stmts main ++ pre ++ [BlockStmt kernel] ->
    let si := scalar_names (tl (specs cion)) in
    let combo := GetComboOp N (comb_op cion) in
    ((1 < List.length si)%nat ->
     In (Intrinsic combo si [String.append "$" (output op)]) (stmts kernel)
     /\ In (String.append "comb_op_" combo) (tags kernel))
    /\ (List.length si = 1%nat \/ combo = "" ->
        In (Intrinsic "assign" si [String.append "$" (output op)]) (stmts kernel)).

(** ** Elementwise kernels *)

(** The name of the loop index of output dimension [i] (counted from 0). *)
Definition loop_index (i : nat) : string := String.append "i" (decimal (i + 1)).

(** [l] with its positions, counted from [i]. *)
Definition numbered {A : Type} (i : nat) (l : list A) : list (nat * A) :=
  combine (seq i (List.length l)) l.

(** One index per dimension, dimension [j] of [ds] named as output
    dimension [i + j]. *)
Definition eltwise_idxs (i : nat) (ds : list TensorDimension) : list Index :=
  map (fun p => mkIndex (loop_index (fst p)) (size (snd p))) (numbered i ds).

(** One access per dimension of [ds]: the loop index of output dimension
    [i + j] for a dimension [j] of size above 1, the constant 0 otherwise. *)
Definition eltwise_access (i : nat) (ds : list TensorDimension) : list Affine :=
  map (fun p => if 1 <? size (snd p) then [(loop_index (fst p), 1)] else []) (numbered i ds).

Definition is_tensor (vars : Bindings) (input : string) : bool :=
  match find input vars with
  | Some b => match btag b with TENSOR => true | _ => false end
  | None => false
  end.

Definition tensor_inputs (vars : Bindings) (inputs : list string) : list string :=
  filter (is_tensor vars) inputs.

(** [r] is the In refinement of the tensor input [input], with the access
    [ProcessElementwise] computes for it in [kernel]. *)
Definition broadcast_ref (gen : StripeGenerator) (kernel : Block) (out_shape : TensorShape)
    (input : string) (r : Refinement) : Prop :=
  dir r = RefIn /\ from r = input /\ into r = input
  /\ exists b, find input (vars_ gen) = Some b
               /\ broadcast_access kernel out_shape (shape b) = OK (access r).

(** ** Declarations *)

(** The names [Run] holds in [externals_] after the two calls of [AddDecls]. *)
Definition is_external (gen : StripeGenerator) (k : string) : bool :=
  count k (externals_ gen)
  || count k (keys (input_shapes (runinfo_ gen)))
  || count k (keys (output_shapes (runinfo_ gen))).

Definition is_tensor_binding (b : Binding) : bool :=
  match btag b with TENSOR => true | _ => false end.

(** The bound values that are tensors and not external. *)
Definition temporaries (gen : StripeGenerator) : Bindings :=
  filter (fun item => negb (is_external gen (fst item)) && is_tensor_binding (snd item))
    (vars_ gen).

(** The rule "the program block counts one refinement per input, output
    and temporary". *)
Definition temporaries_at_program_scope (N : Names) (E : Collaborators)
    (gen : StripeGenerator) : Prop :=
  forall program,
    Run N E gen = OK program ->
    List.length (refs program)
    = (List.length (input_shapes (runinfo_ gen))
       + List.length (output_shapes (runinfo_ gen))
       + List.length (temporaries gen))%nat.

(** ** Affine expressions as the map holds them *)

(** Sorted names, no zero coefficient, every coefficient an [int64_t]. *)
Definition wf_affine (a : Affine) : Prop :=
  sorted_keys (keys a) /\ Forall (fun t => snd t <> 0) a /\ int64_values a.

(** [bounds] has an entry for every index name among [terms]. *)
Definition bounded_terms (bounds : IndexBounds) (terms : Polynomial Rational) : Prop :=
  Forall (fun t => fst t <> "" -> find (fst t) bounds <> None) terms.

Definition integer_terms (terms : Polynomial Rational) : Prop :=
  Forall (fun t => denominator (snd t) = 1) terms.

(** What [Integerize] asks of a polynomial. *)
Definition integerizable (bounds : IndexBounds) (terms : Polynomial Rational) : Prop :=
  integer_terms terms /\ bounded_terms bounds terms.

(** What lines 157-162 ask of a spec: a bound tensor, and polynomials that
    can be integerized. *)
Definition lowerable (gen : StripeGenerator) (bounds : IndexBounds) (sp : TensorSpec) : Prop :=
  find (id sp) (vars_ gen) <> None /\ Forall (integerizable bounds) (spec sp).

(** ** Simple outputs *)

(** The access [NeedsInitialize] reads: that of the first refinement. *)
Definition front_access (block : Block) : list Affine :=
  match refs block with
  | [] => []
  | front :: _ => access front
  end.

(** Dimension [d] is either of size 1 and written at 0, or written along
    one declared index, with multiplier 1 and the range of the dimension. *)
Definition simple_dim (block : Block) (a : Affine) (d : TensorDimension) : Prop :=
  (a = [] /\ size d = 1)
  \/ exists idx ix,
       a = [(idx, 1)] /\ idx <> "" /\ idx_by_name block idx = Some ix /\ range ix = size d.

(** The index names of the accesses [acc]. *)
Definition access_idxs (acc : list Affine) : list string := flat_map (@keys Z) acc.

(** "1 unique index per dimension, each full range", and every constraint
    uses an index that is not one of these. *)
Definition simple_output (block : Block) (out_shape : TensorShape) : Prop :=
  let acc := firstn (List.length (dims out_shape)) (front_access block) in
  Forall2 (simple_dim block) acc (dims out_shape)
  /\ NoDup (access_idxs acc)
  /\ Forall (fun con => exists k, In k (keys con) /\ k <> "" /\ ~ In k (access_idxs acc))
       (constraints block).

(** ** The inputs of an elementwise kernel *)

(** The shape [ScalarShape] makes of [s]: every size 1. *)
Definition scalar_of (s : TensorShape) : TensorShape :=
  mkShape (type s) (map (fun dim => mkDim (stride dim) 1) (dims s)).

(** An input [ProcessElementwise] accepts: bound, and not to a tuple. *)
Definition usable_input (vars : Bindings) (input : string) : Prop :=
  exists b, find input vars = Some b /\ btag b <> TUPLE.

(** The statement that brings the value named [input] into a kernel: a
    constant for a name bound to an integer or a float, a load otherwise. *)
Definition input_stmt (vars : Bindings) (input : string) : Statement :=
  match find input vars with
  | Some b =>
      match btag b with
      | ICONST => Constant (ScalarName input) (IntLit (iconst b))
      | FCONST => Constant (ScalarName input) (FloatLit (fconst b))
      | _ => Load input (ScalarName input)
      end
  | None => Load input (ScalarName input)
  end.

(** The access of a tensor input of dimensions [in_dims] in a kernel over
    [out_rank] output dimensions: the input dimensions are aligned with
    the last output dimensions, and input dimensions in excess of the
    output rank are dropped from the front. *)
Definition aligned_access (out_rank : nat) (in_dims : list TensorDimension) : list Affine :=
  eltwise_access (out_rank - List.length in_dims)
    (skipn (List.length in_dims - out_rank) in_dims).

Definition eltwise_in_ref (gen : StripeGenerator) (out_shape : TensorShape) (input : string)
    (b : Binding) : Refinement :=
  mkRefinement RefIn input input
    (aligned_access (List.length (dims out_shape)) (dims (shape b)))
    (scalar_of (shape b)) "" NoLocation (IsConst gen input) 0 None.

Definition eltwise_in_refs (gen : StripeGenerator) (out_shape : TensorShape)
    (inputs : list string) : list Refinement :=
  flat_map
    (fun input =>
       match find input (vars_ gen) with
       | Some b => if is_tensor_binding b then [eltwise_in_ref gen out_shape input b] else []
       | None => []
       end)
    inputs.

(** The kernel of an elementwise operation whose output has the shape
    [out_shape]. *)
Definition eltwise_kernel (E : Collaborators) (gen : StripeGenerator) (main : Block) (op : Op)
    (out_shape : TensorShape) : Block :=
  let fresh := snd (AddKernel E main op) in
  mkBlock (name fresh) (comments fresh)
    (set_insert (String.append "eltwise_" (fn (f op))) (set_insert "eltwise" (tags fresh)))
    (filter (fun idx => negb (range idx =? 1)) (eltwise_idxs 0 (dims out_shape)))
    []
    (eltwise_in_refs gen out_shape (inputs op)
     ++ [mkRefinement RefOut (output op) (output op) (eltwise_access 0 (dims out_shape))
           (scalar_of out_shape) "" NoLocation false 0 None])
    (map (input_stmt (vars_ gen)) (inputs op)
     ++ [Intrinsic (fn (f op)) (map ScalarName (inputs op)) [ScalarName (output op)];
         Store (ScalarName (output op)) (output op)]).

(** ** The name of a kernel *)

(** A [pid] attribute with a parameter. *)
Definition is_pid (attr : Attribute) : bool :=
  String.eqb (attr_name attr) "pid" && negb (Nat.eqb (List.length (attr_params attr)) 0).

(** The name of the kernel made for [op] under a parent of [n] statements:
    the first parameter of the last [pid] attribute, or [kernel_<n>]. *)
Definition kernel_name (n : nat) (op : Op) : string :=
  match List.find is_pid (rev (attributes op)) with
  | Some attr => hd "" (attr_params attr)
  | None => String.append "kernel_" (decimal n)
  end.

(** ** The inputs and constraints of a contraction kernel *)

(** A name bound to an integer or a float constant. *)
Definition is_inlined (vars : Bindings) (input : string) : bool :=
  match find input vars with
  | Some b => match btag b with ICONST | FCONST => true | _ => false end
  | None => false
  end.

Definition loaded_specs (vars : Bindings) (sps : list TensorSpec) : list TensorSpec :=
  filter (fun sp => negb (is_inlined vars (id sp))) sps.

(** [r] is the In refinement of the input spec [sp]. *)
Definition contraction_in_ref (E : Collaborators) (gen : StripeGenerator)
    (bounds : IndexBounds) (sp : TensorSpec) (r : Refinement) : Prop :=
  dir r = RefIn /\ from r = id sp /\ into r = id sp
  /\ spec_access E bounds sp = OK (access r)
  /\ ScalarShape gen (id sp) = OK (ref_shape r)
  /\ ref_agg_op r = "" /\ is_const r = IsConst gen (id sp)
  /\ offset r = 0 /\ bank_dim r = None.

(** [con], read as [con >= 0], is the constraint [poly <= rhs] of [sc]. *)
Definition flipped (E : Collaborators) (bounds : IndexBounds) (sc : SimpleConstraint)
    (con : Affine) : Prop :=
  exists lhs,
    Integerize E (poly sc) bounds = OK lhs
    /\ constant con = wrap64 (rhs sc - constant lhs)
    /\ (forall k, k <> "" -> coeff k con = wrap64 (- coeff k lhs))
    /\ wf_affine con.

(** ** What an operation adds to [main] *)

(** The names of the kernel blocks among the statements. *)
Definition kernel_names (l : list Statement) : list string :=
  flat_map (fun s => match s with BlockStmt k => [name k] | _ => [] end) l.

(** The kernel [k] was made for [op] under a parent of [n] statements. *)
Definition made_for (E : Collaborators) (n : nat) (op : Op) (k : Block) : Prop :=
  name k = kernel_name n op /\ comments k = to_string_Op E op /\ In "kernel" (tags k).

(** The body of a kernel: loads and constants, at most one intrinsic
    writing the scalar of the output, and the store of that scalar. *)
Definition kernel_body (k : Block) : Prop :=
  exists loads mid out,
    stmts k = loads ++ mid ++ [Store (ScalarName out) out]
    /\ Forall is_load_or_constant loads
    /\ (mid = [] \/ exists nm ins, mid = [Intrinsic nm ins [ScalarName out]]).

(** The refinements of a kernel: each keeps the name of its tensor, views
    one element (every size of its shape is 1), and is an In refinement
    or an Out refinement that is not constant. *)
Definition kernel_refs (k : Block) : Prop :=
  Forall
    (fun r =>
       from r = into r
       /\ Forall (fun d => size d = 1) (dims (ref_shape r))
       /\ (dir r = RefIn \/ (dir r = RefOut /\ is_const r = false)))
    (refs k).

(** The fields of a refinement the generator does not use: no offset and
    no bank; and the constness: that of the tensor, by its name, except
    that an Out refinement is never constant. *)
Definition plain_ref (gen : StripeGenerator) (r : Refinement) : Prop :=
  offset r = 0 /\ bank_dim r = None
  /\ is_const r = match dir r with
                  | RefOut => false
                  | _ => IsConst gen (into r)
                  end.

(** A statement of [main]: a special statement or a kernel. *)
Definition main_stmt (s : Statement) : Prop :=
  match s with
  | Special _ _ _ _ => True
  | BlockStmt k => In "kernel" (tags k) /\ kernel_body k /\ kernel_refs k
  | _ => False
  end.

(** No attribute of [op] renames its kernel. *)
Definition no_pid (op : Op) : Prop := Forall (fun attr => is_pid attr = false) (attributes op).

(** The names are [kernel_<m>] for pairwise different [m] below [n]. *)
Definition numbered_names (n : nat) (names : list string) : Prop :=
  NoDup names
  /\ forall nm, In nm names ->
       exists m, (m < n)%nat /\ nm = String.append "kernel_" (decimal m).

(** ** Outcomes that do not depend on [main] *)

(** Two computations both return, with results related by [R], or both
    throw the same exception. *)
Definition same_outcome {A : Type} (R : A -> A -> Prop) (r r' : result A) : Prop :=
  match r, r' with
  | OK a, OK a' => R a a'
  | Err e, Err e' => e = e'
  | _, _ => False
  end.

(** Two blocks that differ in their names at most. *)
Definition renamed (k k' : Block) : Prop :=
  comments k = comments k' /\ tags k = tags k' /\ idxs k = idxs k'
  /\ constraints k = constraints k' /\ refs k = refs k' /\ stmts k = stmts k'.

(** The operation can be lowered. *)
Definition lowers (N : Names) (E : Collaborators) (gen : StripeGenerator) (op : Op) : Prop :=
  exists main', ProcessOp N E gen new_Block op = OK main'.

(** ** The specs of a contraction *)

(** The tensor of the spec is bound. *)
Definition bound_spec (vars : Bindings) (sp : TensorSpec) : Prop :=
  find (id sp) vars <> None.

(** ** Declared indexes *)

(** The bounds are [int64_t] values. *)
Definition int64_bounds (bounds : IndexBounds) : Prop :=
  Forall (fun kvp => in_int64 (min (snd kvp)) /\ in_int64 (max (snd kvp))) bounds.

(** Every index name of [a] is declared by [block]. *)
Definition uses_declared (block : Block) (a : Affine) : Prop :=
  forall k, In k (keys a) -> k <> "" ->
    exists ix, idx_by_name block k = Some ix /\ idx_name ix = k.

(** Every index name of an access or a constraint of [block] is declared. *)
Definition closed_block (block : Block) : Prop :=
  Forall (fun r => Forall (uses_declared block) (access r)) (refs block)
  /\ Forall (uses_declared block) (constraints block).

(** Every input dimension of size above 1 has the size of the output
    dimension it is aligned with. *)
Definition broadcast_compatible (out_dims in_dims : list TensorDimension) : Prop :=
  forall j d,
    nth_error in_dims (List.length in_dims - List.length out_dims + j) = Some d ->
    1 < size d ->
    exists od,
      nth_error out_dims (List.length out_dims - List.length in_dims + j) = Some od
      /\ size od = size d.

(** ** The generator made from a run *)

(** The bound tensors that are neither an input nor an output of the run. *)
Definition internal_tensors (runinfo : RunInfo) (vars : Bindings) : Bindings :=
  filter
    (fun item =>
       negb (count (fst item) (keys (input_shapes runinfo)))
       && negb (count (fst item) (keys (output_shapes runinfo)))
       && is_tensor_binding (snd item))
    vars.

(** ** The value of an affine expression *)

(** What the name [k] stands for: 1 for the empty name, which holds the
    constant, and the value of the index otherwise. *)
Definition index_value (env : string -> Z) (k : string) : Z :=
  if String.eqb k "" then 1 else env k.

Definition affine_value (env : string -> Z) (a : Affine) : Z :=
  total (map (fun t => snd t * index_value env (fst t)) a).

(** The value of the index [k] of a contraction when the indexes of the
    kernel are at [env]: an index of the kernel counts from 0 where that of
    the contraction counts from its minimum, and an index with one value only
    stays at it. *)
Definition rebased (bounds : IndexBounds) (env : string -> Z) (k : string) : Z :=
  match find k bounds with
  | Some b => if min b =? max b then min b else min b + env k
  | None => env k
  end.

(** The value of a polynomial whose coefficients are integers, each the
    numerator of its term. *)
Definition poly_value (bounds : IndexBounds) (env : string -> Z) (p : Polynomial Rational)
  : Z :=
  total (map (fun t => numerator (snd t) * index_value (rebased bounds env) (fst t)) p).

(** Equal as [int64_t]. *)
Definition same64 (a b : Z) : Prop := wrap64 a = wrap64 b.

(** [con] is the expression lines 214-216 make of the constraint [sc]. *)
Definition constraint_of (E : Collaborators) (bounds : IndexBounds) (sc : SimpleConstraint)
    (con : Affine) : Prop :=
  exists lhs,
    Integerize E (poly sc) bounds = OK lhs
    /\ con = Affine_neg (Affine_sub lhs (Affine_of_int (rhs sc))).

(** ** Scalars and refinements in scope *)

(** The statements [l] of a kernel, in order: a load reads a refinement
    among [ins], a store writes one among [outs], and a scalar is read by an
    intrinsic or a store only after a statement wrote it; [defined] holds
    the scalars written so far. *)
Fixpoint scoped (ins outs defined : list string) (l : list Statement) : Prop :=
  match l with
  | [] => True
  | Load from_ into_ :: rest =>
      In from_ ins /\ scoped ins outs (into_ :: defined) rest
  | Store from_ into_ :: rest =>
      In from_ defined /\ In into_ outs /\ scoped ins outs defined rest
  | Constant name_ _ :: rest => scoped ins outs (name_ :: defined) rest
  | Intrinsic _ inputs_ outputs_ :: rest =>
      incl inputs_ defined /\ scoped ins outs (outputs_ ++ defined) rest
  | _ :: rest => scoped ins outs defined rest
  end.

Definition is_dir (d : RefDir) (r : Refinement) : bool :=
  match dir r, d with
  | RefNone, RefNone | RefIn, RefIn | RefOut, RefOut | RefInOut, RefInOut => true
  | _, _ => false
  end.

(** The names a block gives the refinements of direction [d]. *)
Definition refined (d : RefDir) (k : Block) : list string :=
  map into (filter (is_dir d) (refs k)).

Definition well_scoped (k : Block) : Prop :=
  scoped (refined RefIn k) (refined RefOut k) [] (stmts k).

(** * Sample programs

    Concrete inputs on which the statements below are evaluated.  The
    collaborators of the samples leave a contraction as it is and answer
    with the bounds and constraints they are given. *)

Definition sample_names : Names :=
  mkNames "assign" "add" "max" "min" "mul" "mul" "add" "cmp_eq" "cond" "zero" "copy".

Definition sample_collaborators (bounds : IndexBounds) (simple_cons : list SimpleConstraint)
  : Collaborators :=
  mkCollaborators
    (fun z => z)
    (fun s => 4 * fold_left (fun n d => n * size d) (dims s) 1)
    (fun _ => false)
    (fun op => output op)
    (fun _ => Err (External "Parse"))
    (fun _ _ _ => Err (External "BindProgram"))
    (fun cion => OK cion)
    (fun _ _ => OK [])
    (fun cion _ => OK cion)
    (fun cons => OK cons)
    (fun cion _ => OK cion)
    (fun _ => OK (bounds, simple_cons)).

Definition float32 : DataType := 50.

Definition no_contraction : Contraction := mkContraction [] Agg_NONE Comb_NONE "" false.
Definition no_function : Function := mkFunction "" [].

Definition block_or_new (r : result Block) : Block :=
  match r with OK b => b | Err _ => new_Block end.

(** T = add(A, B); C = exp(T), with A of shape (4,1), B, T and C of shape (4,8). *)
Definition shape_4_1 : TensorShape := mkShape float32 [mkDim 1 4; mkDim 1 1].
Definition shape_4_8 : TensorShape := mkShape float32 [mkDim 8 4; mkDim 1 8].

Definition eltwise_vars : Bindings :=
  [("A", mkBinding TENSOR shape_4_1 0 (S754_zero false));
   ("B", mkBinding TENSOR shape_4_8 0 (S754_zero false));
   ("C", mkBinding TENSOR shape_4_8 0 (S754_zero false));
   ("T", mkBinding TENSOR shape_4_8 0 (S754_zero false))].

Definition add_op : Op :=
  mkOp FUNCTION "T" ["A"; "B"] no_contraction (mkFunction "add" []) [].
Definition exp_op : Op :=
  mkOp FUNCTION "C" ["T"] no_contraction (mkFunction "exp" []) [].

Definition eltwise_gen : StripeGenerator :=
  mkStripeGenerator (mkProgram [add_op; exp_op]) eltwise_vars
    (mkRunInfo "sample" "" [("A", shape_4_1); ("B", shape_4_8)] [("C", shape_4_8)] [])
    [].

Definition eltwise_collaborators : Collaborators := sample_collaborators [] [].

Definition eltwise_program : Block :=
  Eval vm_compute in block_or_new (Run sample_names eltwise_collaborators eltwise_gen).

Definition eltwise_main : Block :=
  Eval vm_compute in
    block_or_new (ProcessElementwise eltwise_collaborators eltwise_gen new_Block add_op).

(** C[i, j] = +(A[i, k] * B[k, j]) with A of shape (2,3) and B of shape (3,4). *)
Definition integer (n : Z) : Rational := mkRational n 1.

Definition matmul (comb : CombinationOp) : Contraction :=
  mkContraction
    [mkSpec "C" [[("i", integer 1)]; [("j", integer 1)]];
     mkSpec "A" [[("i", integer 1)]; [("k", integer 1)]];
     mkSpec "B" [[("k", integer 1)]; [("j", integer 1)]]]
    Agg_SUM comb "" false.

Definition matmul_op (comb : CombinationOp) : Op :=
  mkOp CONTRACTION "C" ["A"; "B"] (matmul comb) no_function [].

Definition shape_2_3 : TensorShape := mkShape float32 [mkDim 3 2; mkDim 1 3].
Definition shape_3_4 : TensorShape := mkShape float32 [mkDim 4 3; mkDim 1 4].
Definition shape_2_4 : TensorShape := mkShape float32 [mkDim 4 2; mkDim 1 4].

Definition matmul_vars : Bindings :=
  [("A", mkBinding TENSOR shape_2_3 0 (S754_zero false));
   ("B", mkBinding TENSOR shape_3_4 0 (S754_zero false));
   ("C", mkBinding TENSOR shape_2_4 0 (S754_zero false))].

Definition matmul_gen (comb : CombinationOp) : StripeGenerator :=
  mkStripeGenerator (mkProgram [matmul_op comb]) matmul_vars
    (mkRunInfo "sample" "" [("A", shape_2_3); ("B", shape_3_4)] [("C", shape_2_4)] [])
    [].

Definition matmul_bounds : IndexBounds :=
  [("i", mkBound 0 1); ("j", mkBound 0 3); ("k", mkBound 0 2)].

(** The bounds alone, and the bounds with the constraint [i <= 0]. *)
Definition matmul_collaborators : Collaborators := sample_collaborators matmul_bounds [].
Definition constrained_collaborators : Collaborators :=
  sample_collaborators matmul_bounds [mkSimpleConstraint [("i", integer 1)] 0].

Definition matmul_main (E : Collaborators) (comb : CombinationOp) : result Block :=
  ProcessContraction sample_names E (matmul_gen comb) new_Block (matmul_op comb).

Definition matmul_result (E : Collaborators) (comb : CombinationOp) : Block :=
  block_or_new (matmul_main E comb).

Definition matmul_kernel (E : Collaborators) (comb : CombinationOp) : Block :=
  match matmul_main E comb with
  | OK main => match last (stmts main) (Load "" "") with
               | BlockStmt k => k
               | _ => new_Block
               end
  | Err _ => new_Block
  end.

(** The same contraction with an output of shape (0,4). *)
Definition shape_0_4 : TensorShape := mkShape float32 [mkDim 4 0; mkDim 1 4].

Definition empty_gen : StripeGenerator :=
  mkStripeGenerator (mkProgram [matmul_op Comb_MULTIPLY])
    [("A", mkBinding TENSOR shape_2_3 0 (S754_zero false));
     ("B", mkBinding TENSOR shape_3_4 0 (S754_zero false));
     ("C", mkBinding TENSOR shape_0_4 0 (S754_zero false))]
    (mkRunInfo "sample" "" [("A", shape_2_3); ("B", shape_3_4)] [("C", shape_0_4)] [])
    [].

(** A kernel writing [O[i]] for [i] in a range of 4, reading along [k],
    under the constraint [2 - k >= 0] on the input index alone. *)
Definition input_constraint : Affine := [("", 2); ("k", -1)].

Definition constrained_kernel : Block :=
  mkBlock "kernel_0" "" ["contraction"; "kernel"]
    [mkIndex "i" 4; mkIndex "k" 3]
    [input_constraint]
    [mkRefinement RefOut "O" "O" [[("i", 1)]] (mkShape float32 [mkDim 1 1]) "add"
       NoLocation false 0 None;
     mkRefinement RefIn "I" "I" [[("i", 1); ("k", 1)]] (mkShape float32 [mkDim 1 1]) ""
       NoLocation false 0 None]
    [].

Definition shape_4 : TensorShape := mkShape float32 [mkDim 1 4].

(** The same kernel under the constraint [1 - i >= 0] on the output index. *)
Definition output_constraint : Affine := [("", 1); ("i", -1)].

Definition output_constrained_kernel : Block :=
  set_constraints constrained_kernel [output_constraint].

(** O[i + j + 3] = +(A[i] * B[j]): two index terms and a constant. *)
Definition offset_contraction : Contraction :=
  mkContraction
    [mkSpec "O" [[("", integer 3); ("i", integer 1); ("j", integer 1)]];
     mkSpec "A" [[("i", integer 1)]];
     mkSpec "B" [[("j", integer 1)]]]
    Agg_SUM Comb_MULTIPLY "" false.

(** 5 + 2 i + 3 j with i in [1, 4] and j fixed to 2. *)
Definition sample_poly : Polynomial Rational :=
  [("", integer 5); ("i", integer 2); ("j", integer 3)].
Definition sample_bounds : IndexBounds := [("i", mkBound 1 4); ("j", mkBound 2 2)].

(** O = mul(A, s) with A of shape (4,8), O of shape (8) and s the integer
    3: an input of higher rank than the output, and a constant. *)
Definition shape_8 : TensorShape := mkShape float32 [mkDim 1 8].
Definition shape_scalar : TensorShape := mkShape float32 [].

Definition scale_vars : Bindings :=
  [("A", mkBinding TENSOR shape_4_8 0 (S754_zero false));
   ("O", mkBinding TENSOR shape_8 0 (S754_zero false));
   ("s", mkBinding ICONST shape_scalar 3 (S754_zero false))].

Definition scale_op : Op :=
  mkOp FUNCTION "O" ["A"; "s"] no_contraction (mkFunction "mul" []) [].

Definition scale_gen : StripeGenerator :=
  mkStripeGenerator (mkProgram [scale_op]) scale_vars
    (mkRunInfo "sample" "" [("A", shape_4_8)] [("O", shape_8)] [])
    [].

Definition scale_main : Block :=
  Eval vm_compute in
    block_or_new (ProcessElementwise eltwise_collaborators scale_gen new_Block scale_op).

(** O[i] = +(A[i] * s) with A and O of shape (4), s the integer 3, i in
    [0, 3] and the constraint [i <= 2]. *)
Definition scaled : Contraction :=
  mkContraction
    [mkSpec "O" [[("i", integer 1)]];
     mkSpec "A" [[("i", integer 1)]];
     mkSpec "s" []]
    Agg_SUM Comb_MULTIPLY "" false.

Definition scaled_op : Op := mkOp CONTRACTION "O" ["A"; "s"] scaled no_function [].

Definition scaled_gen : StripeGenerator :=
  mkStripeGenerator (mkProgram [scaled_op])
    [("A", mkBinding TENSOR shape_4 0 (S754_zero false));
     ("O", mkBinding TENSOR shape_4 0 (S754_zero false));
     ("s", mkBinding ICONST shape_scalar 3 (S754_zero false))]
    (mkRunInfo "sample" "" [("A", shape_4)] [("O", shape_4)] [])
    [].

Definition scaled_bounds : IndexBounds := [("i", mkBound 0 3)].
Definition scaled_constraint : SimpleConstraint := mkSimpleConstraint [("i", integer 1)] 2.

Definition scaled_collaborators : Collaborators :=
  sample_collaborators scaled_bounds [scaled_constraint].

Definition scaled_main : Block :=
  Eval vm_compute in
    block_or_new
      (ProcessContraction sample_names scaled_collaborators scaled_gen new_Block scaled_op).

(** 5 + 2 k + z, where [k] has no bound in [sample_bounds]. *)
Definition unbound_poly : Polynomial Rational :=
  [("", integer 5)] ++ ("k", integer 2) :: [("z", integer 1)].

(** O = mul(A, u), where nothing is bound to [u]. *)
Definition unbound_input_op : Op :=
  mkOp FUNCTION "O" ["A"; "u"] no_contraction (mkFunction "mul" []) [].

(** A contraction of the output alone: one spec. *)
Definition lone_op : Op :=
  mkOp CONTRACTION "O" []
    (mkContraction [mkSpec "O" [[("i", integer 1)]]] Agg_SUM Comb_NONE "" false)
    no_function [].

Definition parse_runinfo : RunInfo := mkRunInfo "sample" "O = mul(A, s);" [] [] [].

(** A parser that knows one text, that of the program of [eltwise_gen],
    and a binder that asks for the shape of [A]. *)
Definition eltwise_code : string := "T = add(A, B); C = exp(T);".

Definition parsing_collaborators : Collaborators :=
  mkCollaborators
    (fun z => z)
    (byte_size eltwise_collaborators)
    (fun _ => false)
    (fun op => output op)
    (fun text =>
       if String.eqb text eltwise_code then OK (mkProgram [add_op; exp_op])
       else Err (External "Parse"))
    (fun parsed inputs _ =>
       match find "A" inputs with
       | Some _ => OK (parsed, eltwise_vars)
       | None => Err (External "BindProgram")
       end)
    (fun cion => OK cion)
    (fun _ _ => OK [])
    (fun cion _ => OK cion)
    (fun cons => OK cons)
    (fun cion _ => OK cion)
    (fun _ => OK ([], [])).

Definition eltwise_runinfo : RunInfo :=
  mkRunInfo "sample" eltwise_code [("A", shape_4_1); ("B", shape_4_8)] [("C", shape_4_8)] [].

(** The same run without the shapes of the inputs. *)
Definition unbound_runinfo : RunInfo :=
  mkRunInfo "sample" eltwise_code [] [("C", shape_4_8)] [].

Definition generated_program : Block :=
  Eval vm_compute in
    block_or_new (GenerateStripe sample_names parsing_collaborators eltwise_runinfo).

(** O[i] = +(A[i], B[i]) with two inputs and no combination. *)
Definition paired : Contraction :=
  mkContraction
    [mkSpec "O" [[("i", integer 1)]];
     mkSpec "A" [[("i", integer 1)]];
     mkSpec "B" [[("i", integer 1)]]]
    Agg_SUM Comb_NONE "" false.

Definition paired_op : Op := mkOp CONTRACTION "O" ["A"; "B"] paired no_function [].

Definition paired_gen : StripeGenerator :=
  mkStripeGenerator (mkProgram [paired_op])
    [("A", mkBinding TENSOR shape_4 0 (S754_zero false));
     ("B", mkBinding TENSOR shape_4 0 (S754_zero false));
     ("O", mkBinding TENSOR shape_4 0 (S754_zero false))]
    (mkRunInfo "sample" "" [("A", shape_4); ("B", shape_4)] [("O", shape_4)] [])
    [].

Definition paired_main : Block :=
  Eval vm_compute in
    block_or_new
      (ProcessContraction sample_names scaled_collaborators paired_gen new_Block paired_op).

(** * Properties *)

(** ** The exception monad *)

Lemma bind_OK (A B : Type) (m : result A) (k : A -> result B) (b : B) :
  bind m k = OK b -> exists a, m = OK a /\ k a = OK b.
Proof.
  destruct m as [a|e]; simpl; intros H; [eauto | discriminate].
Qed.

Lemma foldM_app (A B : Type) (body : A -> B -> result A) (l1 l2 : list B) (a : A) :
  foldM body (l1 ++ l2) a = bind (foldM body l1 a) (foldM body l2).
Proof.
  revert a; induction l1 as [|x l1 IH]; intros a; simpl; [reflexivity|].
  destruct (body a x); simpl; auto.
Qed.

Tactic Notation "inv_bind" hyp(H) "as" ident(x) ident(Hx) :=
  apply bind_OK in H; destruct H as (x & Hx & H).

(** ** Strings as keys *)

Lemma compare_refl (s : string) : String.compare s s = Eq.
Proof.
  pose proof (String.compare_antisym s s) as H.
  destruct (String.compare s s); simpl in H; congruence.
Qed.

Lemma compare_Eq (a b : string) : String.compare a b = Eq <-> a = b.
Proof.
  split; [apply String.compare_eq_iff | intros ->; apply compare_refl].
Qed.

Lemma ascii_compare_lt_trans (x y z : ascii) :
  Ascii.compare x y = Lt -> Ascii.compare y z = Lt -> Ascii.compare x z = Lt.
Proof.
  unfold Ascii.compare; rewrite !N.compare_lt_iff; lia.
Qed.

Lemma key_lt_trans (a b d : string) : key_lt a b -> key_lt b d -> key_lt a d.
Proof.
  unfold key_lt; revert b d; induction a as [|x a IH]; intros [|y b] [|z d]; simpl;
    try congruence.
  destruct (Ascii.compare x y) eqn:Hxy; try discriminate.
  - apply Ascii.compare_eq_iff in Hxy; subst y.
    destruct (Ascii.compare x z); try congruence; eauto.
  - destruct (Ascii.compare y z) eqn:Hyz; try discriminate.
    + apply Ascii.compare_eq_iff in Hyz; subst z; rewrite Hxy; reflexivity.
    + rewrite (ascii_compare_lt_trans _ _ _ Hxy Hyz); reflexivity.
Qed.

Lemma key_lt_neq (a b : string) : key_lt a b -> a <> b.
Proof.
  unfold key_lt; intros H ->; rewrite compare_refl in H; discriminate.
Qed.

Lemma key_lt_asym (a b : string) : key_lt a b -> ~ key_lt b a.
Proof.
  unfold key_lt; intros H H'; rewrite String.compare_antisym, H' in H; discriminate.
Qed.

Lemma compare_Gt_lt (a b : string) : String.compare a b = Gt -> key_lt b a.
Proof.
  unfold key_lt; intros H; rewrite String.compare_antisym, H; reflexivity.
Qed.

Lemma find_not_key (V : Type) (k : string) (m : smap V) :
  ~ In k (keys m) -> find k m = None.
Proof.
  induction m as [|[k' v] m IH]; simpl; intros H; [reflexivity|].
  destruct (String.eqb_spec k k') as [->|Hne]; [tauto|]; apply IH; tauto.
Qed.

Lemma find_In (V : Type) (k : string) (v : V) (m : smap V) :
  find k m = Some v -> In (k, v) m.
Proof.
  induction m as [|[k' v'] m IH]; simpl; [discriminate|].
  destruct (String.eqb_spec k k') as [->|Hne]; intros H.
  - inversion H; auto.
  - auto.
Qed.

Lemma sorted_head_fresh (k : string) (l : list string) :
  Forall (key_lt k) l -> ~ In k l.
Proof.
  intros H Hin; rewrite Forall_forall in H; exact (key_lt_neq (H _ Hin) eq_refl).
Qed.

(** ** Machine arithmetic *)

Lemma wrap64_range (z : Z) : in_int64 (wrap64 z).
Proof.
  unfold in_int64, wrap64.
  pose proof (Z.mod_pos_bound (z + 2 ^ 63) (2 ^ 64) ltac:(lia)); lia.
Qed.

Lemma wrap64_id (z : Z) : in_int64 z -> wrap64 z = z.
Proof.
  unfold in_int64, wrap64; intros H.
  rewrite Z.mod_small by lia; lia.
Qed.

Lemma wrap64_idem (z : Z) : wrap64 (wrap64 z) = wrap64 z.
Proof. apply wrap64_id, wrap64_range. Qed.

Lemma wrap64_add_l (a b : Z) : wrap64 (wrap64 a + b) = wrap64 (a + b).
Proof.
  unfold wrap64.
  replace ((a + 2 ^ 63) mod 2 ^ 64 - 2 ^ 63 + b + 2 ^ 63)
    with ((a + 2 ^ 63) mod 2 ^ 64 + b) by lia.
  rewrite Zplus_mod_idemp_l.
  replace (a + 2 ^ 63 + b) with (a + b + 2 ^ 63) by lia; reflexivity.
Qed.

(** ** Affine expressions *)

Lemma keys_add_term (k : string) (v : Z) (m : Affine) (x : string) :
  In x (keys (add_term k v m)) -> x = k \/ In x (keys m).
Proof.
  unfold keys; induction m as [|[k' v'] m IH]; simpl.
  - destruct (wrap64 v =? 0); simpl; intuition congruence.
  - destruct (String.compare k k').
    + destruct (wrap64 (v' + v) =? 0); simpl; intuition congruence.
    + destruct (wrap64 v =? 0); simpl; intuition congruence.
    + simpl; intros [H|H]; [tauto | apply IH in H; tauto].
Qed.

Lemma add_term_sorted (k : string) (v : Z) (m : Affine) :
  sorted_keys (keys m) -> sorted_keys (keys (add_term k v m)).
Proof.
  induction m as [|[k' v'] m IH]; simpl; intros Hs.
  - destruct (wrap64 v =? 0); simpl; repeat constructor.
  - inversion Hs as [|? ? Hlt Hs']; subst.
    destruct (String.compare k k') eqn:Hc.
    + destruct (wrap64 (v' + v) =? 0); simpl; [assumption | constructor; assumption].
    + destruct (wrap64 v =? 0); simpl; [assumption|].
      constructor; [|assumption].
      constructor; [exact Hc|].
      eapply Forall_impl; [|exact Hlt]; intros a Ha; exact (key_lt_trans Hc Ha).
    + simpl; constructor; [|auto].
      apply Forall_forall; intros x Hx.
      apply keys_add_term in Hx; destruct Hx as [->|Hx].
      * apply compare_Gt_lt; assumption.
      * rewrite Forall_forall in Hlt; auto.
Qed.

Lemma find_add_term (k : string) (v : Z) (m : Affine) (k' : string) :
  sorted_keys (keys m) ->
  find k' (add_term k v m) =
    if String.eqb k' k then entry (wrap64 (coeff k m + v)) else find k' m.
Proof.
  unfold coeff, entry; induction m as [|[k0 v0] m IH]; simpl; intros Hs.
  - destruct (wrap64 v =? 0); simpl; destruct (String.eqb k' k); reflexivity.
  - inversion Hs as [|? ? Hlt Hs']; subst.
    destruct (String.compare k k0) eqn:Hc.
    + apply compare_Eq in Hc; subst k0; rewrite String.eqb_refl.
      destruct (wrap64 (v0 + v) =? 0); simpl; destruct (String.eqb k' k) eqn:Hk; try reflexivity.
      apply String.eqb_eq in Hk; subst k'.
      apply find_not_key, sorted_head_fresh; assumption.
    + assert (Hne : String.eqb k k0 = false)
        by (apply String.eqb_neq; apply key_lt_neq; exact Hc).
      assert (Hfresh : find k m = None).
      { apply find_not_key; intros Hin; rewrite Forall_forall in Hlt.
        exact (key_lt_asym Hc (Hlt _ Hin)). }
      rewrite Hne, Hfresh; simpl.
      destruct (wrap64 v =? 0); simpl; destruct (String.eqb k' k) eqn:Hk; try reflexivity.
      apply String.eqb_eq in Hk; subst k'; rewrite Hne; assumption.
    + assert (Hne : String.eqb k k0 = false).
      { apply String.eqb_neq; intros ->; rewrite compare_refl in Hc; discriminate. }
      rewrite Hne; simpl; rewrite (IH Hs').
      destruct (String.eqb k' k0) eqn:Hk0; [|reflexivity].
      destruct (String.eqb k' k) eqn:Hk; [|reflexivity].
      apply String.eqb_eq in Hk0, Hk; subst; rewrite String.eqb_refl in Hne; discriminate.
Qed.

Lemma add_term_int64 (k : string) (v : Z) (m : Affine) :
  int64_values m -> int64_values (add_term k v m).
Proof.
  unfold int64_values; induction m as [|[k' v'] m IH]; simpl; intros H.
  - destruct (wrap64 v =? 0); repeat constructor; apply wrap64_range.
  - inversion H; subst.
    destruct (String.compare k k').
    + destruct (wrap64 (v' + v) =? 0); [assumption|].
      constructor; [apply wrap64_range | assumption].
    + destruct (wrap64 v =? 0); [assumption|].
      constructor; [apply wrap64_range | assumption].
    + constructor; auto.
Qed.

Lemma constant_int64 (a : Affine) : int64_values a -> wrap64 (constant a) = constant a.
Proof.
  intros H; apply wrap64_id; unfold constant.
  destruct (find "" a) as [c|] eqn:Hf; [|unfold in_int64; lia].
  apply find_In in Hf; unfold int64_values in H; rewrite Forall_forall in H.
  exact (H _ Hf).
Qed.

Lemma entry_value (z : Z) : match entry z with Some c => c | None => 0 end = z.
Proof. unfold entry; destruct (Z.eqb_spec z 0); congruence. Qed.

Lemma coeff_add_term (k : string) (v : Z) (m : Affine) (k' : string) :
  sorted_keys (keys m) ->
  coeff k' (add_term k v m) = if String.eqb k' k then wrap64 (coeff k m + v) else coeff k' m.
Proof.
  intros Hs; unfold coeff at 1; rewrite find_add_term by assumption.
  destruct (String.eqb k' k); [apply entry_value | reflexivity].
Qed.

Lemma Affine_add_int (a : Affine) (x : Z) :
  Affine_add a (Affine_of_int x) = if x =? 0 then a else add_term "" x a.
Proof. unfold Affine_add, Affine_of_int; destruct (x =? 0); reflexivity. Qed.

Lemma Affine_add_index (a : Affine) (i : string) (x : Z) :
  Affine_add a (Affine_of_index i x) = if x =? 0 then a else add_term i x a.
Proof. unfold Affine_add, Affine_of_index; destruct (x =? 0); reflexivity. Qed.

Lemma Affine_add_int_sorted (a : Affine) (x : Z) :
  sorted_keys (keys a) -> sorted_keys (keys (Affine_add a (Affine_of_int x))).
Proof.
  intros; rewrite Affine_add_int; destruct (x =? 0); auto using add_term_sorted.
Qed.

Lemma Affine_add_index_sorted (a : Affine) (i : string) (x : Z) :
  sorted_keys (keys a) -> sorted_keys (keys (Affine_add a (Affine_of_index i x))).
Proof.
  intros; rewrite Affine_add_index; destruct (x =? 0); auto using add_term_sorted.
Qed.

Lemma Affine_add_int_int64 (a : Affine) (x : Z) :
  int64_values a -> int64_values (Affine_add a (Affine_of_int x)).
Proof.
  intros; rewrite Affine_add_int; destruct (x =? 0); auto using add_term_int64.
Qed.

Lemma Affine_add_index_int64 (a : Affine) (i : string) (x : Z) :
  int64_values a -> int64_values (Affine_add a (Affine_of_index i x)).
Proof.
  intros; rewrite Affine_add_index; destruct (x =? 0); auto using add_term_int64.
Qed.

(** Adding an integer moves the constant, up to the wrap-around. *)
Lemma constant_add_int (a : Affine) (x r : Z) :
  sorted_keys (keys a) ->
  wrap64 (constant (Affine_add a (Affine_of_int x)) + r) = wrap64 (constant a + x + r).
Proof.
  intros Hs; rewrite Affine_add_int.
  destruct (Z.eqb_spec x 0) as [->|Hx]; [f_equal; lia|].
  change (constant (add_term "" x a)) with (coeff "" (add_term "" x a)).
  rewrite coeff_add_term by assumption; simpl.
  apply wrap64_add_l.
Qed.

Lemma find_add_int (a : Affine) (x : Z) (i : string) :
  sorted_keys (keys a) -> i <> "" -> find i (Affine_add a (Affine_of_int x)) = find i a.
Proof.
  intros Hs Hi; rewrite Affine_add_int; destruct (x =? 0); [reflexivity|].
  rewrite find_add_term by assumption.
  apply String.eqb_neq in Hi; rewrite Hi; reflexivity.
Qed.

(** ** Integerize *)

Section IntegerizeProperties.

Variable E : Collaborators.

Lemma int_value_int64 (q : Rational) : wrap64 (int_value E q) = int_value E q.
Proof. apply wrap64_idem. Qed.

(** Line 459 reads the numerator itself when an [int64_t] holds it. *)
Lemma int_value_exact (q : Rational) :
  exact_cast E -> in_int64 (numerator q) -> int_value E q = numerator q.
Proof.
  unfold int_value; intros Hcast Hq; rewrite (Hcast _ Hq); apply wrap64_id; exact Hq.
Qed.

Lemma int_values_exact (p : Polynomial Rational) :
  exact_cast E -> int64_coeffs p ->
  Forall (fun t => int_value E (snd t) = numerator (snd t)) p.
Proof.
  intros Hcast Hfit; eapply Forall_impl; [|exact Hfit].
  intros t Ht; apply int_value_exact; assumption.
Qed.

Lemma wrap64_shift (a x r : Z) : wrap64 (a + wrap64 x + r) = wrap64 (a + x + r).
Proof.
  replace (a + wrap64 x + r) with (wrap64 x + (a + r)) by lia.
  rewrite wrap64_add_l; f_equal; lia.
Qed.

Lemma Integerize_term_ok (bounds : IndexBounds) (acc : Affine) (t : string * Rational) :
  sorted_keys (keys acc) ->
  denominator (snd t) = 1 ->
  int_value E (snd t) = numerator (snd t) ->
  (fst t <> "" -> find (fst t) bounds <> None) ->
  (fst t <> "" -> find (fst t) acc = None) ->
  exists a, Integerize_term E bounds acc t = OK a
    /\ sorted_keys (keys a)
    /\ (int64_values acc -> int64_values a)
    /\ (forall r, wrap64 (constant a + r) = wrap64 (constant acc + term_shift bounds t + r))
    /\ (forall i, i <> "" ->
          find i a = if String.eqb i (fst t) then kept bounds i (snd t) else find i acc).
Proof.
  intros Hs Hden Hval Hcov Hfresh; destruct t as [k q]; simpl in *.
  unfold Integerize_term, term_shift, shift, kept; simpl; rewrite Hden; simpl.
  rewrite <- Hval; clear Hval.
  destruct (String.eqb_spec k "") as [->|Hk].
  - eexists; split; [reflexivity|]; split; [apply Affine_add_int_sorted; assumption|].
    split; [apply Affine_add_int_int64|]; split.
    + intros r; apply constant_add_int; assumption.
    + intros i Hi; rewrite find_add_int by assumption.
      apply String.eqb_neq in Hi; rewrite Hi; reflexivity.
  - specialize (Hcov Hk); specialize (Hfresh Hk).
    destruct (find k bounds) as [b|] eqn:Hb; [clear Hcov | congruence].
    set (res := Affine_add acc (Affine_of_int (wrap64 (int_value E q * min b)))).
    assert (Hres : sorted_keys (keys res)) by (apply Affine_add_int_sorted; assumption).
    assert (Hres64 : int64_values acc -> int64_values res) by apply Affine_add_int_int64.
    assert (Hconst : forall r,
               wrap64 (constant res + r) = wrap64 (constant acc + int_value E q * min b + r)).
    { intros r; unfold res; rewrite constant_add_int by assumption; apply wrap64_shift. }
    assert (Hfind : forall i, i <> "" -> find i res = find i acc).
    { intros i Hi; apply find_add_int; assumption. }
    destruct (Z.eqb_spec (min b) (max b)) as [Heq|Hne]; simpl.
    + exists res; repeat split; auto.
      intros i Hi; rewrite Hfind by assumption.
      destruct (String.eqb_spec i k) as [->|_]; [|reflexivity].
      rewrite Hb, Heq, Z.eqb_refl; assumption.
    + apply Z.eqb_neq in Hne.
      eexists; split; [reflexivity|]; split; [apply Affine_add_index_sorted; assumption|].
      split; [intros H64; apply Affine_add_index_int64; auto|].
      rewrite Affine_add_index; unfold entry.
      destruct (Z.eqb_spec (int_value E q) 0) as [Hz|Hz].
      * split; [assumption|]; intros i Hi; rewrite Hfind by assumption.
        destruct (String.eqb_spec i k) as [->|_]; [|reflexivity].
        rewrite Hb, Hne; assumption.
      * split.
        -- intros r; rewrite <- Hconst; f_equal; f_equal.
           change (coeff "" (add_term k (int_value E q) res) = coeff "" res).
           rewrite coeff_add_term by assumption.
           destruct (String.eqb_spec "" k) as [<-|_]; [congruence | reflexivity].
        -- intros i Hi; rewrite find_add_term by assumption.
           destruct (String.eqb_spec i k) as [->|_]; [|auto].
           unfold coeff; rewrite Hfind, Hfresh, Hb, Hne by assumption; simpl.
           rewrite int_value_int64; unfold entry.
           destruct (Z.eqb_spec (int_value E q) 0); [contradiction | reflexivity].
Qed.

Lemma Integerize_loop_ok (bounds : IndexBounds) (terms : Polynomial Rational) :
  forall acc,
    sorted_keys (keys terms) ->
    sorted_keys (keys acc) ->
    int64_values acc ->
    Forall (fun t => denominator (snd t) = 1) terms ->
    Forall (fun t => int_value E (snd t) = numerator (snd t)) terms ->
    covers bounds terms ->
    (forall k, In k (keys terms) -> k <> "" -> find k acc = None) ->
    exists a, foldM (Integerize_term E bounds) terms acc = OK a
      /\ sorted_keys (keys a)
      /\ int64_values a
      /\ (forall r, wrap64 (constant a + r)
                    = wrap64 (constant acc + total (map (term_shift bounds) terms) + r))
      /\ (forall i, i <> "" ->
            find i a = match find i terms with
                       | Some q => kept bounds i q
                       | None => find i acc
                       end).
Proof.
  induction terms as [|[k q] rest IH]; intros acc Hst Hsa H64 Hden Hval Hcov Hfresh.
  - exists acc; simpl; repeat split; auto.
    intros r; f_equal; lia.
  - inversion Hst as [|? ? Hlt Hsr]; subst.
    inversion Hden as [|? ? Hq Hden']; subst.
    inversion Hval as [|? ? Hv Hval']; subst.
    destruct (@Integerize_term_ok bounds acc (k, q) Hsa Hq Hv)
      as (a1 & Ha1 & Hs1 & H641 & Hc1 & Hf1).
    { intros Hk; apply (Hcov k q); simpl; auto. }
    { intros Hk; apply Hfresh; simpl; auto. }
    simpl in Hf1.
    destruct (IH a1 Hsr Hs1 (H641 H64) Hden' Hval') as (a & Ha & Hs & H64a & Hc & Hf).
    { intros i q' Hin; apply (Hcov i q'); simpl; auto. }
    { intros k' Hin Hk'; rewrite Hf1 by assumption.
      rewrite Forall_forall in Hlt.
      destruct (String.eqb_spec k' k) as [->|_].
      - exfalso; exact (key_lt_neq (Hlt _ Hin) eq_refl).
      - apply Hfresh; simpl; auto. }
    exists a; simpl; rewrite Ha1; simpl; repeat split; auto.
    + intros r; rewrite Hc.
      replace (constant a1 + total (map (term_shift bounds) rest) + r)
        with (constant a1 + (total (map (term_shift bounds) rest) + r)) by lia.
      rewrite Hc1; f_equal; unfold total; lia.
    + intros i Hi; rewrite Hf by assumption.
      destruct (String.eqb_spec i k) as [->|Hik].
      * rewrite (find_not_key k rest (sorted_head_fresh Hlt)).
        rewrite Hf1, String.eqb_refl by assumption; reflexivity.
      * destruct (find i rest); [reflexivity|].
        rewrite Hf1 by assumption.
        apply String.eqb_neq in Hik; rewrite Hik; reflexivity.
Qed.

(** The first term that is not an integer stops the loop. *)
Lemma Integerize_loop_fails (bounds : IndexBounds) (terms : Polynomial Rational) :
  forall acc,
    covers bounds terms ->
    Exists (@non_integer) terms ->
    foldM (Integerize_term E bounds) terms acc = Err NonIntegerTerm.
Proof.
  induction terms as [|[k q] rest IH]; intros acc Hcov Hex; [inversion Hex|].
  simpl; unfold Integerize_term at 1; simpl.
  destruct (Z.eqb_spec (denominator q) 1) as [Hq|Hq]; simpl; [|reflexivity].
  assert (Hrest : forall a, foldM (Integerize_term E bounds) rest a = Err NonIntegerTerm).
  { intros a; apply IH.
    - intros i q' Hin; apply (Hcov i q'); simpl; auto.
    - inversion Hex; subst; [unfold non_integer in *; simpl in *; contradiction | assumption]. }
  destruct (String.eqb_spec k "") as [->|Hk]; simpl; [apply Hrest|].
  destruct (find k bounds) as [b|] eqn:Hb.
  - destruct (negb (min b =? max b)); simpl; apply Hrest.
  - exfalso; apply (Hcov k q); simpl; auto.
Qed.

Lemma term_shift_split (bounds : IndexBounds) (p : Polynomial Rational) :
  sorted_keys (keys p) ->
  total (map (term_shift bounds) p) = const_term p + shift_sum bounds p.
Proof.
  unfold const_term, shift_sum, index_terms, term_shift.
  induction p as [|[k q] rest IH]; simpl; intros Hs; [reflexivity|].
  inversion Hs as [|? ? Hlt Hsr]; subst.
  rewrite (IH Hsr); clear IH.
  destruct (String.eqb_spec k "") as [->|Hk]; simpl.
  - rewrite (find_not_key "" rest (sorted_head_fresh Hlt)); lia.
  - destruct k; [congruence | lia].
Qed.

Lemma all_integer (p : Polynomial Rational) :
  ~ Exists (@non_integer) p -> Forall (fun t => denominator (snd t) = 1) p.
Proof.
  intros H; apply Forall_forall; intros t Hin.
  destruct (Z.eq_dec (denominator (snd t)) 1) as [Heq|Hne]; [assumption|].
  exfalso; apply H, Exists_exists; exists t; split; assumption.
Qed.

Lemma non_integer_dec (p : Polynomial Rational) :
  {Exists (@non_integer) p} + {~ Exists (@non_integer) p}.
Proof.
  apply Exists_dec; intros t; unfold non_integer.
  destruct (Z.eq_dec (denominator (snd t)) 1); [right | left]; tauto.
Qed.

(** With integer terms and covering bounds the loop runs to its end,
    whatever the cast returns. *)
Lemma Integerize_loop_defined (bounds : IndexBounds) (terms : Polynomial Rational) :
  forall acc,
    Forall (fun t => denominator (snd t) = 1) terms ->
    covers bounds terms ->
    exists a, foldM (Integerize_term E bounds) terms acc = OK a.
Proof.
  induction terms as [|[k q] rest IH]; intros acc Hden Hcov; [simpl; eauto|].
  inversion Hden as [|? ? Hq Hden']; subst; simpl in Hq.
  assert (Hrest : forall a, exists a', foldM (Integerize_term E bounds) rest a = OK a').
  { intros a; apply IH; [assumption|].
    intros i q' Hin; apply (Hcov i q'); simpl; auto. }
  simpl; unfold Integerize_term at 1; simpl; rewrite Hq; simpl.
  destruct (String.eqb_spec k "") as [->|Hk]; simpl; [apply Hrest|].
  destruct (find k bounds) as [b|] eqn:Hb.
  - destruct (negb (min b =? max b)); simpl; apply Hrest.
  - exfalso; apply (Hcov k q); simpl; auto.
Qed.

(** C5.  For a polynomial [poly] (a map, so its keys are sorted) and
    bounds that cover its index names: [Integerize] throws exactly when
    some term has a denominator other than 1, and the exception is then
    the non-integer one; otherwise it returns an affine expression.  When
    the numerators are values an [int64_t] holds, which the cast of line
    459 then returns unchanged, the constant of that expression is the
    constant term of [poly] plus the sum of [c * bounds[i].min] over the
    indexed terms, [c] being the numerator of the term (in [int64_t]
    arithmetic, and exactly so when that sum is an [int64_t]), and its
    entry for an index [i] is the numerator [c] of [i] in [poly] when
    [bounds[i].min <> bounds[i].max], and absent when the bound is
    degenerate (or [i] is not in [poly], or [c] is zero). *)
Theorem Integerize_spec (poly : Polynomial Rational) (bounds : IndexBounds) :
  sorted_keys (keys poly) ->
  covers bounds poly ->
  ((exists e, Integerize E poly bounds = Err e) <-> Exists (@non_integer) poly)
  /\ (Exists (@non_integer) poly -> Integerize E poly bounds = Err NonIntegerTerm)
  /\ (~ Exists (@non_integer) poly ->
      exists a, Integerize E poly bounds = OK a
        /\ (exact_cast E -> int64_coeffs poly ->
            constant a = wrap64 (const_term poly + shift_sum bounds poly)
            /\ (in_int64 (const_term poly + shift_sum bounds poly) ->
                constant a = const_term poly + shift_sum bounds poly)
            /\ forall i, i <> "" -> find i a = kept_coeff bounds poly i)).
Proof.
  intros Hs Hcov.
  assert (Hok : ~ Exists (@non_integer) poly ->
      exists a, Integerize E poly bounds = OK a
        /\ (exact_cast E -> int64_coeffs poly ->
            constant a = wrap64 (const_term poly + shift_sum bounds poly)
            /\ (in_int64 (const_term poly + shift_sum bounds poly) ->
                constant a = const_term poly + shift_sum bounds poly)
            /\ forall i, i <> "" -> find i a = kept_coeff bounds poly i)).
  { intros Hint.
    destruct (@Integerize_loop_defined bounds poly [] (all_integer Hint) Hcov) as [a Ha].
    exists a; split; [exact Ha|]; intros Hcast Hfit.
    destruct (@Integerize_loop_ok bounds poly [] Hs sorted_nil (Forall_nil _)
                (all_integer Hint) (int_values_exact Hcast Hfit) Hcov
                (fun _ _ _ => eq_refl))
      as (a' & Ha' & _ & H64 & Hc & Hf).
    rewrite Ha in Ha'; inversion Ha'; subst a'; clear Ha'.
    assert (Hconst : constant a = wrap64 (const_term poly + shift_sum bounds poly)).
    { rewrite <- (constant_int64 H64), <- term_shift_split by assumption.
      specialize (Hc 0); rewrite !Z.add_0_r in Hc; exact Hc. }
    split; [exact Hconst|]; split.
    - intros Hfit'; rewrite Hconst; apply wrap64_id; exact Hfit'.
    - intros i Hi; rewrite (Hf i Hi); unfold kept_coeff.
      destruct (find i poly); reflexivity. }
  split; [|split]; auto.
  - split.
    + intros [e He]; destruct (non_integer_dec poly) as [Hex|Hint]; [assumption|].
      destruct (Hok Hint) as (a & Ha & _); congruence.
    + intros Hex; exists NonIntegerTerm; apply Integerize_loop_fails; assumption.
  - intros Hex; apply Integerize_loop_fails; assumption.
Qed.

End IntegerizeProperties.

(** ** NeedsInitialize *)

Lemma any_inputs_false (out_idxs : list string) (con : Affine) :
  any_inputs out_idxs con = false <-> output_only out_idxs con.
Proof.
  unfold any_inputs, output_only, keys; split.
  - intros H k Hin Hk.
    apply in_map_iff in Hin; destruct Hin as ([k' v] & Hfst & Hin); simpl in Hfst; subst k'.
    destruct (count k out_idxs) eqn:Hc; [reflexivity|].
    assert (Hex : existsb (fun kvp : string * Z =>
                    negb (String.eqb (fst kvp) "") && negb (count (fst kvp) out_idxs)) con = true).
    { apply existsb_exists; exists (k, v); split; [assumption|]; simpl.
      apply String.eqb_neq in Hk; rewrite Hk, Hc; reflexivity. }
    congruence.
  - intros H.
    destruct (existsb _ con) eqn:Hex; [|reflexivity].
    apply existsb_exists in Hex; destruct Hex as ([k v] & Hin & Hb); simpl in Hb.
    apply andb_true_iff in Hb; destruct Hb as [Hk Hc].
    apply negb_true_iff in Hk, Hc; apply String.eqb_neq in Hk.
    rewrite (H k) in Hc; [discriminate | | assumption].
    apply in_map_iff; exists (k, v); auto.
Qed.

(** C2.  For a block whose per-dimension output checks all pass, leaving
    the set [out_idxs] of output index variables: [NeedsInitialize]
    returns true exactly when some constraint of the block is output-only,
    that is, references no index variable outside [out_idxs] (a constraint
    that also uses an index outside [out_idxs] does not cause true); it
    returns false exactly when there is no such constraint. *)
Theorem NeedsInitialize_output_only (block : Block) (out_shape : TensorShape)
    (out_idxs : list string) :
  NeedsInitialize_dims block (dims out_shape) 0 [] = OK (Some out_idxs) ->
  (NeedsInitialize block out_shape = OK true <->
   exists con, In con (constraints block) /\ output_only out_idxs con)
  /\ (NeedsInitialize block out_shape = OK false <->
      ~ exists con, In con (constraints block) /\ output_only out_idxs con).
Proof.
  intros Hdims; unfold NeedsInitialize; rewrite Hdims; simpl.
  assert (Hiff : existsb (fun con => negb (any_inputs out_idxs con)) (constraints block) = true
                 <-> exists con, In con (constraints block) /\ output_only out_idxs con).
  { rewrite existsb_exists; split; intros (con & Hin & H); exists con; split; auto.
    - apply any_inputs_false, negb_true_iff; assumption.
    - apply negb_true_iff, any_inputs_false; assumption. }
  destruct (existsb _ (constraints block)); split; split; intros H;
    try congruence; try (apply Hiff; reflexivity).
  - exfalso; apply H, Hiff; reflexivity.
  - apply Hiff in H; discriminate.
  - intros H'; apply Hiff in H'; discriminate.
Qed.

(** ** The "fancy" classification *)

Lemma is_fancy_terms (cion : Contraction) :
  is_fancy cion = true <->
  exists p, In p (output_polys cion)
    /\ ((2 < List.length p)%nat
        \/ (List.length p = 2%nat /\ numerator (rconstant p) = 0)).
Proof.
  unfold is_fancy, output_polys; destruct (specs cion) as [|out rest].
  - split; [discriminate | intros (p & [] & _)].
  - rewrite existsb_exists; unfold fancy_poly.
    split; intros (p & Hin & H); exists p; split; auto.
    + apply orb_true_iff in H; destruct H as [H|H].
      * left; apply Nat.ltb_lt; assumption.
      * apply andb_true_iff in H; destruct H as [H1 H2].
        right; split; [apply Nat.eqb_eq | apply Z.eqb_eq]; assumption.
    + apply orb_true_iff; destruct H as [H|[H1 H2]].
      * left; apply Nat.ltb_lt; assumption.
      * right; apply andb_true_iff; split; [apply Nat.eqb_eq | apply Z.eqb_eq]; assumption.
Qed.

Lemma length_index_terms (T : Type) (p : Polynomial T) :
  sorted_keys (keys p) ->
  List.length p
  = (List.length (index_terms p) + match find "" p with Some _ => 1 | None => 0 end)%nat.
Proof.
  unfold index_terms; induction p as [|[k v] rest IH]; simpl; intros Hs; [reflexivity|].
  inversion Hs as [|? ? Hlt Hsr]; subst.
  destruct (String.eqb_spec k "") as [->|Hk]; simpl.
  - rewrite (IH Hsr), (find_not_key "" rest (sorted_head_fresh Hlt)); lia.
  - destruct k; [congruence|]; simpl; rewrite (IH Hsr); lia.
Qed.

Lemma wf_poly_constant (p : Polynomial Rational) :
  wf_poly p -> (numerator (rconstant p) = 0 <-> find "" p = None).
Proof.
  intros [_ Hnz]; unfold rconstant.
  destruct (find "" p) as [q|] eqn:Hf; simpl; [|tauto].
  apply find_In in Hf; rewrite Forall_forall in Hnz; specialize (Hnz _ Hf); simpl in Hnz.
  split; [contradiction | discriminate].
Qed.

(** C3.  A contraction is classified as fancy exactly when, for some
    dimension of the output spec, the map of the polynomial's terms (where
    a non-zero constant is a term of its own) has more than two entries,
    or exactly two entries and a zero constant.  For polynomials as the
    map holds them this is: the polynomial has at least two index terms,
    whatever its constant.  The compilation of a contraction of 2 to 4
    specs reduces the output polynomials, and gathers the constraints
    again, exactly when the contraction is fancy and defractionalization
    is not suppressed. *)
Theorem is_fancy_spec (cion : Contraction) :
  (is_fancy cion = true <->
   exists p, In p (output_polys cion)
     /\ ((2 < List.length p)%nat
         \/ (List.length p = 2%nat /\ numerator (rconstant p) = 0)))
  /\ (Forall wf_poly (output_polys cion) ->
      (is_fancy cion = true <->
       exists p, In p (output_polys cion) /\ (2 <= List.length (index_terms p))%nat))
  /\ (forall E shapes integral_cion cons,
        (2 <= List.length (specs cion) <= 4)%nat ->
        ConstrainIndexVarsToInts E cion = OK integral_cion ->
        GatherConstraints E integral_cion shapes = OK cons ->
        CompileContraction E cion shapes
        = if is_fancy cion && negb (no_defract cion)
          then bind (reduce_and_gather E shapes integral_cion cons) (merge_and_defract E shapes)
          else merge_and_defract E shapes (integral_cion, cons)).
Proof.
  split; [apply is_fancy_terms|]; split.
  2:{ intros E shapes integral_cion cons Harity Hint Hcons.
      unfold CompileContraction, reduce_and_gather, merge_and_defract.
      assert (Hn : negb (Nat.eqb (List.length (specs cion)) 2)
                   && negb (Nat.eqb (List.length (specs cion)) 3)
                   && negb (Nat.eqb (List.length (specs cion)) 4) = false).
      { destruct (List.length (specs cion)) as [|[|[|[|[|n]]]]]; try reflexivity; lia. }
      rewrite Hn, Hint; simpl; rewrite Hcons; simpl.
      destruct (is_fancy cion && negb (no_defract cion)); [|reflexivity].
      destruct (ReduceOutputPolynomials E integral_cion cons) as [reduced|]; simpl;
        [|reflexivity].
      destruct (GatherConstraints E reduced shapes); reflexivity. }
  intros Hwf; rewrite is_fancy_terms; rewrite Forall_forall in Hwf.
  split; intros (p & Hin & H); exists p; (split; [assumption|]);
    pose proof (@length_index_terms _ p (proj1 (Hwf p Hin))) as Hlen;
    pose proof (wf_poly_constant (Hwf p Hin)) as Hc;
    destruct (find "" p) as [q|].
  - destruct H as [H|[H1 H2]]; [lia|].
    apply Hc in H2; discriminate.
  - lia.
  - left; lia.
  - destruct (Nat.eq_dec (List.length (index_terms p)) 2) as [H2|H2].
    + right; split; [lia | apply Hc; reflexivity].
    + left; lia.
Qed.

(** ** Blocks and their statement lists *)

Lemma set_insert_In (k : string) (s : list string) : In k (set_insert k s).
Proof.
  induction s as [|k' s IH]; simpl; [auto|].
  destruct (String.compare k k') eqn:Hc; simpl; auto.
  apply compare_Eq in Hc; auto.
Qed.

Lemma set_insert_inv (k x : string) (s : list string) :
  In x (set_insert k s) -> x = k \/ In x s.
Proof.
  induction s as [|k' s IH]; simpl; [intuition congruence|].
  destruct (String.compare k k'); simpl; intuition congruence.
Qed.

Lemma insert_before_last_snoc (s x : Statement) (l : list Statement) :
  insert_before_last s (l ++ [x]) = l ++ [s; x].
Proof.
  unfold insert_before_last; rewrite rev_app_distr; simpl; rewrite rev_involutive; reflexivity.
Qed.

Lemma commit_kernel_push (main kernel : Block) (x : Statement) :
  commit_kernel (push_stmt main x) kernel = set_stmts main (stmts main ++ [BlockStmt kernel]).
Proof.
  unfold commit_kernel, push_stmt, set_stmts; simpl; rewrite removelast_last; reflexivity.
Qed.

Lemma commit_kernel_insert (main kernel : Block) (s x : Statement) :
  commit_kernel
    (set_stmts (push_stmt main x) (insert_before_last s (stmts (push_stmt main x)))) kernel
  = set_stmts main (stmts main ++ [s] ++ [BlockStmt kernel]).
Proof.
  unfold commit_kernel, push_stmt, set_stmts; simpl.
  rewrite insert_before_last_snoc.
  replace (stmts main ++ [s; x]) with ((stmts main ++ [s]) ++ [x])
    by (rewrite <- app_assoc; reflexivity).
  rewrite removelast_last, <- app_assoc; reflexivity.
Qed.

Lemma block_eta (b : Block) :
  mkBlock (name b) (comments b) (tags b) (idxs b) (constraints b) (refs b) (stmts b) = b.
Proof. destruct b; reflexivity. Qed.

Section GeneratorProperties.

Variable N : Names.
Variable E : Collaborators.
Variable g : StripeGenerator.

(** *** AddKernel *)

Lemma AddKernel_parent (parent : Block) (op : Op) :
  fst (AddKernel E parent op) = push_stmt parent (BlockStmt (snd (AddKernel E parent op))).
Proof. reflexivity. Qed.

Lemma AddKernel_fresh (parent : Block) (op : Op) :
  let k := snd (AddKernel E parent op) in
  idxs k = [] /\ constraints k = [] /\ refs k = [] /\ stmts k = [] /\ tags k = ["kernel"].
Proof.
  unfold AddKernel; simpl.
  set (k0 := set_tag _ "kernel").
  assert (H0 : idxs k0 = [] /\ constraints k0 = [] /\ refs k0 = [] /\ stmts k0 = []
               /\ tags k0 = ["kernel"]) by (repeat split; reflexivity).
  revert H0; generalize k0; clear k0.
  induction (attributes op) as [|a l IH]; simpl; intros k0 H0; [exact H0|].
  apply IH; destruct (_ && _); [|exact H0].
  destruct k0; simpl in *; exact H0.
Qed.

(** *** The loops of ProcessContraction *)

Lemma contraction_idx_loop (bounds : IndexBounds) :
  forall kernel,
    fold_left contraction_idx bounds kernel
    = set_idxs kernel (idxs kernel ++ declared_idxs bounds).
Proof.
  unfold declared_idxs; induction bounds as [|[i b] rest IH]; intros kernel; simpl.
  - unfold set_idxs; rewrite app_nil_r; symmetry; apply block_eta.
  - rewrite IH; unfold contraction_idx, bound_range; simpl.
    destruct (wrapu64 (max b - min b + 1) =? 1); simpl; [reflexivity|].
    unfold push_idx, set_idxs; simpl; rewrite <- app_assoc; reflexivity.
Qed.

Lemma declared_idxs_no_unit (bounds : IndexBounds) :
  Forall (fun ix => range ix <> 1) (declared_idxs bounds).
Proof.
  unfold declared_idxs; apply Forall_forall; intros ix Hin.
  apply in_map_iff in Hin; destruct Hin as (kvp & <- & Hin); simpl.
  apply filter_In in Hin; destruct Hin as [_ H].
  apply negb_true_iff, Z.eqb_neq in H; exact H.
Qed.

Lemma contraction_constraint_loop (bounds : IndexBounds) (simple_cons : list SimpleConstraint) :
  forall kernel kernel',
    foldM (contraction_constraint E bounds) simple_cons kernel = OK kernel' ->
    exists cons,
      kernel' = set_constraints kernel (constraints kernel ++ cons)
      /\ List.length cons = List.length simple_cons.
Proof.
  induction simple_cons as [|sc rest IH]; simpl; intros kernel kernel' H.
  - inversion H; subst; exists []; split; [|reflexivity].
    unfold set_constraints; rewrite app_nil_r; symmetry; apply block_eta.
  - inv_bind H as k1 Hk1; unfold contraction_constraint in Hk1; inv_bind Hk1 as lhs Hlhs.
    inversion Hk1; subst; clear Hk1.
    apply IH in H; destruct H as (cons & -> & Hlen).
    eexists (_ :: cons); split; [|simpl; rewrite Hlen; reflexivity].
    unfold push_constraint, set_constraints; simpl; rewrite <- app_assoc; reflexivity.
Qed.

Lemma extend_twice (k : Block) (r1 r2 : list Refinement) (s1 s2 : list Statement) :
  let k1 := set_stmts (set_refs k (refs k ++ r1)) (stmts k ++ s1) in
  set_stmts (set_refs k1 (refs k1 ++ r2)) (stmts k1 ++ s2)
  = set_stmts (set_refs k (refs k ++ r1 ++ r2)) (stmts k ++ s1 ++ s2).
Proof. unfold set_stmts, set_refs; simpl; rewrite !app_assoc; reflexivity. Qed.

Lemma contraction_spec_input (cion : Contraction) (bounds : IndexBounds) (i : nat)
    (k : Block) (si : list string) (sp : TensorSpec) (k' : Block) (si' : list string) :
  contraction_spec N E g cion bounds (S i) k si sp = OK (k', si') ->
  si' = si ++ scalar_names [sp]
  /\ exists rs ss,
       k' = set_stmts (set_refs k (refs k ++ rs)) (stmts k ++ ss)
       /\ Forall (input_ref_of [sp]) rs
       /\ Forall is_load_or_constant ss.
Proof.
  unfold contraction_spec; intros H.
  inv_bind H as shape Hshape; inv_bind H as acc Hacc; simpl in H.
  assert (Hload :
    forall kk ss', OK (push_stmt (push_ref k
                     (mkRefinement RefIn (id sp) (id sp) acc shape "" NoLocation
                        (IsConst g (id sp)) 0 None))
                     (Load (id sp) (ScalarName (id sp))), si ++ [ScalarName (id sp)])
                   = OK (kk, ss') ->
      ss' = si ++ scalar_names [sp]
      /\ exists rs ss,
           kk = set_stmts (set_refs k (refs k ++ rs)) (stmts k ++ ss)
           /\ Forall (input_ref_of [sp]) rs
           /\ Forall is_load_or_constant ss).
  { intros kk ss' Heq; inversion Heq; subst; split; [reflexivity|].
    eexists [_], [_]; split; [reflexivity|]; split.
    - repeat constructor; simpl; exists sp; simpl; auto.
    - repeat constructor. }
  assert (Hconst :
    forall lit kk ss', OK (push_stmt k (Constant (ScalarName (id sp)) lit),
                           si ++ [ScalarName (id sp)]) = OK (kk, ss') ->
      ss' = si ++ scalar_names [sp]
      /\ exists rs ss,
           kk = set_stmts (set_refs k (refs k ++ rs)) (stmts k ++ ss)
           /\ Forall (input_ref_of [sp]) rs
           /\ Forall is_load_or_constant ss).
  { intros lit kk ss' Heq; inversion Heq; subst; split; [reflexivity|].
    exists [], [Constant (ScalarName (id sp)) lit]; split; [|split].
    - unfold push_stmt, set_stmts, set_refs; simpl; rewrite app_nil_r; reflexivity.
    - constructor.
    - repeat constructor. }
  destruct (find (id sp) (vars_ g)) as [src|]; [|eauto].
  destruct (btag src); eauto.
Qed.

Lemma contraction_specs_inputs (cion : Contraction) (bounds : IndexBounds)
    (sps : list TensorSpec) :
  forall i k si k' si',
    contraction_specs N E g cion bounds (S i) sps k si = OK (k', si') ->
    si' = si ++ scalar_names sps
    /\ exists rs ss,
         k' = set_stmts (set_refs k (refs k ++ rs)) (stmts k ++ ss)
         /\ Forall (input_ref_of sps) rs
         /\ Forall is_load_or_constant ss.
Proof.
  induction sps as [|sp rest IH]; simpl; intros i k si k' si' H.
  - inversion H; subst; split; [rewrite app_nil_r; reflexivity|].
    exists [], []; split; [|split; constructor].
    unfold set_stmts, set_refs; simpl; rewrite !app_nil_r; symmetry; apply block_eta.
  - inv_bind H as st Hst; destruct st as [k1 si1]; simpl in H.
    apply contraction_spec_input in Hst; destruct Hst as (-> & rs1 & ss1 & -> & Hr1 & Hs1).
    apply IH in H; destruct H as (-> & rs2 & ss2 & -> & Hr2 & Hs2).
    split; [rewrite <- app_assoc; reflexivity|].
    exists (rs1 ++ rs2), (ss1 ++ ss2); split; [apply extend_twice|]; split.
    + apply Forall_app; split.
      * eapply Forall_impl; [|exact Hr1].
        intros r [Hd (sp' & Hin & Hf)]; split; [assumption|].
        exists sp'; split; [|assumption]; destruct Hin as [<-|[]]; left; reflexivity.
      * eapply Forall_impl; [|exact Hr2].
        intros r [Hd (sp' & Hin & Hf)]; split; [assumption|].
        exists sp'; split; [right|]; assumption.
    + apply Forall_app; auto.
Qed.

(** The refinements and statements the loop over the specs gives a fresh
    kernel: the Out refinement of the first spec, then only In refinements,
    loads and constants. *)
Lemma contraction_specs_from_0 (cion : Contraction) (bounds : IndexBounds)
    (out : TensorSpec) (ins : list TensorSpec) (k : Block) (k' : Block) (si' : list string) :
  contraction_specs N E g cion bounds 0 (out :: ins) k [] = OK (k', si') ->
  si' = scalar_names ins
  /\ exists acc shape rs ss,
       spec_access E bounds out = OK acc
       /\ ScalarShape g (id out) = OK shape
       /\ k' = set_stmts
                 (set_refs k
                    (refs k
                     ++ mkRefinement RefOut (id out) (id out) acc shape
                          (GetAggOp N (agg_op cion)) NoLocation false 0 None :: rs))
                 (stmts k ++ ss)
       /\ Forall (input_ref_of ins) rs
       /\ Forall is_load_or_constant ss.
Proof.
  simpl; intros H; inv_bind H as st Hst; destruct st as [k1 si1]; simpl in H.
  unfold contraction_spec in Hst; inv_bind Hst as shape Hshape; inv_bind Hst as acc Hacc.
  simpl in Hst; inversion Hst; subst; clear Hst.
  apply contraction_specs_inputs in H; destruct H as (-> & rs & ss & -> & Hr & Hs).
  split; [reflexivity|].
  exists acc, shape, rs, ss; repeat split; auto.
  unfold push_ref, set_stmts, set_refs; simpl; rewrite <- app_assoc; reflexivity.
Qed.

(** *** ProcessContraction, step by step *)

Lemma ProcessContraction_inv (main : Block) (op : Op) (main' : Block) :
  ProcessContraction N E g main op = OK main' ->
  exists out_shape,
    GetShape g (output op) = OK out_shape
    /\ ((byte_size E out_shape = 0 /\ main' = main)
        \/ (byte_size E out_shape <> 0
            /\ exists shape0 shapes cion range_cons bounds simple_cons k1 scalar_inputs k3 init,
                 MakeShapes g (c op) = OK (shape0 :: shapes)
                 /\ CompileContraction E (c op) (shape0 :: shapes) = OK (cion, range_cons)
                 /\ ComputeBounds E range_cons = OK (bounds, simple_cons)
                 /\ contraction_specs N E g cion bounds 0 (specs cion)
                      (contraction_kernel0 N E main op cion) [] = OK (k1, scalar_inputs)
                 /\ foldM (contraction_constraint E bounds) simple_cons
                      (fold_left contraction_idx bounds k1) = OK k3
                 /\ NeedsInitialize k3 shape0 = OK init
                 /\ main' = set_stmts main
                              (stmts main
                               ++ (if init then [init_stmt N op] else [])
                               ++ [BlockStmt
                                     (push_stmt (combination N cion op scalar_inputs k3)
                                        (Store (ScalarName (output op)) (output op)))]))).
Proof.
  unfold ProcessContraction; intros H.
  inv_bind H as out_shape Hout; exists out_shape; split; [assumption|].
  destruct (Z.eqb_spec (byte_size E out_shape) 0) as [Hz|Hnz].
  - left; inversion H; auto.
  - right; split; [assumption|].
    inv_bind H as shapes Hshapes.
    inv_bind H as compiled Hcompiled; destruct compiled as [cion range_cons].
    inv_bind H as solved Hsolved; destruct solved as [bounds simple_cons].
    inv_bind H as st Hst; destruct st as [k1 scalar_inputs].
    inv_bind H as k3 Hk3.
    destruct shapes as [|shape0 shapes]; [discriminate|].
    inv_bind H as init Hinit.
    exists shape0, shapes, cion, range_cons, bounds, simple_cons, k1, scalar_inputs, k3, init.
    repeat (split; [assumption|]).
    inversion H; subst; clear H; simpl.
    destruct init.
    + apply (commit_kernel_insert main).
    + apply (commit_kernel_push main).
Qed.

Lemma contraction_kernel0_fresh (main : Block) (op : Op) (cion : Contraction) :
  let k := contraction_kernel0 N E main op cion in
  idxs k = [] /\ constraints k = [] /\ refs k = [] /\ stmts k = [].
Proof.
  destruct (AddKernel_fresh main op) as (H1 & H2 & H3 & H4 & _).
  unfold contraction_kernel0; simpl; auto.
Qed.

(** The kernel when the loops of lines 156-218 are done. *)
Lemma contraction_kernel_built (main : Block) (op : Op) (cion : Contraction)
    (bounds : IndexBounds) (simple_cons : list SimpleConstraint)
    (k1 k3 : Block) (scalar_inputs : list string) :
  contraction_specs N E g cion bounds 0 (specs cion)
    (contraction_kernel0 N E main op cion) [] = OK (k1, scalar_inputs) ->
  foldM (contraction_constraint E bounds) simple_cons (fold_left contraction_idx bounds k1)
    = OK k3 ->
  let k0 := contraction_kernel0 N E main op cion in
  scalar_inputs = scalar_names (tl (specs cion))
  /\ exists cons rs ss,
       k3 = mkBlock (name k0) (comments k0) (tags k0) (declared_idxs bounds) cons rs ss
       /\ List.length cons = List.length simple_cons
       /\ Forall is_load_or_constant ss
       /\ match specs cion with
          | [] => rs = []
          | out :: ins =>
              exists acc shape rs',
                spec_access E bounds out = OK acc
                /\ ScalarShape g (id out) = OK shape
                /\ rs = output_ref N cion out acc shape :: rs'
                /\ Forall (input_ref_of ins) rs'
          end.
Proof.
  intros Hspecs Hcons k0.
  destruct (contraction_kernel0_fresh main op cion) as (Hi & Hc & Hr & Hs).
  fold k0 in Hspecs, Hi, Hc, Hr, Hs; clearbody k0.
  apply contraction_constraint_loop in Hcons; destruct Hcons as (cons & -> & Hlen).
  rewrite contraction_idx_loop.
  destruct (specs cion) as [|out ins].
  - simpl in Hspecs; inversion Hspecs; subst; split; [reflexivity|].
    exists cons, [], []; repeat split; auto.
    unfold set_constraints, set_idxs; simpl; rewrite Hi, Hc, Hr, Hs; reflexivity.
  - apply contraction_specs_from_0 in Hspecs.
    destruct Hspecs as (-> & acc & shape & rs & ss & Hacc & Hshape & -> & Hrs & Hss).
    split; [reflexivity|].
    exists cons, (output_ref N cion out acc shape :: rs), ss; repeat split; auto.
    + unfold set_constraints, set_idxs, set_stmts, set_refs; simpl.
      rewrite Hi, Hc, Hr, Hs; reflexivity.
    + exists acc, shape, rs; auto.
Qed.

Lemma combination_built (cion : Contraction) (op : Op) (si : list string) (k : Block) :
  let k' := push_stmt (combination N cion op si k) (Store (ScalarName (output op)) (output op)) in
  name k' = name k /\ comments k' = comments k /\ idxs k' = idxs k
  /\ constraints k' = constraints k /\ refs k' = refs k
  /\ stmts k' = stmts k ++ combination_stmts N cion op si
                 ++ [Store (String.append "$" (output op)) (output op)]
  /\ tags k' = if Nat.ltb 1 (List.length si) && negb (String.eqb (GetComboOp N (comb_op cion)) "")
               then set_insert (String.append "comb_op_" (GetComboOp N (comb_op cion))) (tags k)
               else tags k.
Proof.
  unfold combination, combination_stmts, AddIntrinsic, ScalarName.
  destruct (Nat.ltb 1 (List.length si)); simpl.
  - destruct (String.eqb (GetComboOp N (comb_op cion)) ""); simpl; repeat split;
      try reflexivity.
    rewrite <- app_assoc; reflexivity.
  - repeat split; try reflexivity.
    rewrite <- app_assoc; reflexivity.
Qed.

Lemma NeedsInitialize_dims_ext (b b' : Block) :
  refs b = refs b' -> idxs b = idxs b' ->
  forall out_dims i out_idxs,
    NeedsInitialize_dims b out_dims i out_idxs = NeedsInitialize_dims b' out_dims i out_idxs.
Proof.
  intros Hr Hi; induction out_dims as [|d rest IH]; simpl; intros i out_idxs; [reflexivity|].
  rewrite <- Hr; unfold idx_by_name; rewrite <- Hi.
  destruct (refs b) as [|front ?]; [reflexivity|].
  destruct (nth_error (access front) i) as [affine|]; [|reflexivity].
  destruct (_ && _); [apply IH|].
  destruct (_ || _); [reflexivity|].
  destruct affine as [|[idx mult] ?]; [reflexivity|].
  destruct (negb (mult =? 1)); [reflexivity|].
  destruct (count idx out_idxs); [reflexivity|].
  destruct (List.find _ (idxs b)) as [ix|]; [|reflexivity].
  destruct (negb (range ix =? size d)); [reflexivity | apply IH].
Qed.

(** [NeedsInitialize] reads the refinements, indexes and constraints only. *)
Lemma NeedsInitialize_ext (b b' : Block) (out_shape : TensorShape) :
  refs b = refs b' -> idxs b = idxs b' -> constraints b = constraints b' ->
  NeedsInitialize b out_shape = NeedsInitialize b' out_shape.
Proof.
  intros Hr Hi Hc; unfold NeedsInitialize.
  rewrite (NeedsInitialize_dims_ext b b' Hr Hi), Hc; reflexivity.
Qed.

(** What a contraction that is not skipped leaves in [main]. *)
Lemma ProcessContraction_result (main : Block) (op : Op) (main' : Block)
    (out_shape : TensorShape) :
  ProcessContraction N E g main op = OK main' ->
  GetShape g (output op) = OK out_shape ->
  byte_size E out_shape <> 0 ->
  exists shape0 shapes cion range_cons bounds simple_cons kernel init ss,
    MakeShapes g (c op) = OK (shape0 :: shapes)
    /\ CompileContraction E (c op) (shape0 :: shapes) = OK (cion, range_cons)
    /\ ComputeBounds E range_cons = OK (bounds, simple_cons)
    /\ NeedsInitialize kernel shape0 = OK init
    /\ main' = set_stmts main
                 (stmts main ++ (if init then [init_stmt N op] else []) ++ [BlockStmt kernel])
    /\ idxs kernel = declared_idxs bounds
    /\ List.length (constraints kernel) = List.length simple_cons
    /\ match specs cion with
       | [] => refs kernel = []
       | out :: ins =>
           exists acc shape rs',
             spec_access E bounds out = OK acc
             /\ ScalarShape g (id out) = OK shape
             /\ refs kernel = output_ref N cion out acc shape :: rs'
             /\ Forall (input_ref_of ins) rs'
       end
    /\ Forall is_load_or_constant ss
    /\ stmts kernel = ss ++ combination_stmts N cion op (scalar_names (tl (specs cion)))
                        ++ [Store (String.append "$" (output op)) (output op)]
    /\ tags kernel
       = if Nat.ltb 1 (List.length (scalar_names (tl (specs cion))))
            && negb (String.eqb (GetComboOp N (comb_op cion)) "")
         then set_insert (String.append "comb_op_" (GetComboOp N (comb_op cion)))
                (tags (contraction_kernel0 N E main op cion))
         else tags (contraction_kernel0 N E main op cion).
Proof.
  intros H Hshape Hnz.
  apply ProcessContraction_inv in H; destruct H as (out_shape' & Hshape' & H).
  rewrite Hshape in Hshape'; inversion Hshape'; subst out_shape'; clear Hshape'.
  destruct H as [[Hz _]|[_ H]]; [contradiction|].
  destruct H as (shape0 & shapes & cion & range_cons & bounds & simple_cons & k1
                 & scalar_inputs & k3 & init & Hms & Hcc & Hcb & Hspecs & Hcons & Hinit & ->).
  destruct (contraction_kernel_built _ _ _ _ _ Hspecs Hcons)
    as (-> & cons & rs & ss & Hk3 & Hlen & Hss & Hrs).
  set (si := scalar_names (tl (specs cion))) in *.
  destruct (combination_built cion op si k3) as (_ & _ & Hi & Hc & Hr & Hs & Ht).
  set (kernel := push_stmt (combination N cion op si k3) _) in *.
  exists shape0, shapes, cion, range_cons, bounds, simple_cons, kernel, init, ss.
  repeat (split; [assumption|]).
  split; [rewrite <- Hinit; apply NeedsInitialize_ext; assumption|].
  split; [reflexivity|].
  rewrite Hi, Hc, Hr, Hs, Ht; subst k3; simpl.
  split; [reflexivity|].
  split; [assumption|].
  split; [|split; [assumption|split; reflexivity]].
  destruct (specs cion) as [|out ins]; [assumption|].
  destruct Hrs as (acc & shape & rs' & Hacc & Hsh & -> & Hrs'); eauto 8.
Qed.

(** *** Contractions: what the kernel holds *)

(** C8.  A contraction whose output has a declared byte size of zero is
    skipped: [ProcessContraction] returns [main] as it received it (no
    kernel block, the statements and refinements of [main] untouched), and
    the whole run is the run of the program without that operation, so
    the program block is the same too. *)
Theorem ProcessContraction_skips_empty (main : Block) (op : Op) (out_shape : TensorShape) :
  tag op = CONTRACTION ->
  GetShape g (output op) = OK out_shape ->
  byte_size E out_shape = 0 ->
  ProcessContraction N E g main op = OK main
  /\ forall before after,
       Run N E (with_ops g (before ++ op :: after)) = Run N E (with_ops g (before ++ after)).
Proof.
  intros Htag Hshape Hz.
  assert (Hskip : forall m, ProcessContraction N E g m op = OK m).
  { intros m; unfold ProcessContraction; rewrite Hshape; simpl.
    rewrite Hz; reflexivity. }
  split; [apply Hskip|].
  intros before after; unfold Run; simpl.
  rewrite !foldM_app; simpl.
  destruct (foldM _ before _) as [m|e]; simpl; [|reflexivity].
  change (ProcessOp N E (with_ops g (before ++ op :: after)) m op)
    with (ProcessOp N E g m op).
  unfold ProcessOp at 1; rewrite Htag, Hskip; reflexivity.
Qed.

(** C7.  A contraction that is not skipped leaves its kernel block as the
    last statement of [main]; when [NeedsInitialize] is true of that kernel
    and the shape of the output, exactly one Special statement stands
    immediately before it: ZERO without inputs if the contraction has no
    default, COPY of the default otherwise, with the output of the
    operation as its single output.  When it is false nothing is inserted. *)
Theorem ProcessContraction_initialization (main : Block) (op : Op) (main' : Block)
    (out_shape : TensorShape) :
  ProcessContraction N E g main op = OK main' ->
  GetShape g (output op) = OK out_shape ->
  byte_size E out_shape <> 0 ->
  exists kernel shape0 shapes init,
    MakeShapes g (c op) = OK (shape0 :: shapes)
    /\ NeedsInitialize kernel shape0 = OK init
    /\ (init = true -> use_default (c op) = "" ->
        stmts main' = stmts main
                      ++ [Special (Special_ZERO N) [] [] [output op]; BlockStmt kernel])
    /\ (init = true -> use_default (c op) <> "" ->
        stmts main' = stmts main
                      ++ [Special (Special_COPY N) [] [use_default (c op)] [output op];
                          BlockStmt kernel])
    /\ (init = false -> stmts main' = stmts main ++ [BlockStmt kernel]).
Proof.
  intros H Hshape Hnz.
  destruct (ProcessContraction_result _ _ H Hshape Hnz)
    as (shape0 & shapes & cion & range_cons & bounds & simple_cons & kernel & init & ss
        & Hms & _ & _ & Hinit & -> & _).
  exists kernel, shape0, shapes, init; repeat (split; [assumption|]).
  unfold init_stmt; simpl.
  split; [|split]; intros ->; try reflexivity.
  - intros ->; reflexivity.
  - intros Hd; apply String.eqb_neq in Hd; rewrite Hd; reflexivity.
Qed.

(** C10.  The kernel block of a contraction that is not skipped, compiled
    to a contraction with output spec [out] and input specs [ins]: its
    refinement list starts with the Out refinement of [out], with the
    aggregation operator as its [agg_op], and every refinement after it is
    an In refinement of one of [ins]. *)
Theorem contraction_output_ref_first (main : Block) (op : Op) (main' : Block)
    (out_shape : TensorShape) (shapes : list TensorShape) (cion : Contraction)
    (range_cons : list RangeConstraint) (out : TensorSpec) (ins : list TensorSpec) :
  ProcessContraction N E g main op = OK main' ->
  GetShape g (output op) = OK out_shape ->
  byte_size E out_shape <> 0 ->
  MakeShapes g (c op) = OK shapes ->
  CompileContraction E (c op) shapes = OK (cion, range_cons) ->
  specs cion = out :: ins ->
  exists kernel pre r rs,
    stmts main' = stmts main ++ pre ++ [BlockStmt kernel]
    /\ refs kernel = r :: rs
    /\ dir r = RefOut /\ from r = id out /\ into r = id out
    /\ ref_agg_op r = GetAggOp N (agg_op cion)
    /\ Forall (input_ref_of ins) rs.
Proof.
  intros H Hshape Hnz Hms Hcc Hspecs.
  destruct (ProcessContraction_result _ _ H Hshape Hnz)
    as (shape0 & shapes' & cion' & range_cons' & bounds & simple_cons & kernel & init & ss
        & Hms' & Hcc' & _ & _ & -> & _ & _ & Hrefs & _).
  rewrite Hms in Hms'; inversion Hms'; subst shapes; clear Hms'.
  rewrite Hcc in Hcc'; inversion Hcc'; subst cion' range_cons'; clear Hcc'.
  rewrite Hspecs in Hrefs; destruct Hrefs as (acc & shape & rs & _ & _ & Hr & Hins).
  exists kernel, (if init then [init_stmt N op] else []),
    (output_ref N cion out acc shape), rs.
  repeat split; auto.
Qed.

Lemma contraction_kernel0_tags (main : Block) (op : Op) (cion : Contraction) (t : string) :
  In t (tags (contraction_kernel0 N E main op cion)) ->
  t = String.append "agg_op_" (GetAggOp N (agg_op cion)) \/ t = "contraction" \/ t = "kernel".
Proof.
  destruct (AddKernel_fresh main op) as (_ & _ & _ & _ & Ht).
  unfold contraction_kernel0, set_tag; cbn [tags]; cbv zeta in Ht; rewrite Ht; intros H.
  apply set_insert_inv in H; destruct H as [H|H]; [auto|].
  apply set_insert_inv in H; destruct H as [H|[H|[]]]; auto.
Qed.

(** C4.  The kernel of a contraction that is not skipped, compiled to
    [cion], with [si] the scalar names of its input specs: its statements
    are loads and constants, then the combination, then the store.  With
    more than one scalar input and a combination operator of non-empty
    name, the combination is one intrinsic of that name and the kernel has
    the tag comb_op_<name>.  With at most one scalar input it is one
    "assign" intrinsic.  With more than one scalar input and an operator
    of empty name there is no intrinsic at all.  In the last two cases the
    kernel has no comb_op tag. *)
Theorem contraction_combination (main : Block) (op : Op) (main' : Block)
    (out_shape : TensorShape) (shapes : list TensorShape) (cion : Contraction)
    (range_cons : list RangeConstraint) :
  ProcessContraction N E g main op = OK main' ->
  GetShape g (output op) = OK out_shape ->
  byte_size E out_shape <> 0 ->
  MakeShapes g (c op) = OK shapes ->
  CompileContraction E (c op) shapes = OK (cion, range_cons) ->
  let si := scalar_names (tl (specs cion)) in
  let combo := GetComboOp N (comb_op cion) in
  let out := String.append "$" (output op) in
  exists kernel pre loads,
    stmts main' = stmts main ++ pre ++ [BlockStmt kernel]
    /\ Forall is_load_or_constant loads
    /\ ((1 < List.length si)%nat -> combo <> "" ->
        stmts kernel = loads ++ [Intrinsic combo si [out]; Store out (output op)]
        /\ In (String.append "comb_op_" combo) (tags kernel))
    /\ ((List.length si <= 1)%nat ->
        stmts kernel = loads ++ [Intrinsic "assign" si [out]; Store out (output op)]
        /\ ~ In (String.append "comb_op_" combo) (tags kernel))
    /\ ((1 < List.length si)%nat -> combo = "" ->
        stmts kernel = loads ++ [Store out (output op)]
        /\ ~ In (String.append "comb_op_" combo) (tags kernel)).
Proof.
  intros H Hshape Hnz Hms Hcc si combo out.
  destruct (ProcessContraction_result _ _ H Hshape Hnz)
    as (shape0 & shapes' & cion' & range_cons' & bounds & simple_cons & kernel & init & ss
        & Hms' & Hcc' & _ & _ & -> & _ & _ & _ & Hss & Hstmts & Htags).
  rewrite Hms in Hms'; inversion Hms'; subst shapes; clear Hms'.
  rewrite Hcc in Hcc'; inversion Hcc'; subst cion' range_cons'; clear Hcc'.
  fold si combo out in Hstmts, Htags.
  assert (Hnotag : ~ In (String.append "comb_op_" combo)
                       (tags (contraction_kernel0 N E main op cion))).
  { intros Hin; apply contraction_kernel0_tags in Hin.
    destruct Hin as [Hin|[Hin|Hin]]; simpl in Hin; discriminate. }
  exists kernel, (if init then [init_stmt N op] else []), ss.
  split; [reflexivity|]; split; [assumption|].
  unfold combination_stmts in Hstmts; fold si combo out in Hstmts.
  split; [|split].
  - intros Hlen Hcombo.
    apply Nat.ltb_lt in Hlen; apply String.eqb_neq in Hcombo.
    rewrite Hlen, Hcombo in *; simpl in *.
    split; [assumption|]; rewrite Htags; apply set_insert_In.
  - intros Hlen.
    assert (Hlt : Nat.ltb 1 (List.length si) = false) by (apply Nat.ltb_ge; assumption).
    rewrite Hlt in *; simpl in *.
    split; [assumption|]; rewrite Htags; assumption.
  - intros Hlen Hcombo.
    apply Nat.ltb_lt in Hlen; rewrite Hlen, Hcombo in *; simpl in *.
    split; [assumption|]; rewrite Htags; assumption.
Qed.

(** The indexes of a contraction kernel are those of the bounds whose
    range is not 1. *)
Lemma ProcessContraction_idxs (main : Block) (op : Op) (main' : Block)
    (out_shape : TensorShape) :
  ProcessContraction N E g main op = OK main' ->
  GetShape g (output op) = OK out_shape ->
  byte_size E out_shape <> 0 ->
  exists kernel pre shapes cion range_cons bounds simple_cons,
    MakeShapes g (c op) = OK shapes
    /\ CompileContraction E (c op) shapes = OK (cion, range_cons)
    /\ ComputeBounds E range_cons = OK (bounds, simple_cons)
    /\ main' = set_stmts main (stmts main ++ pre ++ [BlockStmt kernel])
    /\ Forall is_special_stmt pre
    /\ idxs kernel = declared_idxs bounds.
Proof.
  intros H Hshape Hnz.
  destruct (ProcessContraction_result _ _ H Hshape Hnz)
    as (shape0 & shapes & cion & range_cons & bounds & simple_cons & kernel & init & ss
        & Hms & Hcc & Hcb & _ & -> & Hidxs & _).
  exists kernel, (if init then [init_stmt N op] else []), (shape0 :: shapes), cion,
    range_cons, bounds, simple_cons.
  repeat (split; [assumption || reflexivity|]).
  split; [|assumption].
  destruct init; [|constructor].
  unfold init_stmt; destruct (String.eqb _ _); repeat constructor.
Qed.

(** *** ProcessElementwise, step by step *)

Lemma eltwise_out_spec (ds : list TensorDimension) :
  forall i k acc,
    eltwise_out i ds k acc
    = (set_idxs k (idxs k ++ eltwise_idxs i ds), acc ++ eltwise_access i ds).
Proof.
  unfold eltwise_idxs, eltwise_access, numbered.
  induction ds as [|d rest IH]; intros i k acc; simpl.
  - unfold set_idxs; rewrite !app_nil_r, block_eta; reflexivity.
  - rewrite IH; unfold push_idx, set_idxs, loop_index; simpl.
    rewrite <- !app_assoc; simpl.
    destruct (1 <? size d); rewrite <- app_assoc; reflexivity.
Qed.

Lemma nth_error_eltwise_idxs (ds : list TensorDimension) :
  forall s j d,
    nth_error ds j = Some d ->
    nth_error (eltwise_idxs s ds) j = Some (mkIndex (loop_index (s + j)) (size d)).
Proof.
  unfold eltwise_idxs, numbered.
  induction ds as [|d0 rest IH]; intros s [|j] d H; simpl in *; try discriminate.
  - inversion H; subst; rewrite Nat.add_0_r; reflexivity.
  - rewrite (IH (S s) j d H), Nat.add_succ_comm; reflexivity.
Qed.

Lemma broadcast_access_ext (k1 k2 : Block) (out_shape in_shape : TensorShape) :
  idxs k1 = idxs k2 ->
  broadcast_access k1 out_shape in_shape = broadcast_access k2 out_shape in_shape.
Proof.
  intros H; unfold broadcast_access, broadcast_step; rewrite H; reflexivity.
Qed.

Section Broadcast.

Variable kernel : Block.
Variable out_rank : nat.
Variable in_dims : list TensorDimension.

Hypothesis rank_le : (List.length in_dims <= out_rank)%nat.
Hypothesis kernel_idxs :
  forall i, (i < out_rank)%nat ->
    exists ix, nth_error (idxs kernel) i = Some ix /\ idx_name ix = loop_index i.

Variable lead : nat.
Variable diff : Z.

Hypothesis lead_eq : lead = (out_rank - List.length in_dims)%nat.
Hypothesis diff_eq : diff = Z.of_nat out_rank - Z.of_nat (List.length in_dims).

(** The leading output dimensions give no entry. *)
Lemma broadcast_leading (l : list nat) (acc : list Affine) :
  Forall (fun i => (i < lead)%nat) l ->
  foldM (broadcast_step kernel in_dims diff) l acc = OK acc.
Proof.
  induction l as [|i l IH]; simpl; intros H; [reflexivity|].
  inversion_clear H as [|? ? Hi Hl].
  unfold broadcast_step at 1.
  assert (Hlt : (diff <=? Z.of_nat i) = false) by (apply Z.leb_gt; lia).
  rewrite Hlt; simpl; auto.
Qed.

(** The trailing ones give one entry each. *)
Lemma broadcast_trailing (todo : list TensorDimension) :
  forall done acc,
    in_dims = done ++ todo ->
    foldM (broadcast_step kernel in_dims diff)
      (seq (lead + List.length done) (List.length todo)) acc
    = OK (acc ++ eltwise_access (lead + List.length done) todo).
Proof.
  unfold eltwise_access, numbered.
  induction todo as [|d rest IH]; intros done acc Hsplit; simpl.
  - rewrite app_nil_r; reflexivity.
  - assert (Hlen : List.length in_dims = (List.length done + S (List.length rest))%nat)
      by (rewrite Hsplit, length_app; reflexivity).
    unfold broadcast_step at 1.
    assert (Hge : (diff <=? Z.of_nat (lead + List.length done)) = true)
      by (apply Z.leb_le; lia).
    assert (Hpos : Z.to_nat (Z.of_nat (lead + List.length done) - diff) = List.length done)
      by lia.
    rewrite Hge, Hpos, Hsplit, nth_error_app2, Nat.sub_diag by lia; simpl.
    assert (Hnext : forall acc',
               foldM (broadcast_step kernel (done ++ d :: rest) diff)
                 (seq (S (lead + List.length done)) (List.length rest)) acc'
               = OK (acc' ++ map (fun p : nat * TensorDimension =>
                                    if 1 <? size (snd p) then [(loop_index (fst p), 1)] else [])
                               (combine (seq (S (lead + List.length done)) (List.length rest))
                                  rest))).
    { intros acc'.
      specialize (IH (done ++ [d]) acc').
      rewrite length_app in IH; simpl in IH.
      replace (lead + (List.length done + 1))%nat with (S (lead + List.length done)) in IH by lia.
      rewrite <- Hsplit; apply IH; rewrite Hsplit, <- app_assoc; reflexivity. }
    destruct (1 <? size d).
    + destruct (kernel_idxs (i := (lead + List.length done)%nat)) as (ix & Hix & Hname);
        [lia|].
      rewrite Hix; simpl; rewrite Hnext, Hname, <- app_assoc; reflexivity.
    + simpl; rewrite Hnext, <- app_assoc; reflexivity.
Qed.

Lemma broadcast_loop :
  foldM (broadcast_step kernel in_dims diff) (seq 0 out_rank) []
  = OK (eltwise_access lead in_dims).
Proof.
  replace out_rank with (lead + List.length in_dims)%nat at 1 by lia.
  rewrite seq_app, foldM_app, broadcast_leading; simpl.
  - pose proof (@broadcast_trailing in_dims [] [] eq_refl) as H; simpl in H.
    rewrite Nat.add_0_r in H; exact H.
  - apply Forall_forall; intros i Hi; apply in_seq in Hi; lia.
Qed.

End Broadcast.

Lemma eltwise_input_step (out_shape : TensorShape) (k : Block) (input : string) (k' : Block) :
  eltwise_input g out_shape k input = OK k' ->
  exists rs ss,
    k' = set_stmts (set_refs k (refs k ++ rs)) (stmts k ++ ss)
    /\ Forall2 (broadcast_ref g k out_shape) (tensor_inputs (vars_ g) [input]) rs.
Proof.
  unfold eltwise_input, tensor_inputs, is_tensor; simpl; intros H.
  destruct (find input (vars_ g)) as [b|] eqn:Hb; [|discriminate].
  assert (Hconst : forall lit,
             exists rs ss,
               push_stmt k (Constant (ScalarName input) lit)
               = set_stmts (set_refs k (refs k ++ rs)) (stmts k ++ ss)
               /\ Forall2 (broadcast_ref g k out_shape) [] rs).
  { intros lit; exists [], [Constant (ScalarName input) lit]; split; [|constructor].
    unfold push_stmt, set_stmts, set_refs; simpl; rewrite app_nil_r; reflexivity. }
  destruct (btag b); try discriminate.
  - inv_bind H as acc Hacc; inv_bind H as sshape Hsshape.
    inversion H; subst; clear H.
    eexists [_], [_]; split; [reflexivity|].
    constructor; [|constructor].
    unfold broadcast_ref; simpl; repeat split; eauto.
  - inversion H; subst; apply Hconst.
  - inversion H; subst; apply Hconst.
Qed.

Lemma eltwise_input_loop (out_shape : TensorShape) (inputs : list string) :
  forall k k',
    foldM (eltwise_input g out_shape) inputs k = OK k' ->
    exists rs ss,
      k' = set_stmts (set_refs k (refs k ++ rs)) (stmts k ++ ss)
      /\ Forall2 (broadcast_ref g k out_shape) (tensor_inputs (vars_ g) inputs) rs.
Proof.
  induction inputs as [|input rest IH]; cbn [foldM]; intros k k' H.
  - inversion H; subst; exists [], []; split; [|constructor].
    unfold set_stmts, set_refs; simpl; rewrite !app_nil_r, block_eta; reflexivity.
  - inv_bind H as k1 Hk1.
    apply eltwise_input_step in Hk1; destruct Hk1 as (rs1 & ss1 & -> & Hr1).
    apply IH in H; destruct H as (rs2 & ss2 & -> & Hr2).
    exists (rs1 ++ rs2), (ss1 ++ ss2); split; [apply extend_twice|].
    replace (tensor_inputs (vars_ g) (input :: rest))
      with (tensor_inputs (vars_ g) [input] ++ tensor_inputs (vars_ g) rest)
      by (unfold tensor_inputs; simpl; destruct (is_tensor (vars_ g) input); reflexivity).
    apply Forall2_app; [assumption|].
    eapply Forall2_impl; [|exact Hr2].
    intros a r (Hd & Hf & Hi & b & Hb & Hacc); repeat split; auto.
    exists b; split; [assumption|].
    rewrite <- Hacc; apply broadcast_access_ext; reflexivity.
Qed.

(** What an elementwise operation leaves in [main]. *)
Lemma ProcessElementwise_result (main : Block) (op : Op) (main' : Block) :
  ProcessElementwise E g main op = OK main' ->
  exists out_shape out_scalar kernel k0 in_refs ss,
    GetShape g (output op) = OK out_shape
    /\ ScalarShape g (output op) = OK out_scalar
    /\ main' = set_stmts main (stmts main ++ [BlockStmt kernel])
    /\ idxs k0 = eltwise_idxs 0 (dims out_shape)
    /\ idxs kernel = filter (fun idx => negb (range idx =? 1)) (idxs k0)
    /\ Forall2 (broadcast_ref g k0 out_shape) (tensor_inputs (vars_ g) (inputs op)) in_refs
    /\ refs kernel
       = in_refs ++ [mkRefinement RefOut (output op) (output op)
                       (eltwise_access 0 (dims out_shape)) out_scalar "" NoLocation
                       false 0 None]
    /\ stmts kernel
       = ss ++ [Intrinsic (fn (f op)) (map ScalarName (inputs op)) [ScalarName (output op)];
                Store (ScalarName (output op)) (output op)].
Proof.
  unfold ProcessElementwise; intros H.
  destruct (AddKernel_fresh main op) as (Hi & Hc & Hr & Hs & _); cbv zeta in *.
  pose proof (AddKernel_parent main op) as Hp.
  destruct (AddKernel E main op) as [main1 ka]; simpl fst in *; simpl snd in *; subst main1.
  inv_bind H as out_shape Hout.
  inv_bind H as k2 Hk2.
  inv_bind H as out_scalar Hscalar.
  inversion H; subst; clear H.
  rewrite eltwise_out_spec in Hk2; simpl in Hk2.
  apply eltwise_input_loop in Hk2; destruct Hk2 as (rs & ss & -> & Hrs).
  rewrite eltwise_out_spec; simpl snd.
  eexists out_shape, out_scalar, _, _, rs, ss.
  split; [assumption|]; split; [assumption|].
  split; [apply commit_kernel_push|].
  split; [|split; [reflexivity|]].
  - simpl; rewrite Hi; reflexivity.
  - split; [exact Hrs|]; simpl; rewrite Hr, Hs; split; [reflexivity|].
    rewrite <- app_assoc; reflexivity.
Qed.

(** *** Elementwise operations: the broadcast rule *)

Lemma eltwise_access_length (s : nat) (ds : list TensorDimension) :
  List.length (eltwise_access s ds) = List.length ds.
Proof.
  unfold eltwise_access, numbered.
  rewrite length_map, length_combine, length_seq; lia.
Qed.

Lemma eltwise_access_nth (ds : list TensorDimension) :
  forall s j d,
    nth_error ds j = Some d ->
    nth_error (eltwise_access s ds) j
    = Some (if 1 <? size d then [(loop_index (s + j), 1)] else []).
Proof.
  unfold eltwise_access, numbered.
  induction ds as [|d0 rest IH]; intros s [|j] d H; simpl in *; try discriminate.
  - inversion H; subst; rewrite Nat.add_0_r; reflexivity.
  - rewrite (IH (S s) j d H), Nat.add_succ_comm; reflexivity.
Qed.

Lemma eltwise_kernel_idxs (k0 : Block) (out_dims : list TensorDimension) :
  idxs k0 = eltwise_idxs 0 out_dims ->
  forall i, (i < List.length out_dims)%nat ->
    exists ix, nth_error (idxs k0) i = Some ix /\ idx_name ix = loop_index i.
Proof.
  intros Hk i Hi.
  destruct (nth_error out_dims i) as [d|] eqn:Hd.
  - rewrite Hk, (nth_error_eltwise_idxs out_dims 0 i Hd); simpl; eauto.
  - apply nth_error_None in Hd; lia.
Qed.

(** C6.  The kernel of an elementwise operation ends its refinements with
    the Out refinement of the output, whose access has, per output
    dimension, the loop index of that dimension if its size is above 1
    and the constant 0 otherwise.  Before it stands one In refinement per
    tensor input, in order; for a tensor input of rank at most the rank of
    the output the access has one entry per input dimension, and entry
    [j] is the loop index of output dimension [out_rank - in_rank + j]
    (also the name of the index declared at that position) if input
    dimension [j] has a size above 1, and the constant 0 otherwise: the
    leading [out_rank - in_rank] output dimensions give no entry.  For a
    first input of sizes (4,1) and an output of sizes (4,8), the access of
    the output is (i1, i2) and that of the first input is (i1, 0). *)
Theorem eltwise_broadcast (main : Block) (op : Op) (main' : Block) :
  ProcessElementwise E g main op = OK main' ->
  exists out_shape kernel in_refs out_ref,
    GetShape g (output op) = OK out_shape
    /\ stmts main' = stmts main ++ [BlockStmt kernel]
    /\ refs kernel = in_refs ++ [out_ref]
    /\ dir out_ref = RefOut /\ from out_ref = output op
    /\ access out_ref = eltwise_access 0 (dims out_shape)
    /\ Forall2
         (fun input r =>
            dir r = RefIn /\ from r = input
            /\ forall b,
                 find input (vars_ g) = Some b ->
                 (List.length (dims (shape b)) <= List.length (dims out_shape))%nat ->
                 let lead := (List.length (dims out_shape) - List.length (dims (shape b)))%nat in
                 List.length (access r) = List.length (dims (shape b))
                 /\ forall j d,
                      nth_error (dims (shape b)) j = Some d ->
                      nth_error (access r) j
                      = Some (if 1 <? size d then [(loop_index (lead + j), 1)] else [])
                      /\ nth_error (eltwise_idxs 0 (dims out_shape)) (lead + j)
                         = option_map (fun od => mkIndex (loop_index (lead + j)) (size od))
                             (nth_error (dims out_shape) (lead + j)))
         (tensor_inputs (vars_ g) (inputs op)) in_refs
    /\ (forall a rest sa,
          inputs op = a :: rest ->
          find a (vars_ g) = Some sa ->
          btag sa = TENSOR ->
          map size (dims (shape sa)) = [4; 1] ->
          map size (dims out_shape) = [4; 8] ->
          access out_ref = [[("i1", 1)]; [("i2", 1)]]
          /\ exists first, hd_error (refs kernel) = Some first
                           /\ from first = a
                           /\ access first = [[("i1", 1)]; []]).
Proof.
  intros H.
  destruct (ProcessElementwise_result _ _ H)
    as (out_shape & out_scalar & kernel & k0 & in_refs & ss
        & Hout & _ & -> & Hk0 & _ & Hin & Hrefs & _).
  assert (Hacc : forall input r b,
             broadcast_ref g k0 out_shape input r ->
             find input (vars_ g) = Some b ->
             (List.length (dims (shape b)) <= List.length (dims out_shape))%nat ->
             access r = eltwise_access
                          (List.length (dims out_shape) - List.length (dims (shape b)))
                          (dims (shape b))).
  { intros input r b (_ & _ & _ & b' & Hb' & Hbr) Hb Hle.
    rewrite Hb in Hb'; inversion Hb'; subst b'; clear Hb'.
    unfold broadcast_access in Hbr.
    rewrite (broadcast_loop k0 (dims (shape b)) Hle (eltwise_kernel_idxs k0 _ Hk0)
               eq_refl eq_refl) in Hbr.
    inversion Hbr; reflexivity. }
  eexists out_shape, kernel, in_refs, _.
  split; [assumption|]; split; [reflexivity|]; split; [exact Hrefs|].
  simpl; repeat (split; [reflexivity|]).
  split.
  - eapply Forall2_impl; [|exact Hin].
    intros input r Hr; pose proof Hr as (Hd & Hf & _); repeat (split; [assumption|]).
    intros b Hb Hle; rewrite (Hacc _ _ _ Hr Hb Hle).
    set (lead := (List.length (dims out_shape) - List.length (dims (shape b)))%nat).
    split; [apply eltwise_access_length|].
    intros j d Hj; split; [apply eltwise_access_nth; assumption|].
    destruct (nth_error (dims out_shape) (lead + j)) as [od|] eqn:Hod; simpl.
    + rewrite (nth_error_eltwise_idxs _ 0 _ Hod); reflexivity.
    + apply nth_error_None; apply nth_error_None in Hod.
      unfold eltwise_idxs, numbered; rewrite length_map, length_combine, length_seq; lia.
  - intros a rest sa Hinputs Ha Htensor Hsa Hso.
    split.
    + destruct (dims out_shape) as [|d1 [|d2 [|? ?]]]; try discriminate.
      inversion Hso as [[H1 H2]]; unfold eltwise_access, numbered; simpl.
      rewrite H1, H2; reflexivity.
    + assert (Hta : tensor_inputs (vars_ g) (inputs op)
                    = a :: tensor_inputs (vars_ g) rest).
      { rewrite Hinputs; unfold tensor_inputs, is_tensor; simpl.
        rewrite Ha, Htensor; reflexivity. }
      rewrite Hta in Hin; inversion Hin as [|? first ? rs Hfirst Hrest]; subst.
      exists first; rewrite Hrefs; split; [reflexivity|].
      pose proof Hfirst as (_ & Hf & _); split; [assumption|].
      assert (Hle : (List.length (dims (shape sa)) <= List.length (dims out_shape))%nat).
      { rewrite <- (length_map size (dims (shape sa))), <- (length_map size (dims out_shape)).
        rewrite Hsa, Hso; simpl; lia. }
      rewrite (Hacc _ _ _ Hfirst Ha Hle).
      destruct (dims out_shape) as [|o1 [|o2 [|? ?]]]; try discriminate.
      destruct (dims (shape sa)) as [|d1 [|d2 [|? ?]]]; try discriminate.
      inversion Hsa as [[H1 H2]]; unfold eltwise_access, numbered; simpl.
      rewrite H1, H2; reflexivity.
Qed.

(** *** The run *)

Lemma count_set_insert (k x : string) (s : list string) :
  count k (set_insert x s) = String.eqb k x || count k s.
Proof.
  unfold count; induction s as [|k' s IH]; simpl; [reflexivity|].
  destruct (String.compare x k') eqn:Hc; simpl.
  - apply compare_Eq in Hc; subst k'.
    destruct (String.eqb k x); reflexivity.
  - reflexivity.
  - rewrite IH; destruct (String.eqb k x), (String.eqb k k'); reflexivity.
Qed.

Lemma count_keys_inserted (V : Type) (k : string) (shapes : smap V) :
  forall s,
    count k (fold_left (fun s item => set_insert (fst item) s) shapes s)
    = count k s || count k (keys shapes).
Proof.
  induction shapes as [|[x v] rest IH]; intros s; simpl.
  - rewrite orb_false_r; reflexivity.
  - rewrite IH, count_set_insert; simpl.
    destruct (String.eqb k x), (count k s); reflexivity.
Qed.

Lemma AddDecls_spec (shapes : ShapeMap) (is_input : bool) :
  forall st,
    AddDecls N g st shapes is_input
    = mkDecls (fold_left (fun s item => set_insert (fst item) s) shapes (decl_externals st))
        (set_refs (decl_program st)
           (refs (decl_program st) ++ map (program_decl g) shapes))
        (set_refs (decl_main st)
           (refs (decl_main st) ++ map (main_decl N g is_input) shapes)).
Proof.
  unfold AddDecls; induction shapes as [|item rest IH]; intros st; simpl.
  - unfold set_refs; rewrite !app_nil_r, !block_eta; destruct st; reflexivity.
  - rewrite IH; simpl; unfold push_ref, set_refs; simpl.
    rewrite <- !app_assoc; reflexivity.
Qed.

Lemma add_temporary_loop (exts : list string) (vars : Bindings) :
  forall main,
    fold_left (add_temporary g exts) vars main
    = set_refs main
        (refs main
         ++ map (temp_decl g)
              (filter (fun item => negb (count (fst item) exts) && is_tensor_binding (snd item))
                 vars)).
Proof.
  induction vars as [|item rest IH]; intros main; simpl.
  - unfold set_refs; rewrite app_nil_r, block_eta; reflexivity.
  - rewrite IH; unfold add_temporary, is_tensor_binding.
    destruct (negb (count (fst item) exts)); simpl; [|reflexivity].
    destruct (btag (snd item)); simpl; try reflexivity.
    unfold push_ref, set_refs; simpl; rewrite <- app_assoc; reflexivity.
Qed.

Lemma kernels_no_unit_index_app (l1 l2 : list Statement) :
  kernels_no_unit_index l1 -> kernels_no_unit_index l2 -> kernels_no_unit_index (l1 ++ l2).
Proof. intros H1 H2; apply Forall_app; auto. Qed.

(** Every operation only appends to the statements of [main], and the
    kernels it appends have no index of range 1. *)
Lemma ProcessOp_appends (main : Block) (op : Op) (main' : Block) :
  ProcessOp N E g main op = OK main' ->
  exists new, main' = set_stmts main (stmts main ++ new) /\ kernels_no_unit_index new.
Proof.
  assert (Hnone : exists new,
             main = set_stmts main (stmts main ++ new) /\ kernels_no_unit_index new).
  { exists []; split; [|constructor].
    unfold set_stmts; rewrite app_nil_r, block_eta; reflexivity. }
  unfold ProcessOp; destruct (tag op); intros H.
  - pose proof H as H0.
    apply ProcessContraction_inv in H0; destruct H0 as (out_shape & Hshape & [[_ ->]|[Hnz _]]);
      [exact Hnone|].
    destruct (ProcessContraction_idxs _ _ H Hshape Hnz)
      as (kernel & pre & _ & _ & _ & bounds & _ & _ & _ & _ & -> & Hpre & Hidxs).
    exists (pre ++ [BlockStmt kernel]); split; [reflexivity|].
    apply kernels_no_unit_index_app.
    + eapply Forall_impl; [|exact Hpre]; intros [] Hs; simpl in *; tauto.
    + repeat constructor; unfold no_unit_index; rewrite Hidxs.
      apply declared_idxs_no_unit.
  - destruct (is_special E (f op)); [|destruct (String.eqb (fn (f op)) "reshape")].
    + inversion H; subst; eexists [_]; split; [reflexivity | repeat constructor].
    + unfold ProcessReshape in H; destruct (inputs op); [discriminate|].
      inversion H; subst; eexists [_]; split; [reflexivity | repeat constructor].
    + destruct (ProcessElementwise_result _ _ H)
        as (_ & _ & kernel & k0 & _ & _ & _ & _ & -> & _ & Hidxs & _).
      exists [BlockStmt kernel]; split; [reflexivity|].
      repeat constructor; unfold no_unit_index; rewrite Hidxs.
      apply Forall_forall; intros ix Hin; apply filter_In in Hin; destruct Hin as [_ Hr].
      apply negb_true_iff, Z.eqb_neq in Hr; exact Hr.
  - inversion H; subst; exact Hnone.
Qed.

Lemma ProcessOp_loop (l : list Op) :
  forall main main',
    foldM (ProcessOp N E g) l main = OK main' ->
    exists new, main' = set_stmts main (stmts main ++ new) /\ kernels_no_unit_index new.
Proof.
  induction l as [|op rest IH]; simpl; intros main main' H.
  - inversion H; subst; exists []; split; [|constructor].
    unfold set_stmts; rewrite app_nil_r, block_eta; reflexivity.
  - inv_bind H as m1 Hm1.
    apply ProcessOp_appends in Hm1; destruct Hm1 as (new1 & -> & Hn1).
    apply IH in H; destruct H as (new2 & -> & Hn2).
    exists (new1 ++ new2); split; [|apply kernels_no_unit_index_app; assumption].
    unfold set_stmts; simpl; rewrite <- app_assoc; reflexivity.
Qed.

(** The program [Run] returns. *)
Lemma Run_result (prog : Block) :
  Run N E g = OK prog ->
  exists main,
    stmts prog = [BlockStmt main]
    /\ refs prog = map (program_decl g) (input_shapes (runinfo_ g))
                   ++ map (program_decl g) (output_shapes (runinfo_ g))
    /\ refs main = map (main_decl N g true) (input_shapes (runinfo_ g))
                   ++ map (main_decl N g false) (output_shapes (runinfo_ g))
                   ++ map (temp_decl g) (temporaries g)
    /\ kernels_no_unit_index (stmts main).
Proof.
  unfold Run; rewrite !AddDecls_spec; simpl; intros H.
  inv_bind H as m Hm; inversion H; subst; clear H.
  apply ProcessOp_loop in Hm; destruct Hm as (new & -> & Hnew).
  rewrite add_temporary_loop; simpl.
  eexists; split; [reflexivity|]; split; [reflexivity|]; split; [|exact Hnew].
  unfold set_refs; cbn [refs]; rewrite <- app_assoc; do 3 f_equal.
  unfold temporaries; apply filter_ext; intros [k b]; simpl.
  unfold is_external; rewrite !count_keys_inserted; reflexivity.
Qed.

Lemma Forall2_map_self (A B : Type) (R : A -> B -> Prop) (h : A -> B) (l : list A) :
  (forall a, R a (h a)) -> Forall2 R l (map h l).
Proof. intros H; induction l; simpl; constructor; auto. Qed.

(** C1.  The program [Run] returns has [main] as its only statement.  Its
    own refinements are one per input and one per output, of direction
    None and zero access, and no others: their count is #inputs +
    #outputs.  The refinements of [main] are one In refinement per input,
    then one Out refinement with the aggregation ASSIGN per output, then,
    appended after all operations, one refinement of direction None, zero
    access and no aggregation for every bound value that is a tensor and
    not external: the temporaries are declared in [main], not in the
    program block. *)
Theorem Run_declarations (prog : Block) :
  Run N E g = OK prog ->
  exists main ins outs temps,
    stmts prog = [BlockStmt main]
    /\ List.length (refs prog)
       = (List.length (input_shapes (runinfo_ g))
          + List.length (output_shapes (runinfo_ g)))%nat
    /\ Forall2
         (fun item r => dir r = RefNone /\ into r = fst item
                        /\ access r = zero_access (snd item))
         (input_shapes (runinfo_ g) ++ output_shapes (runinfo_ g)) (refs prog)
    /\ refs main = ins ++ outs ++ temps
    /\ Forall2
         (fun item r => dir r = RefIn /\ from r = fst item /\ into r = fst item)
         (input_shapes (runinfo_ g)) ins
    /\ Forall2
         (fun item r => dir r = RefOut /\ from r = fst item /\ into r = fst item
                        /\ ref_agg_op r = Intrinsic_ASSIGN N)
         (output_shapes (runinfo_ g)) outs
    /\ Forall2
         (fun item r => dir r = RefNone /\ into r = fst item /\ ref_agg_op r = ""
                        /\ access r = zero_access (shape (snd item)))
         (temporaries g) temps.
Proof.
  intros H; apply Run_result in H; destruct H as (main & Hstmts & Hprog & Hmain & _).
  exists main, (map (main_decl N g true) (input_shapes (runinfo_ g))),
    (map (main_decl N g false) (output_shapes (runinfo_ g))),
    (map (temp_decl g) (temporaries g)).
  split; [assumption|]; split; [|split; [|split; [assumption|]]].
  - rewrite Hprog, length_app, !length_map; reflexivity.
  - rewrite Hprog, <- map_app; apply Forall2_map_self; intros item; simpl; auto.
  - repeat split; apply Forall2_map_self; intros item; simpl; auto.
Qed.

(** C9.  No kernel block of the program [Run] returns declares an index
    of range 1.  An elementwise kernel declares the indexes of the output
    dimensions with those of range 1 erased.  A contraction kernel
    declares, for every bound, an index of range [max - min + 1] (a
    [uint64_t]) unless that range is 1; for a bound with [min <= max]
    (and a range that fits) a declared range is above 1. *)
Theorem kernels_without_unit_index :
  (forall prog,
     Run N E g = OK prog ->
     exists main, stmts prog = [BlockStmt main] /\ kernels_no_unit_index (stmts main))
  /\ (forall main op main',
        ProcessElementwise E g main op = OK main' ->
        exists out_shape kernel,
          GetShape g (output op) = OK out_shape
          /\ stmts main' = stmts main ++ [BlockStmt kernel]
          /\ idxs kernel
             = filter (fun idx => negb (range idx =? 1)) (eltwise_idxs 0 (dims out_shape))
          /\ no_unit_index kernel)
  /\ (forall main op main' out_shape,
        ProcessContraction N E g main op = OK main' ->
        GetShape g (output op) = OK out_shape ->
        byte_size E out_shape <> 0 ->
        exists kernel pre shapes cion range_cons bounds simple_cons,
          MakeShapes g (c op) = OK shapes
          /\ CompileContraction E (c op) shapes = OK (cion, range_cons)
          /\ ComputeBounds E range_cons = OK (bounds, simple_cons)
          /\ stmts main' = stmts main ++ pre ++ [BlockStmt kernel]
          /\ idxs kernel = declared_idxs bounds
          /\ no_unit_index kernel
          /\ forall ix,
               In ix (idxs kernel) <->
               exists b, In (idx_name ix, b) bounds
                         /\ range ix = bound_range b /\ bound_range b <> 1)
  /\ (forall b,
        min b <= max b -> max b - min b + 1 < 2 ^ 64 ->
        bound_range b = max b - min b + 1
        /\ (bound_range b <> 1 -> 1 < bound_range b)).
Proof.
  split; [|split; [|split]].
  - intros prog H; apply Run_result in H; destruct H as (main & Hs & _ & _ & Hk); eauto.
  - intros main op main' H.
    destruct (ProcessElementwise_result _ _ H)
      as (out_shape & _ & kernel & k0 & _ & _ & Hout & _ & -> & Hk0 & Hidxs & _).
    exists out_shape, kernel; rewrite <- Hk0.
    repeat (split; [assumption || reflexivity|]).
    unfold no_unit_index; rewrite Hidxs.
    apply Forall_forall; intros ix Hin; apply filter_In in Hin; destruct Hin as [_ Hr].
    apply negb_true_iff, Z.eqb_neq in Hr; exact Hr.
  - intros main op main' out_shape H Hshape Hnz.
    destruct (ProcessContraction_idxs _ _ H Hshape Hnz)
      as (kernel & pre & shapes & cion & range_cons & bounds & simple_cons
          & Hms & Hcc & Hcb & -> & _ & Hidxs).
    exists kernel, pre, shapes, cion, range_cons, bounds, simple_cons.
    repeat (split; [assumption || reflexivity|]).
    split; [unfold no_unit_index; rewrite Hidxs; apply declared_idxs_no_unit|].
    intros ix; rewrite Hidxs; unfold declared_idxs; rewrite in_map_iff; split.
    + intros ([i b] & <- & Hin); apply filter_In in Hin; destruct Hin as [Hin Hr].
      simpl in *; apply negb_true_iff, Z.eqb_neq in Hr; eauto.
    + intros (b & Hin & Hr & Hne); exists (idx_name ix, b); simpl; split.
      * destruct ix; simpl in *; congruence.
      * apply filter_In; split; [assumption|]; simpl.
        apply negb_true_iff, Z.eqb_neq; assumption.
  - intros b Hle Hfit; unfold bound_range, wrapu64.
    rewrite Z.mod_small by lia; split; [reflexivity | lia].
Qed.

End GeneratorProperties.

(** ** Affine expressions keep the invariant of the map *)

Lemma wrap64_opp (z : Z) : wrap64 (- wrap64 z) = wrap64 (- z).
Proof.
  unfold wrap64.
  pose proof (Z.div_mod (z + 2 ^ 63) (2 ^ 64) ltac:(lia)) as Hdm.
  set (q := (z + 2 ^ 63) / 2 ^ 64) in *; set (r := (z + 2 ^ 63) mod 2 ^ 64) in *.
  replace (- (r - 2 ^ 63) + 2 ^ 63) with (- r + 1 * 2 ^ 64) by lia.
  replace (- z + 2 ^ 63) with (- r + (1 - q) * 2 ^ 64) by lia.
  rewrite !Z.mod_add by lia; reflexivity.
Qed.

Lemma wrap64_zero (z : Z) : in_int64 z -> wrap64 (- z) = 0 -> z = 0.
Proof.
  unfold in_int64; intros Hz H.
  destruct (Z.eq_dec z (- 2 ^ 63)) as [->|Hne]; [vm_compute in H; discriminate|].
  rewrite wrap64_id in H by (unfold in_int64; lia); lia.
Qed.

Lemma wf_affine_nil : wf_affine [].
Proof. repeat split; constructor. Qed.

Lemma add_term_nonzero (k : string) (v : Z) (m : Affine) :
  Forall (fun t => snd t <> 0) m -> Forall (fun t => snd t <> 0) (add_term k v m).
Proof.
  induction m as [|[k' v'] m IH]; simpl; intros H.
  - destruct (Z.eqb_spec (wrap64 v) 0); repeat constructor; assumption.
  - inversion H; subst.
    destruct (String.compare k k').
    + destruct (Z.eqb_spec (wrap64 (v' + v)) 0); [assumption | constructor; assumption].
    + destruct (Z.eqb_spec (wrap64 v) 0); [assumption | constructor; assumption].
    + constructor; auto.
Qed.

Lemma add_term_wf (k : string) (v : Z) (m : Affine) : wf_affine m -> wf_affine (add_term k v m).
Proof.
  intros (Hs & Hn & H64); repeat split;
    auto using add_term_sorted, add_term_nonzero, add_term_int64.
Qed.

Lemma Affine_add_wf (b a : Affine) : wf_affine a -> wf_affine (Affine_add a b).
Proof.
  unfold Affine_add; revert a; induction b as [|t b IH]; simpl; intros a Ha; [assumption|].
  apply IH, add_term_wf, Ha.
Qed.

Lemma Affine_sub_wf (b a : Affine) : wf_affine a -> wf_affine (Affine_sub a b).
Proof.
  unfold Affine_sub; revert a; induction b as [|t b IH]; simpl; intros a Ha; [assumption|].
  apply IH, add_term_wf, Ha.
Qed.

Lemma keys_Affine_neg (a : Affine) : keys (Affine_neg a) = keys a.
Proof. unfold keys, Affine_neg; rewrite map_map; reflexivity. Qed.

Lemma Affine_neg_wf (a : Affine) : wf_affine a -> wf_affine (Affine_neg a).
Proof.
  intros (Hs & Hn & H64); split; [rewrite keys_Affine_neg; assumption|].
  unfold int64_values, Affine_neg in *; rewrite !Forall_map; simpl.
  rewrite Forall_forall in Hn, H64; split; apply Forall_forall; intros t Hin.
  - intros Hz; apply (Hn t Hin), wrap64_zero; auto.
  - apply wrap64_range.
Qed.

Lemma find_Affine_neg (k : string) (a : Affine) :
  find k (Affine_neg a) = option_map (fun v => wrap64 (- v)) (find k a).
Proof.
  unfold Affine_neg; induction a as [|[k' v] a IH]; simpl; [reflexivity|].
  destruct (String.eqb k k'); [reflexivity | exact IH].
Qed.

Lemma coeff_Affine_neg (k : string) (a : Affine) :
  coeff k (Affine_neg a) = wrap64 (- coeff k a).
Proof.
  unfold coeff; rewrite find_Affine_neg; destruct (find k a); reflexivity.
Qed.

Lemma Affine_sub_int (a : Affine) (x : Z) :
  Affine_sub a (Affine_of_int x) = if x =? 0 then a else add_term "" (- x) a.
Proof. unfold Affine_sub, Affine_of_int; destruct (x =? 0); reflexivity. Qed.

Lemma coeff_int64 (k : string) (a : Affine) : int64_values a -> wrap64 (coeff k a) = coeff k a.
Proof.
  intros H; apply wrap64_id; unfold coeff.
  destruct (find k a) as [v|] eqn:Hf; [|unfold in_int64; lia].
  apply find_In in Hf; unfold int64_values in H; rewrite Forall_forall in H.
  exact (H _ Hf).
Qed.

Lemma coeff_Affine_sub_int (a : Affine) (x : Z) (k : string) :
  wf_affine a ->
  coeff k (Affine_sub a (Affine_of_int x))
  = if String.eqb k "" then wrap64 (coeff "" a - x) else coeff k a.
Proof.
  intros (Hs & _ & H64); rewrite Affine_sub_int.
  destruct (Z.eqb_spec x 0) as [->|Hx].
  - destruct (String.eqb_spec k "") as [->|_]; [|reflexivity].
    rewrite Z.sub_0_r, coeff_int64; auto.
  - rewrite coeff_add_term by assumption; reflexivity.
Qed.

Lemma keys_Affine_add (b a : Affine) (k : string) :
  In k (keys (Affine_add a b)) -> In k (keys a) \/ In k (keys b).
Proof.
  unfold Affine_add; revert a; induction b as [|t b IH]; simpl; intros a H; [auto|].
  apply IH in H; destruct H as [H|H]; [|auto].
  apply keys_add_term in H; destruct H as [->|H]; auto.
Qed.

Lemma keys_of_int (x : Z) (k : string) : In k (keys (Affine_of_int x)) -> k = "".
Proof. unfold Affine_of_int; destruct (x =? 0); simpl; intuition. Qed.

Lemma keys_of_index (i : string) (x : Z) (k : string) :
  In k (keys (Affine_of_index i x)) -> k = i.
Proof. unfold Affine_of_index; destruct (x =? 0); simpl; intuition. Qed.

Section IntegerizeInvariant.

Variable E : Collaborators.

Lemma Integerize_term_wf (bounds : IndexBounds) (acc a : Affine) (t : string * Rational) :
  wf_affine acc -> Integerize_term E bounds acc t = OK a -> wf_affine a.
Proof.
  unfold Integerize_term; intros Hacc H.
  destruct (negb (denominator (snd t) =? 1)); [discriminate|].
  destruct (String.eqb (fst t) "").
  - inversion H; subst; apply Affine_add_wf, Hacc.
  - destruct (find (fst t) bounds) as [b|]; [|discriminate].
    destruct (negb (min b =? max b)); inversion H; subst;
      repeat apply Affine_add_wf; exact Hacc.
Qed.

Lemma Integerize_loop_wf (bounds : IndexBounds) (terms : Polynomial Rational) :
  forall acc a,
    wf_affine acc -> foldM (Integerize_term E bounds) terms acc = OK a -> wf_affine a.
Proof.
  induction terms as [|t rest IH]; simpl; intros acc a Hacc H.
  - inversion H; subst; assumption.
  - inv_bind H as a1 Ha1; eapply IH; [|exact H].
    eapply Integerize_term_wf; eauto.
Qed.

Lemma Integerize_keeps_wf (poly : Polynomial Rational) (bounds : IndexBounds) (a : Affine) :
  Integerize E poly bounds = OK a -> wf_affine a.
Proof. apply Integerize_loop_wf, wf_affine_nil. Qed.

(** The index names [Integerize] leaves are those of a bound that is not
    degenerate. *)
Lemma Integerize_keys (poly : Polynomial Rational) (bounds : IndexBounds) (a : Affine) :
  Integerize E poly bounds = OK a ->
  forall k, In k (keys a) -> k <> "" ->
    exists b, find k bounds = Some b /\ min b <> max b.
Proof.
  unfold Integerize.
  assert (Hloop : forall terms acc res,
             (forall k, In k (keys acc) -> k <> "" ->
                exists b, find k bounds = Some b /\ min b <> max b) ->
             foldM (Integerize_term E bounds) terms acc = OK res ->
             forall k, In k (keys res) -> k <> "" ->
               exists b, find k bounds = Some b /\ min b <> max b).
  { induction terms as [|t rest IH]; simpl; intros acc res Hacc H.
    - inversion H; subst; exact Hacc.
    - inv_bind H as a1 Ha1; apply (IH a1 res); [|exact H].
      clear IH H; unfold Integerize_term in Ha1.
      destruct (negb (denominator (snd t) =? 1)); [discriminate|].
      destruct (String.eqb (fst t) "").
      + inversion Ha1; subst; intros k Hk Hne.
        apply keys_Affine_add in Hk; destruct Hk as [Hk|Hk]; [auto|].
        apply keys_of_int in Hk; contradiction.
      + destruct (find (fst t) bounds) as [b|] eqn:Hb; [|discriminate].
        destruct (Z.eqb_spec (min b) (max b)) as [Heq|Hneq]; simpl in Ha1;
          inversion Ha1; subst; intros k Hk Hne.
        * apply keys_Affine_add in Hk; destruct Hk as [Hk|Hk]; [auto|].
          apply keys_of_int in Hk; contradiction.
        * apply keys_Affine_add in Hk; destruct Hk as [Hk|Hk].
          -- apply keys_Affine_add in Hk; destruct Hk as [Hk|Hk]; [auto|].
             apply keys_of_int in Hk; contradiction.
          -- apply keys_of_index in Hk; subst k; eauto. }
  intros H; apply (Hloop poly [] a); [intros k []|exact H].
Qed.

(** X1.  Whatever the polynomial and the bounds, an affine expression
    [Integerize] returns keeps the invariant of the polynomial map: the
    names are strictly increasing (so each occurs once), no coefficient is
    zero, and every coefficient is an [int64_t].  Every index it names has
    a bound that is not degenerate ([min <> max]): an index fixed by its
    bound is replaced by its value. *)
Theorem Integerize_wf (poly : Polynomial Rational) (bounds : IndexBounds) (a : Affine) :
  Integerize E poly bounds = OK a ->
  wf_affine a
  /\ forall k, In k (keys a) -> k <> "" ->
       exists b, find k bounds = Some b /\ min b <> max b.
Proof.
  intros H; split; [exact (Integerize_keeps_wf _ _ H)|].
  exact (@Integerize_keys poly bounds a H).
Qed.

Lemma Integerize_term_total (bounds : IndexBounds) (acc : Affine) (t : string * Rational) :
  denominator (snd t) = 1 ->
  (fst t <> "" -> find (fst t) bounds <> None) ->
  exists a, Integerize_term E bounds acc t = OK a.
Proof.
  unfold Integerize_term; intros Hden Hb; rewrite Hden; simpl.
  destruct (String.eqb_spec (fst t) "") as [_|Hne]; [eauto|].
  specialize (Hb Hne); destruct (find (fst t) bounds) as [b|]; [|congruence].
  destruct (negb (min b =? max b)); eauto.
Qed.

Lemma Integerize_prefix (bounds : IndexBounds) (pre : Polynomial Rational) :
  integer_terms pre -> bounded_terms bounds pre ->
  forall acc, exists a, foldM (Integerize_term E bounds) pre acc = OK a.
Proof.
  unfold integer_terms, bounded_terms.
  induction pre as [|t rest IH]; simpl; intros Hint Hb acc; [eauto|].
  inversion_clear Hint as [|? ? Ht Hrest]; inversion_clear Hb as [|? ? Hbt Hbrest].
  destruct (Integerize_term_total bounds acc t Ht Hbt) as [a1 ->]; simpl; auto.
Qed.

Lemma Integerize_errors (bounds : IndexBounds) (terms : Polynomial Rational) :
  forall acc e,
    foldM (Integerize_term E bounds) terms acc = Err e -> e = NonIntegerTerm \/ e = OutOfRange.
Proof.
  induction terms as [|t rest IH]; simpl; intros acc e H; [discriminate|].
  destruct (Integerize_term E bounds acc t) as [a1|e1] eqn:Ht; simpl in H; [eauto|].
  inversion H; subst e1; clear H.
  unfold Integerize_term in Ht.
  destruct (negb (denominator (snd t) =? 1)); [inversion Ht; auto|].
  destruct (String.eqb (fst t) ""); [discriminate|].
  destruct (find (fst t) bounds) as [b|]; [|inversion Ht; auto].
  destruct (negb (min b =? max b)); discriminate.
Qed.

(** X2.  [Integerize] stops at the first term it cannot convert, and that
    term decides the exception.  When every term before [t] has
    denominator 1 and an index with a bound: a denominator of [t] other
    than 1 gives the non-integer exception, also when the index of [t] has
    no bound; a term [t] with denominator 1 and an index without a bound
    gives the out-of-range exception of [bounds.at].  These are the only
    two ways for [Integerize] to fail. *)
Theorem Integerize_first_failure (bounds : IndexBounds)
    (pre post : Polynomial Rational) (t : string * Rational) :
  integer_terms pre -> bounded_terms bounds pre ->
  (denominator (snd t) <> 1 ->
   Integerize E (pre ++ t :: post) bounds = Err NonIntegerTerm)
  /\ (denominator (snd t) = 1 -> fst t <> "" -> find (fst t) bounds = None ->
      Integerize E (pre ++ t :: post) bounds = Err OutOfRange)
  /\ (forall e, Integerize E (pre ++ t :: post) bounds = Err e ->
        e = NonIntegerTerm \/ e = OutOfRange).
Proof.
  intros Hint Hb; unfold Integerize.
  destruct (Integerize_prefix Hint Hb []) as [a Ha].
  rewrite foldM_app, Ha; simpl; unfold Integerize_term at 1 3.
  split; [|split].
  - intros Hden; apply Z.eqb_neq in Hden; rewrite Hden; reflexivity.
  - intros Hden Hne Hnone; rewrite Hden, Hnone; simpl.
    apply String.eqb_neq in Hne; rewrite Hne; reflexivity.
  - intros e H.
    assert (H' : foldM (Integerize_term E bounds) (pre ++ t :: post) [] = Err e).
    { rewrite foldM_app, Ha; exact H. }
    exact (Integerize_errors _ _ _ H').
Qed.

Lemma contraction_constraint_flip (bounds : IndexBounds) (kernel kernel' : Block)
    (sc : SimpleConstraint) :
  contraction_constraint E bounds kernel sc = OK kernel' ->
  exists con,
    kernel' = set_constraints kernel (constraints kernel ++ [con])
    /\ flipped E bounds sc con
    /\ constraint_of E bounds sc con.
Proof.
  unfold contraction_constraint; intros H; inv_bind H as lhs Hlhs.
  inversion H; subst; clear H.
  pose proof (Integerize_keeps_wf _ _ Hlhs) as Hwf.
  eexists; split; [reflexivity|].
  split; [|exists lhs; split; [assumption | reflexivity]].
  exists lhs; split; [assumption|]; split; [|split].
  - change (constant ?a) with (coeff "" a).
    rewrite coeff_Affine_neg, coeff_Affine_sub_int by assumption; simpl.
    rewrite wrap64_opp; f_equal; lia.
  - intros k Hk; rewrite coeff_Affine_neg, coeff_Affine_sub_int by assumption.
    apply String.eqb_neq in Hk; rewrite Hk; reflexivity.
  - apply Affine_neg_wf, Affine_sub_wf, Hwf.
Qed.

Lemma contraction_constraints_flip (bounds : IndexBounds) (simple_cons : list SimpleConstraint) :
  forall kernel kernel',
    foldM (contraction_constraint E bounds) simple_cons kernel = OK kernel' ->
    exists cons,
      kernel' = set_constraints kernel (constraints kernel ++ cons)
      /\ Forall2 (flipped E bounds) simple_cons cons
      /\ Forall2 (constraint_of E bounds) simple_cons cons.
Proof.
  induction simple_cons as [|sc rest IH]; simpl; intros kernel kernel' H.
  - inversion H; subst; exists []; split; [|split; constructor].
    unfold set_constraints; rewrite app_nil_r; symmetry; apply block_eta.
  - inv_bind H as k1 Hk1.
    apply contraction_constraint_flip in Hk1; destruct Hk1 as (con & -> & Hcon & Hof).
    apply IH in H; destruct H as (cons & -> & Hcons & Hofs).
    exists (con :: cons); split; [|split; constructor; assumption].
    unfold set_constraints; simpl; rewrite <- app_assoc; reflexivity.
Qed.

Lemma spec_access_all (P : Affine -> Prop) (bounds : IndexBounds) (sp : TensorSpec)
    (acc : list Affine) :
  (forall poly a, Integerize E poly bounds = OK a -> P a) ->
  spec_access E bounds sp = OK acc -> Forall P acc.
Proof.
  intros HP; unfold spec_access.
  assert (Hloop : forall polys start res,
             Forall P start ->
             foldM (fun acc poly => a <- Integerize E poly bounds ;; OK (acc ++ [a])) polys start
             = OK res ->
             Forall P res).
  { induction polys as [|p rest IH]; simpl; intros start res Hstart H.
    - inversion H; subst; assumption.
    - inv_bind H as acc1 Hacc1; inv_bind Hacc1 as a Ha; inversion Hacc1; subst.
      eapply IH; [|exact H].
      apply Forall_app; split; [assumption|].
      constructor; [exact (HP _ _ Ha) | constructor]. }
  apply Hloop; constructor.
Qed.

Lemma spec_access_wf (bounds : IndexBounds) (sp : TensorSpec) (acc : list Affine) :
  spec_access E bounds sp = OK acc -> Forall wf_affine acc.
Proof. apply spec_access_all; intros poly a; apply Integerize_keeps_wf. Qed.

End IntegerizeInvariant.

(** ** CompileContraction: the arity *)

Lemma arity_test (n : nat) :
  negb (Nat.eqb n 2) && negb (Nat.eqb n 3) && negb (Nat.eqb n 4) = false <-> (2 <= n <= 4)%nat.
Proof.
  destruct n as [|[|[|[|[|n]]]]]; simpl; split; intros H; try reflexivity; try discriminate; lia.
Qed.

Lemma CompileContraction_bad_arity (E : Collaborators) (cion : Contraction)
    (shapes : list TensorShape) :
  ~ (2 <= List.length (specs cion) <= 4)%nat ->
  CompileContraction E cion shapes = Err UnsupportedArity.
Proof.
  unfold CompileContraction; intros H; rewrite <- arity_test in H.
  destruct (negb _ && negb _ && negb _); [reflexivity | congruence].
Qed.

(** ** NeedsInitialize: the outputs that need no initialization *)

Lemma count_In (k : string) (l : list string) : count k l = true <-> In k l.
Proof.
  unfold count; rewrite existsb_exists; split.
  - intros (x & Hin & Hx); apply String.eqb_eq in Hx; subst; assumption.
  - intros Hin; exists k; split; [assumption | apply String.eqb_refl].
Qed.

Lemma count_inserted (k : string) (l : list string) :
  forall s,
    count k (fold_left (fun s x => set_insert x s) l s) = count k s || count k l.
Proof.
  induction l as [|x l IH]; intros s; simpl; [rewrite orb_false_r; reflexivity|].
  rewrite IH, count_set_insert.
  destruct (String.eqb k x), (count k s); reflexivity.
Qed.

Lemma simple_dim_nil (block : Block) (d : TensorDimension) :
  simple_dim block [] d <-> size d = 1.
Proof.
  unfold simple_dim; split.
  - intros [[_ H]|(idx & ix & H & _)]; [assumption | discriminate].
  - auto.
Qed.

Lemma simple_dim_index (block : Block) (idx : string) (mult : Z) (rest : Affine)
    (d : TensorDimension) :
  simple_dim block ((idx, mult) :: rest) d <->
  rest = [] /\ mult = 1 /\ idx <> ""
  /\ exists ix, idx_by_name block idx = Some ix /\ range ix = size d.
Proof.
  unfold simple_dim; split.
  - intros [[H _]|(idx' & ix & H & Hne & Hix & Hr)]; [discriminate|].
    inversion H; subst; eauto 6.
  - intros (-> & -> & Hne & ix & Hix & Hr); right; eauto 6.
Qed.

Lemma skipn_nth_error (A : Type) (l : list A) :
  forall i a, nth_error l i = Some a -> skipn i l = a :: skipn (S i) l.
Proof.
  induction l as [|x l IH]; intros [|i] a H; simpl in *; try discriminate.
  - inversion H; reflexivity.
  - apply IH; assumption.
Qed.

Lemma skipn_nth_none (A : Type) (l : list A) (i : nat) :
  nth_error l i = None -> skipn i l = [].
Proof. intros H; apply skipn_all2, nth_error_None; assumption. Qed.

(** The loop over the output dimensions falls through exactly on a simple
    access, and then with the index names it met added to [seen]. *)
Lemma NeedsInitialize_dims_pass (block : Block) (ds : list TensorDimension) :
  forall i seen out,
    NeedsInitialize_dims block ds i seen = OK (Some out) <->
    (let acc := firstn (List.length ds) (skipn i (front_access block)) in
     Forall2 (simple_dim block) acc ds
     /\ NoDup (access_idxs acc)
     /\ (forall k, In k (access_idxs acc) -> count k seen = false)
     /\ out = fold_left (fun s x => set_insert x s) (access_idxs acc) seen).
Proof.
  induction ds as [|d rest IH]; intros i seen out; cbn zeta.
  - simpl; split.
    + intros H; inversion H; subst; repeat split; try constructor; intros k [].
    + intros (_ & _ & _ & ->); reflexivity.
  - cbn [NeedsInitialize_dims List.length]; unfold front_access.
    destruct (refs block) as [|front others] eqn:Hrefs.
    { rewrite skipn_nil; simpl; split; [discriminate | intros (H & _); inversion H]. }
    destruct (nth_error (access front) i) as [affine|] eqn:Hnth.
    2:{ rewrite (skipn_nth_none _ _ Hnth); simpl.
        split; [discriminate | intros (H & _); inversion H]. }
    rewrite (skipn_nth_error _ _ Hnth); cbn [firstn].
    specialize (IH (S i)); unfold front_access in IH; rewrite Hrefs in IH; cbn zeta in IH.
    set (acc := firstn (List.length rest) (skipn (S i) (access front))) in *.
    unfold access_idxs in *; cbn [flat_map].
    destruct affine as [|[idx mult] more].
    + (* the zero access *)
      cbn [List.length Nat.eqb andb app keys map].
      destruct (Z.eqb_spec (size d) 1) as [Hsz|Hsz].
      * rewrite IH; split.
        -- intros (H1 & H2 & H3 & H4); repeat split; auto.
           constructor; [apply simple_dim_nil; assumption | assumption].
        -- intros (H1 & H2 & H3 & H4); inversion H1; subst; repeat split; auto.
      * simpl; split; [discriminate|].
        intros (H1 & _); inversion H1 as [|? ? ? ? Hd]; subst.
        apply simple_dim_nil in Hd; contradiction.
    + cbn [List.length Nat.eqb andb].
      destruct (negb (constant ((idx, mult) :: more) =? 0) || negb _) eqn:Hsingle.
      { split; [discriminate|].
        intros (H1 & _); inversion H1 as [|? ? ? ? Hd]; subst.
        apply simple_dim_index in Hd; destruct Hd as (-> & -> & Hne & _).
        unfold constant in Hsingle; simpl in Hsingle.
        destruct idx; [congruence | discriminate]. }
      apply orb_false_iff in Hsingle; destruct Hsingle as [Hconst Hlen].
      apply negb_false_iff in Hconst, Hlen; apply Z.eqb_eq in Hconst.
      destruct more as [|? ?]; [clear Hlen | discriminate].
      cbn [keys map fst app].
      destruct (Z.eqb_spec mult 1) as [->|Hmult]; cbn [negb].
      2:{ split; [discriminate|].
          intros (H1 & _); inversion H1 as [|? ? ? ? Hd]; subst.
          apply simple_dim_index in Hd; destruct Hd as (_ & Hm & _); contradiction. }
      assert (Hne : idx <> "").
      { intros ->; unfold constant in Hconst; simpl in Hconst; discriminate. }
      destruct (count idx seen) eqn:Hseen.
      { split; [discriminate|].
        intros (_ & _ & H3 & _); rewrite H3 in Hseen by (left; reflexivity); discriminate. }
      destruct (idx_by_name block idx) as [ix|] eqn:Hix.
      2:{ split; [discriminate|].
          intros (H1 & _); inversion H1 as [|? ? ? ? Hd]; subst.
          apply simple_dim_index in Hd; destruct Hd as (_ & _ & _ & ix & Hix' & _).
          congruence. }
      destruct (Z.eqb_spec (range ix) (size d)) as [Hr|Hr]; cbn [negb].
      2:{ split; [discriminate|].
          intros (H1 & _); inversion H1 as [|? ? ? ? Hd]; subst.
          apply simple_dim_index in Hd; destruct Hd as (_ & _ & _ & ix' & Hix' & Hr').
          congruence. }
      rewrite IH; split.
      * intros (H1 & H2 & H3 & H4); split; [|split; [|split]].
        -- constructor; [|assumption].
           apply simple_dim_index; eauto 6.
        -- constructor; [|assumption].
           intros Hin; specialize (H3 _ Hin).
           rewrite count_set_insert, String.eqb_refl in H3; discriminate.
        -- intros k [<-|Hin]; [assumption|].
           specialize (H3 _ Hin); rewrite count_set_insert in H3.
           apply orb_false_iff in H3; tauto.
        -- exact H4.
      * intros (H1 & H2 & H3 & H4); inversion H1; inversion H2; subst.
        repeat split; auto.
        intros k Hin; rewrite count_set_insert; apply orb_false_iff; split.
        -- apply String.eqb_neq; intros ->; contradiction.
        -- apply H3; right; assumption.
Qed.

(** X3.  [NeedsInitialize] answers false, so that no zero or copy
    statement is emitted, exactly for a simple output: the first
    refinement of the block has an access for every output dimension,
    each of which is either the constant 0 on a dimension of size 1 or a
    single index with multiplier 1 whose declared range is the size of the
    dimension; no index serves two dimensions; and every constraint of
    the block uses an index that is none of these.  In every other case
    the answer is true or the behaviour is undefined. *)
Theorem NeedsInitialize_false_iff (block : Block) (out_shape : TensorShape) :
  NeedsInitialize block out_shape = OK false <-> simple_output block out_shape.
Proof.
  unfold NeedsInitialize, simple_output; cbn zeta.
  set (acc := firstn (List.length (dims out_shape)) (front_access block)).
  assert (Hcons : forall out,
             (forall k, count k out = true <-> In k (access_idxs acc)) ->
             existsb (fun con => negb (any_inputs out con)) (constraints block) = false <->
             Forall (fun con => exists k, In k (keys con) /\ k <> "" /\ ~ In k (access_idxs acc))
               (constraints block)).
  { intros out Hout; rewrite Forall_forall; split.
    - intros H con Hin.
      destruct (any_inputs out con) eqn:Hany.
      + unfold any_inputs in Hany; apply existsb_exists in Hany.
        destruct Hany as ([k v] & Hk & Hb); simpl in Hb.
        apply andb_true_iff in Hb; destruct Hb as [Hne Hc].
        apply negb_true_iff in Hne, Hc; apply String.eqb_neq in Hne.
        exists k; split; [apply in_map_iff; exists (k, v); auto|]; split; [assumption|].
        rewrite <- Hout; congruence.
      + assert (Hex : existsb (fun con => negb (any_inputs out con)) (constraints block) = true)
          by (apply existsb_exists; exists con; rewrite Hany; auto).
        congruence.
    - intros H; destruct (existsb _ (constraints block)) eqn:Hex; [|reflexivity].
      apply existsb_exists in Hex; destruct Hex as (con & Hin & Hany).
      apply negb_true_iff in Hany; apply any_inputs_false in Hany.
      destruct (H con Hin) as (k & Hk & Hne & Hnot).
      exfalso; apply Hnot, Hout, Hany; assumption. }
  pose proof (NeedsInitialize_dims_pass block (dims out_shape) 0 []) as Hdims.
  cbn zeta in Hdims; rewrite skipn_O in Hdims; fold acc in Hdims.
  assert (Hout : forall k,
             count k (fold_left (fun s x => set_insert x s) (access_idxs acc) []) = true
             <-> In k (access_idxs acc)).
  { intros k; rewrite count_inserted; simpl; apply count_In. }
  split.
  - intros H; inv_bind H as r Hr.
    destruct r as [out|]; [|discriminate].
    apply Hdims in Hr; destruct Hr as (H1 & H2 & _ & ->).
    split; [assumption|]; split; [assumption|].
    apply (Hcons _ Hout); inversion H; reflexivity.
  - intros (H1 & H2 & H3).
    assert (Hr : NeedsInitialize_dims block (dims out_shape) 0 []
                 = OK (Some (fold_left (fun s x => set_insert x s) (access_idxs acc) []))).
    { apply Hdims; repeat split; auto. }
    rewrite Hr; simpl; f_equal; apply (Hcons _ Hout); assumption.
Qed.

(** ** Elementwise operations: inputs of any rank *)

Section Alignment.

Variable kernel : Block.
Variable in_dims : list TensorDimension.
Variable lead drop : nat.
Variable diff : Z.

Hypothesis diff_eq : diff = Z.of_nat lead - Z.of_nat drop.

(** Output dimension [lead + j] reads input dimension [drop + j]. *)
Lemma broadcast_aligned (todo : list TensorDimension) :
  forall done acc,
    skipn drop in_dims = done ++ todo ->
    (forall i, (lead + List.length done <= i < lead + List.length done + List.length todo)%nat ->
       exists ix, nth_error (idxs kernel) i = Some ix /\ idx_name ix = loop_index i) ->
    foldM (broadcast_step kernel in_dims diff)
      (seq (lead + List.length done) (List.length todo)) acc
    = OK (acc ++ eltwise_access (lead + List.length done) todo).
Proof.
  unfold eltwise_access, numbered.
  induction todo as [|d rest IH]; intros done acc Hsplit Hidx; simpl.
  - rewrite app_nil_r; reflexivity.
  - unfold broadcast_step at 1.
    assert (Hge : (diff <=? Z.of_nat (lead + List.length done)) = true)
      by (apply Z.leb_le; lia).
    assert (Hpos : Z.to_nat (Z.of_nat (lead + List.length done) - diff)
                   = (drop + List.length done)%nat) by lia.
    assert (Hd : nth_error in_dims (drop + List.length done) = Some d).
    { rewrite <- nth_error_skipn, Hsplit, nth_error_app2, Nat.sub_diag by lia; reflexivity. }
    rewrite Hge, Hpos, Hd.
    assert (Hnext : forall acc',
               foldM (broadcast_step kernel in_dims diff)
                 (seq (S (lead + List.length done)) (List.length rest)) acc'
               = OK (acc' ++ map (fun p : nat * TensorDimension =>
                                    if 1 <? size (snd p) then [(loop_index (fst p), 1)] else [])
                               (combine (seq (S (lead + List.length done)) (List.length rest))
                                  rest))).
    { intros acc'.
      specialize (IH (done ++ [d]) acc').
      rewrite length_app in IH; simpl in IH.
      replace (lead + (List.length done + 1))%nat with (S (lead + List.length done)) in IH by lia.
      apply IH; [rewrite Hsplit, <- app_assoc; reflexivity|].
      intros i Hi; apply Hidx; simpl; lia. }
    destruct (1 <? size d).
    + destruct (Hidx (lead + List.length done)%nat) as (ix & Hix & Hname); [simpl; lia|].
      rewrite Hix; simpl; rewrite Hnext, Hname, <- app_assoc; reflexivity.
    + simpl; rewrite Hnext, <- app_assoc; reflexivity.
Qed.

Lemma broadcast_skipped (l : list nat) (acc : list Affine) :
  Forall (fun i => (i < lead)%nat) l -> (drop = 0)%nat ->
  foldM (broadcast_step kernel in_dims diff) l acc = OK acc.
Proof.
  intros H Hdrop; induction l as [|i l IH]; simpl; [reflexivity|].
  inversion_clear H as [|? ? Hi Hl].
  unfold broadcast_step at 1.
  assert (Hlt : (diff <=? Z.of_nat i) = false) by (apply Z.leb_gt; lia).
  rewrite Hlt; simpl; auto.
Qed.

End Alignment.

Lemma broadcast_access_aligned (kernel : Block) (out_shape in_shape : TensorShape) :
  idxs kernel = eltwise_idxs 0 (dims out_shape) ->
  broadcast_access kernel out_shape in_shape
  = OK (aligned_access (List.length (dims out_shape)) (dims in_shape)).
Proof.
  intros Hk; unfold broadcast_access, aligned_access.
  set (out_rank := List.length (dims out_shape)).
  set (in_dims := dims in_shape).
  set (lead := (out_rank - List.length in_dims)%nat).
  set (drop := (List.length in_dims - out_rank)%nat).
  assert (Hlen : out_rank = (lead + List.length (skipn drop in_dims))%nat)
    by (rewrite length_skipn; lia).
  assert (Hdiff : Z.of_nat out_rank - Z.of_nat (List.length in_dims)
                  = Z.of_nat lead - Z.of_nat drop) by lia.
  unfold out_rank at 2; fold out_rank; rewrite Hdiff.
  replace (seq 0 out_rank) with (seq 0 lead ++ seq (lead + 0) (List.length (skipn drop in_dims)))
    by (rewrite Nat.add_0_r, <- seq_app, <- Hlen; reflexivity).
  rewrite foldM_app.
  assert (Hskip : foldM (broadcast_step kernel in_dims (Z.of_nat lead - Z.of_nat drop))
                    (seq 0 lead) [] = OK []).
  { destruct (Nat.eq_dec lead 0) as [->|Hlead]; [reflexivity|].
    apply (@broadcast_skipped kernel in_dims lead drop _ eq_refl); [|lia].
    apply Forall_forall; intros i Hi; apply in_seq in Hi; lia. }
  rewrite Hskip; simpl bind.
  pose proof (@broadcast_aligned kernel in_dims lead drop _ eq_refl (skipn drop in_dims) [] []
                eq_refl) as H.
  simpl in H; rewrite Nat.add_0_r in *; apply H.
  intros i Hi; apply (eltwise_kernel_idxs kernel (dims out_shape) Hk); fold out_rank; lia.
Qed.

Lemma usable_input_dec (vars : Bindings) (input : string) :
  {usable_input vars input} + {~ usable_input vars input}.
Proof.
  unfold usable_input; destruct (find input vars) as [b|].
  - destruct (btag b) eqn:Hb;
      try (left; exists b; split; [reflexivity | congruence]).
    right; intros (b' & Hb' & Hne); inversion Hb'; subst; contradiction.
  - right; intros (b & Hb & _); discriminate.
Qed.

(** A list satisfies [P] throughout, or has a first element that does not. *)
Lemma Forall_or_first (A : Type) (P : A -> Prop) (dec : forall a, {P a} + {~ P a})
    (l : list A) :
  Forall P l \/ exists pre x post, l = pre ++ x :: post /\ Forall P pre /\ ~ P x.
Proof.
  induction l as [|a l IH]; [left; constructor|].
  destruct (dec a) as [Ha|Ha].
  - destruct IH as [IH|(pre & x & post & -> & Hpre & Hx)].
    + left; constructor; assumption.
    + right; exists (a :: pre), x, post; repeat split; auto.
  - right; exists [], a, l; repeat split; auto.
Qed.

Lemma In_set_insert (x k : string) (s : list string) :
  In x (set_insert k s) <-> x = k \/ In x s.
Proof.
  rewrite <- !count_In, count_set_insert, orb_true_iff, String.eqb_eq; reflexivity.
Qed.

Lemma block_ext (a b : Block) :
  name a = name b -> comments a = comments b -> tags a = tags b -> idxs a = idxs b ->
  constraints a = constraints b -> refs a = refs b -> stmts a = stmts b -> a = b.
Proof. destruct a, b; simpl; intros; subst; reflexivity. Qed.

Section ElementwiseKernels.

Variable E : Collaborators.
Variable g : StripeGenerator.

(** One round of the loop over the inputs, with the broadcast resolved. *)
Lemma eltwise_input_exact (out_shape : TensorShape) (k : Block) (input : string) :
  idxs k = eltwise_idxs 0 (dims out_shape) ->
  eltwise_input g out_shape k input
  = match find input (vars_ g) with
    | None => Err OutOfRange
    | Some b =>
        match btag b with
        | TENSOR =>
            OK (push_stmt (push_ref k (eltwise_in_ref g out_shape input b))
                  (Load input (ScalarName input)))
        | ICONST => OK (push_stmt k (Constant (ScalarName input) (IntLit (iconst b))))
        | FCONST => OK (push_stmt k (Constant (ScalarName input) (FloatLit (fconst b))))
        | TUPLE => Err NotImplemented
        end
    end.
Proof.
  intros Hk; unfold eltwise_input.
  destruct (find input (vars_ g)) as [b|] eqn:Hb; [|reflexivity].
  destruct (btag b); try reflexivity.
  rewrite (broadcast_access_aligned _ _ _ Hk); simpl.
  unfold ScalarShape; rewrite Hb; reflexivity.
Qed.

Lemma eltwise_inputs_ok (out_shape : TensorShape) (inputs : list string) :
  Forall (usable_input (vars_ g)) inputs ->
  forall k,
    idxs k = eltwise_idxs 0 (dims out_shape) ->
    foldM (eltwise_input g out_shape) inputs k
    = OK (set_stmts (set_refs k (refs k ++ eltwise_in_refs g out_shape inputs))
            (stmts k ++ map (input_stmt (vars_ g)) inputs)).
Proof.
  unfold eltwise_in_refs, input_stmt, is_tensor_binding.
  induction inputs as [|x rest IH]; intros Hall k Hk; cbn [foldM flat_map map].
  - unfold set_stmts, set_refs; simpl; rewrite !app_nil_r, block_eta; reflexivity.
  - inversion_clear Hall as [|? ? (b & Hb & Hne) Hrest].
    rewrite (@eltwise_input_exact out_shape k x Hk), Hb.
    destruct (btag b); try contradiction; cbn [bind]; rewrite (IH Hrest) by exact Hk;
      f_equal; unfold push_stmt, push_ref, set_stmts, set_refs; simpl;
      rewrite <- ?app_assoc; reflexivity.
Qed.

Lemma eltwise_inputs_fail (out_shape : TensorShape) (pre post : list string) (x : string) :
  Forall (usable_input (vars_ g)) pre ->
  forall k,
    idxs k = eltwise_idxs 0 (dims out_shape) ->
    foldM (eltwise_input g out_shape) (pre ++ x :: post) k
    = match find x (vars_ g) with
      | None => Err OutOfRange
      | Some b =>
          match btag b with
          | TUPLE => Err NotImplemented
          | _ => foldM (eltwise_input g out_shape) (pre ++ x :: post) k
          end
      end.
Proof.
  intros Hpre k Hk.
  destruct (find x (vars_ g)) as [b|] eqn:Hb; [destruct (btag b) eqn:Ht; try reflexivity|];
    rewrite foldM_app, (eltwise_inputs_ok out_shape Hpre _ Hk); cbn [bind foldM];
    rewrite eltwise_input_exact by exact Hk; rewrite Hb, ?Ht; reflexivity.
Qed.

(** The kernel of an elementwise operation that goes through. *)
Lemma ProcessElementwise_kernel (main : Block) (op : Op) (b : Binding) :
  find (output op) (vars_ g) = Some b ->
  Forall (usable_input (vars_ g)) (inputs op) ->
  ProcessElementwise E g main op
  = OK (set_stmts main (stmts main ++ [BlockStmt (eltwise_kernel E g main op (shape b))])).
Proof.
  intros Hout Hall; unfold ProcessElementwise, eltwise_kernel, GetShape, ScalarShape.
  destruct (AddKernel_fresh E main op) as (Hi & Hc & Hr & Hs & _); cbv zeta in *.
  pose proof (AddKernel_parent E main op) as Hp.
  destruct (AddKernel E main op) as [main1 ka]; simpl fst in *; simpl snd in *; subst main1.
  rewrite Hout; cbn [bind].
  rewrite eltwise_out_spec; cbn [fst snd].
  rewrite (eltwise_inputs_ok (shape b) Hall); [|simpl; rewrite Hi; reflexivity].
  cbn [bind]; rewrite commit_kernel_push.
  match goal with
  | |- OK (set_stmts _ (_ ++ [BlockStmt ?a])) = OK (set_stmts _ (_ ++ [BlockStmt ?b])) =>
      replace a with b; [reflexivity|]
  end.
  apply block_ext; simpl; rewrite ?Hi, ?Hc, ?Hr, ?Hs; try reflexivity.
  rewrite <- app_assoc; reflexivity.
Qed.

Lemma ProcessElementwise_fails (main : Block) (op : Op) :
  (find (output op) (vars_ g) = None ->
   ProcessElementwise E g main op = Err (UnknownShape (output op)))
  /\ (forall b pre x post,
        find (output op) (vars_ g) = Some b ->
        inputs op = pre ++ x :: post ->
        Forall (usable_input (vars_ g)) pre ->
        (find x (vars_ g) = None -> ProcessElementwise E g main op = Err OutOfRange)
        /\ (forall bx, find x (vars_ g) = Some bx -> btag bx = TUPLE ->
              ProcessElementwise E g main op = Err NotImplemented)).
Proof.
  unfold ProcessElementwise, GetShape; split.
  - intros ->; reflexivity.
  - intros b pre x post Hout Hin Hpre.
    destruct (AddKernel_fresh E main op) as (Hi & _); cbv zeta in *.
    destruct (AddKernel E main op) as [main1 ka]; simpl fst in *; simpl snd in *.
    rewrite Hout, Hin; cbn [bind]; rewrite eltwise_out_spec; cbn [fst snd].
    rewrite (eltwise_inputs_fail (shape b) post x Hpre); [|simpl; rewrite Hi; reflexivity].
    split.
    + intros ->; reflexivity.
    + intros bx -> ->; reflexivity.
Qed.

(** An elementwise operation that goes through had a bound output and
    usable inputs, and left the kernel [eltwise_kernel]. *)
Lemma ProcessElementwise_closed (main : Block) (op : Op) (main' : Block) :
  ProcessElementwise E g main op = OK main' ->
  exists b,
    find (output op) (vars_ g) = Some b
    /\ Forall (usable_input (vars_ g)) (inputs op)
    /\ main' = set_stmts main (stmts main ++ [BlockStmt (eltwise_kernel E g main op (shape b))]).
Proof.
  intros H; destruct (ProcessElementwise_fails main op) as [Hnone Hbad].
  destruct (find (output op) (vars_ g)) as [b|] eqn:Hout;
    [|rewrite Hnone in H by reflexivity; discriminate].
  exists b; split; [reflexivity|].
  destruct (@Forall_or_first _ _ (usable_input_dec (vars_ g)) (inputs op))
    as [Hall|(pre & x & post & Hin & Hpre & Hx)].
  - split; [assumption|].
    rewrite (ProcessElementwise_kernel main op Hout Hall) in H; inversion H; reflexivity.
  - exfalso; destruct (Hbad b pre x post eq_refl Hin Hpre) as [Hunbound Htuple].
    destruct (find x (vars_ g)) as [bx|] eqn:Hbx.
    + destruct (btag bx) eqn:Ht;
        try (apply Hx; exists bx; split; [assumption | congruence]).
      rewrite (Htuple bx eq_refl Ht) in H; discriminate.
    + rewrite Hunbound in H by reflexivity; discriminate.
Qed.

(** X4.  [ProcessElementwise] goes through exactly when the output is
    bound and every input is bound to a tensor, an integer or a float; it
    then never reads outside a vector, whatever the ranks of the inputs.
    Otherwise the exception is decided in this order: an unbound output
    gives the unknown-shape exception naming it; else the first input
    that is not usable gives the out-of-range exception of [vars_.at] if
    it is unbound, and the not-implemented exception if it is bound to a
    tuple. *)
Theorem ProcessElementwise_outcome (main : Block) (op : Op) :
  ((exists main', ProcessElementwise E g main op = OK main') <->
   (exists b, find (output op) (vars_ g) = Some b)
   /\ Forall (usable_input (vars_ g)) (inputs op))
  /\ (find (output op) (vars_ g) = None ->
      ProcessElementwise E g main op = Err (UnknownShape (output op)))
  /\ (forall b pre x post,
        find (output op) (vars_ g) = Some b ->
        inputs op = pre ++ x :: post ->
        Forall (usable_input (vars_ g)) pre ->
        (find x (vars_ g) = None -> ProcessElementwise E g main op = Err OutOfRange)
        /\ (forall bx, find x (vars_ g) = Some bx -> btag bx = TUPLE ->
              ProcessElementwise E g main op = Err NotImplemented)).
Proof.
  split; [|exact (ProcessElementwise_fails main op)].
  split.
  - intros [main' H]; apply ProcessElementwise_closed in H.
    destruct H as (b & Hout & Hall & _); eauto.
  - intros [[b Hout] Hall]; eexists; apply (ProcessElementwise_kernel main op Hout Hall).
Qed.

Lemma tensor_in_refs (out_shape : TensorShape) (inputs : list string) :
  Forall (usable_input (vars_ g)) inputs ->
  Forall2
    (fun input r =>
       exists b, find input (vars_ g) = Some b /\ btag b = TENSOR
                 /\ r = eltwise_in_ref g out_shape input b)
    (tensor_inputs (vars_ g) inputs) (eltwise_in_refs g out_shape inputs).
Proof.
  unfold tensor_inputs, eltwise_in_refs, is_tensor, is_tensor_binding.
  induction inputs as [|x rest IH]; intros Hall; simpl; [constructor|].
  inversion_clear Hall as [|? ? (b & Hb & Hne) Hrest].
  rewrite Hb; destruct (btag b) eqn:Ht; simpl; auto.
  constructor; [exists b; auto | auto].
Qed.

(** X5.  The statements of an elementwise kernel are, in this order: one
    statement per input of the operation, in the order of the inputs,
    which is a load of the tensor into the scalar [$name] for a tensor and
    a constant holding the bound value for an integer or a float; the
    intrinsic of the function over the scalars of all inputs; the store of
    [$output].  The kernel is the one statement added to [main]; it is
    tagged kernel, eltwise and eltwise_<fn> and has no constraint. *)
Theorem eltwise_statements (main : Block) (op : Op) (main' : Block) :
  ProcessElementwise E g main op = OK main' ->
  exists kernel,
    stmts main' = stmts main ++ [BlockStmt kernel]
    /\ Forall (usable_input (vars_ g)) (inputs op)
    /\ stmts kernel
       = map (input_stmt (vars_ g)) (inputs op)
         ++ [Intrinsic (fn (f op)) (map ScalarName (inputs op)) [ScalarName (output op)];
             Store (ScalarName (output op)) (output op)]
    /\ (forall t, In t (tags kernel) <->
                  t = "kernel" \/ t = "eltwise" \/ t = String.append "eltwise_" (fn (f op)))
    /\ constraints kernel = [].
Proof.
  intros H; apply ProcessElementwise_closed in H; destruct H as (b & Hout & Hall & ->).
  eexists; split; [reflexivity|]; split; [assumption|]; split; [reflexivity|].
  split; [|reflexivity].
  destruct (AddKernel_fresh E main op) as (_ & _ & _ & _ & Ht); cbv zeta in Ht.
  intros t; unfold eltwise_kernel; cbn [tags]; rewrite Ht.
  rewrite !In_set_insert; simpl; intuition congruence.
Qed.

(** X6.  The In refinements of an elementwise kernel stand before the
    Out refinement, one per tensor input in the order of the inputs, with
    the scalar shape of the input (its strides, every size 1) and the
    constness of the input.  The input dimensions are aligned with the
    last output dimensions: with [lead = out_rank - in_rank] and
    [drop = in_rank - out_rank] (truncated at 0), entry [j] of the access
    is for input dimension [drop + j] and is the loop index of output
    dimension [lead + j] if that input dimension has a size above 1, the
    constant 0 otherwise.  The access has [min in_rank out_rank]
    entries: one per dimension of the refinement's shape exactly when the
    input has at most the rank of the output.  For an input of higher
    rank the leading input dimensions have no entry. *)
Theorem eltwise_input_alignment (main : Block) (op : Op) (main' : Block) :
  ProcessElementwise E g main op = OK main' ->
  exists out_b kernel in_refs out_ref,
    find (output op) (vars_ g) = Some out_b
    /\ stmts main' = stmts main ++ [BlockStmt kernel]
    /\ refs kernel = in_refs ++ [out_ref]
    /\ dir out_ref = RefOut
    /\ List.length (access out_ref) = List.length (dims (ref_shape out_ref))
    /\ Forall2
         (fun input r =>
            exists b,
              let in_rank := List.length (dims (shape b)) in
              let out_rank := List.length (dims (shape out_b)) in
              find input (vars_ g) = Some b /\ btag b = TENSOR
              /\ dir r = RefIn /\ from r = input /\ into r = input
              /\ ref_shape r = scalar_of (shape b)
              /\ is_const r = IsConst g input
              /\ (forall j d,
                    nth_error (dims (shape b)) (in_rank - out_rank + j) = Some d ->
                    nth_error (access r) j
                    = Some (if 1 <? size d
                            then [(loop_index (out_rank - in_rank + j), 1)] else []))
              /\ List.length (access r) = Nat.min in_rank out_rank
              /\ (List.length (access r) = List.length (dims (ref_shape r))
                  <-> (in_rank <= out_rank)%nat))
         (tensor_inputs (vars_ g) (inputs op)) in_refs.
Proof.
  intros H; apply ProcessElementwise_closed in H; destruct H as (out_b & Hout & Hall & ->).
  eexists out_b, _, _, _; split; [assumption|]; split; [reflexivity|].
  split; [reflexivity|]; split; [reflexivity|]; split.
  - simpl; rewrite eltwise_access_length, length_map; reflexivity.
  - eapply Forall2_impl; [|exact (tensor_in_refs (shape out_b) Hall)].
    intros input r (b & Hb & Ht & ->); exists b; cbn zeta; simpl.
    assert (Hlen : List.length
                     (aligned_access (List.length (dims (shape out_b))) (dims (shape b)))
                   = Nat.min (List.length (dims (shape b))) (List.length (dims (shape out_b)))).
    { unfold aligned_access; rewrite eltwise_access_length, length_skipn; lia. }
    repeat (split; [reflexivity || assumption|]).
    split; [|split; [exact Hlen|]].
    + intros j d Hd; unfold aligned_access.
      apply eltwise_access_nth; rewrite nth_error_skipn; exact Hd.
    + rewrite Hlen, length_map; lia.
Qed.

End ElementwiseKernels.

(** ** The name of a kernel *)

Lemma find_snoc (A : Type) (p : A -> bool) (l : list A) (a : A) :
  List.find p (l ++ [a])
  = match List.find p l with
    | Some x => Some x
    | None => if p a then Some a else None
    end.
Proof.
  induction l as [|x l IH]; simpl; [reflexivity|].
  destruct (p x); [reflexivity | exact IH].
Qed.

Lemma pid_loop (attrs : list Attribute) :
  forall b : Block,
    let b' :=
      fold_left (fun b attr => if is_pid attr then set_name b (hd "" (attr_params attr)) else b)
        attrs b in
    name b' = match List.find is_pid (rev attrs) with
              | Some attr => hd "" (attr_params attr)
              | None => name b
              end
    /\ comments b' = comments b.
Proof.
  induction attrs as [|a rest IH]; intros b; simpl; [auto|].
  destruct (IH (if is_pid a then set_name b (hd "" (attr_params a)) else b)) as [Hn Hc].
  cbv zeta in *; rewrite Hn, Hc, find_snoc.
  destruct (List.find is_pid (rev rest)); destruct (is_pid a); auto.
Qed.

Lemma AddKernel_name (E : Collaborators) (parent : Block) (op : Op) :
  name (snd (AddKernel E parent op)) = kernel_name (List.length (stmts parent)) op
  /\ comments (snd (AddKernel E parent op)) = to_string_Op E op.
Proof.
  unfold AddKernel, kernel_name; cbn [snd].
  match goal with |- context [fold_left _ _ ?b0] => destruct (pid_loop (attributes op) b0) as [Hn Hc] end.
  cbv zeta in *; unfold is_pid in *; rewrite Hn, Hc; split; reflexivity.
Qed.

(** ** The kernel of a contraction, in full *)

Section ContractionKernels.

Variable N : Names.
Variable E : Collaborators.
Variable g : StripeGenerator.

Lemma contraction_spec_exact (cion : Contraction) (bounds : IndexBounds) (i : nat)
    (k : Block) (si : list string) (sp : TensorSpec) (k' : Block) (si' : list string) :
  contraction_spec N E g cion bounds (S i) k si sp = OK (k', si') ->
  si' = si ++ scalar_names [sp]
  /\ exists rs,
       k' = set_stmts (set_refs k (refs k ++ rs)) (stmts k ++ [input_stmt (vars_ g) (id sp)])
       /\ Forall2 (contraction_in_ref E g bounds) (loaded_specs (vars_ g) [sp]) rs.
Proof.
  unfold contraction_spec, loaded_specs, is_inlined, input_stmt; intros H.
  inv_bind H as shape Hshape; inv_bind H as acc Hacc; simpl in H.
  assert (Hconst : forall s, push_stmt k s = set_stmts (set_refs k (refs k ++ [])) (stmts k ++ [s])).
  { intros s; unfold push_stmt, set_stmts, set_refs; simpl; rewrite app_nil_r; reflexivity. }
  assert (Hload : Forall2 (contraction_in_ref E g bounds) [sp]
                    [mkRefinement RefIn (id sp) (id sp) acc shape "" NoLocation
                       (IsConst g (id sp)) 0 None]).
  { constructor; [|constructor]; unfold contraction_in_ref; simpl; auto 10. }
  simpl; destruct (find (id sp) (vars_ g)) as [src|];
    [destruct (btag src)|]; inversion H; subst; (split; [reflexivity|]); simpl;
    try (exists []; split; [apply Hconst | constructor]);
    (eexists [_]; split; [reflexivity | exact Hload]).
Qed.

Lemma loaded_specs_app (vars : Bindings) (l1 l2 : list TensorSpec) :
  loaded_specs vars (l1 ++ l2) = loaded_specs vars l1 ++ loaded_specs vars l2.
Proof. apply filter_app. Qed.

Lemma contraction_specs_exact (cion : Contraction) (bounds : IndexBounds)
    (sps : list TensorSpec) :
  forall i k si k' si',
    contraction_specs N E g cion bounds (S i) sps k si = OK (k', si') ->
    si' = si ++ scalar_names sps
    /\ exists rs,
         k' = set_stmts (set_refs k (refs k ++ rs))
                (stmts k ++ map (input_stmt (vars_ g)) (map id sps))
         /\ Forall2 (contraction_in_ref E g bounds) (loaded_specs (vars_ g) sps) rs.
Proof.
  induction sps as [|sp rest IH]; intros i k si k' si' H; cbn [contraction_specs] in H.
  - inversion H; subst; split; [simpl; rewrite app_nil_r; reflexivity|].
    exists []; split; [|constructor].
    unfold set_stmts, set_refs; simpl; rewrite !app_nil_r; symmetry; apply block_eta.
  - inv_bind H as st Hst; destruct st as [k1 si1]; simpl in H.
    apply contraction_spec_exact in Hst; destruct Hst as (-> & rs1 & -> & Hr1).
    apply IH in H; destruct H as (-> & rs2 & -> & Hr2).
    split; [rewrite <- app_assoc; reflexivity|].
    exists (rs1 ++ rs2); split.
    + unfold set_stmts, set_refs; simpl; rewrite <- !app_assoc; reflexivity.
    + change (sp :: rest) with ([sp] ++ rest); rewrite loaded_specs_app.
      apply Forall2_app; assumption.
Qed.

Lemma contraction_kernel0_name (main : Block) (op : Op) (cion : Contraction) :
  name (contraction_kernel0 N E main op cion) = kernel_name (List.length (stmts main)) op
  /\ comments (contraction_kernel0 N E main op cion) = to_string_Op E op.
Proof. exact (AddKernel_name E main op). Qed.

Lemma contraction_kernel0_tag_list (main : Block) (op : Op) (cion : Contraction) (t : string) :
  In t (tags (contraction_kernel0 N E main op cion)) <->
  t = "kernel" \/ t = "contraction" \/ t = String.append "agg_op_" (GetAggOp N (agg_op cion)).
Proof.
  destruct (AddKernel_fresh E main op) as (_ & _ & _ & _ & Ht).
  unfold contraction_kernel0, set_tag; cbn [tags]; cbv zeta in Ht; rewrite Ht.
  rewrite !In_set_insert; simpl; intuition congruence.
Qed.

(** What a contraction that is not skipped leaves in [main], in full. *)
Lemma ProcessContraction_closed (main : Block) (op : Op) (main' : Block)
    (out_shape : TensorShape) :
  ProcessContraction N E g main op = OK main' ->
  GetShape g (output op) = OK out_shape ->
  byte_size E out_shape <> 0 ->
  exists shape0 shapes cion range_cons bounds simple_cons kernel init,
    MakeShapes g (c op) = OK (shape0 :: shapes)
    /\ CompileContraction E (c op) (shape0 :: shapes) = OK (cion, range_cons)
    /\ ComputeBounds E range_cons = OK (bounds, simple_cons)
    /\ NeedsInitialize kernel shape0 = OK init
    /\ main' = set_stmts main
                 (stmts main ++ (if init then [init_stmt N op] else []) ++ [BlockStmt kernel])
    /\ name kernel = kernel_name (List.length (stmts main)) op
    /\ comments kernel = to_string_Op E op
    /\ tags kernel
       = (if Nat.ltb 1 (List.length (scalar_names (tl (specs cion))))
             && negb (String.eqb (GetComboOp N (comb_op cion)) "")
          then set_insert (String.append "comb_op_" (GetComboOp N (comb_op cion)))
                 (tags (contraction_kernel0 N E main op cion))
          else tags (contraction_kernel0 N E main op cion))
    /\ idxs kernel = declared_idxs bounds
    /\ Forall2 (flipped E bounds) simple_cons (constraints kernel)
    /\ stmts kernel
       = map (input_stmt (vars_ g)) (map id (tl (specs cion)))
         ++ combination_stmts N cion op (scalar_names (tl (specs cion)))
         ++ [Store (ScalarName (output op)) (output op)]
    /\ match specs cion with
       | [] => refs kernel = []
       | out :: ins =>
           exists acc shape rs,
             spec_access E bounds out = OK acc
             /\ ScalarShape g (id out) = OK shape
             /\ refs kernel = output_ref N cion out acc shape :: rs
             /\ Forall2 (contraction_in_ref E g bounds) (loaded_specs (vars_ g) ins) rs
       end
    /\ Forall2 (constraint_of E bounds) simple_cons (constraints kernel).
Proof.
  intros H Hshape Hnz.
  apply ProcessContraction_inv in H; destruct H as (out_shape' & Hshape' & H).
  rewrite Hshape in Hshape'; inversion Hshape'; subst out_shape'; clear Hshape'.
  destruct H as [[Hz _]|[_ H]]; [contradiction|].
  destruct H as (shape0 & shapes & cion & range_cons & bounds & simple_cons & k1
                 & si & k3 & init & Hms & Hcc & Hcb & Hspecs & Hcons & Hinit & ->).
  destruct (contraction_kernel0_fresh N E main op cion) as (Hi0 & Hc0 & Hr0 & Hs0).
  destruct (contraction_kernel0_name main op cion) as (Hn0 & Hcm0).
  cbv zeta in *.
  remember (contraction_kernel0 N E main op cion) as k0 eqn:Hk0.
  apply contraction_constraints_flip in Hcons; destruct Hcons as (cons & -> & Hflip & Hof).
  rewrite contraction_idx_loop in *.
  (* the loop over the specs *)
  assert (Hk1 : si = scalar_names (tl (specs cion))
                /\ name k1 = name k0 /\ comments k1 = comments k0 /\ tags k1 = tags k0
                /\ idxs k1 = [] /\ constraints k1 = []
                /\ stmts k1 = map (input_stmt (vars_ g)) (map id (tl (specs cion)))
                /\ match specs cion with
                   | [] => refs k1 = []
                   | out :: ins =>
                       exists acc shape rs,
                         spec_access E bounds out = OK acc
                         /\ ScalarShape g (id out) = OK shape
                         /\ refs k1 = output_ref N cion out acc shape :: rs
                         /\ Forall2 (contraction_in_ref E g bounds)
                              (loaded_specs (vars_ g) ins) rs
                   end).
  { clear Hk0; destruct (specs cion) as [|out ins].
    - simpl in Hspecs; inversion Hspecs; subst; repeat split; auto.
    - cbn [contraction_specs] in Hspecs; inv_bind Hspecs as st Hst.
      destruct st as [k0' si0]; cbn [fst snd] in Hspecs.
      unfold contraction_spec in Hst; inv_bind Hst as shape Hsh; inv_bind Hst as acc Hacc.
      cbn [Nat.eqb] in Hst; inversion Hst; subst k0' si0; clear Hst.
      apply contraction_specs_exact in Hspecs; destruct Hspecs as (-> & rs & -> & Hrs).
      cbn [tl]; simpl; rewrite Hr0, Hs0.
      repeat (split; [reflexivity || assumption|]).
      exists acc, shape, rs; repeat split; auto. }
  destruct Hk1 as (-> & Hn1 & Hcm1 & Ht1 & Hi1 & Hc1 & Hs1 & Hr1).
  set (sn := scalar_names (tl (specs cion))) in *.
  set (k3 := set_constraints _ _) in *.
  assert (Hk3 : name k3 = name k1 /\ comments k3 = comments k1 /\ tags k3 = tags k1
                /\ idxs k3 = declared_idxs bounds /\ constraints k3 = cons
                /\ refs k3 = refs k1 /\ stmts k3 = stmts k1).
  { unfold k3; simpl; rewrite Hi1, Hc1; repeat split; reflexivity. }
  destruct Hk3 as (Hn3 & Hcm3 & Ht3 & Hi3 & Hc3 & Hr3 & Hs3).
  destruct (combination_built N cion op sn k3) as (Hn & Hcm & Hi & Hc & Hr & Hs & Ht).
  cbv zeta in *.
  set (kernel := push_stmt (combination N cion op sn k3) _) in *.
  clearbody kernel k3.
  exists shape0, shapes, cion, range_cons, bounds, simple_cons, kernel, init.
  repeat (split; [assumption|]).
  split; [rewrite <- Hinit; apply NeedsInitialize_ext; assumption|].
  split; [reflexivity|].
  rewrite <- Hk0.
  split; [congruence|]; split; [congruence|].
  rewrite Ht3, Ht1 in Ht.
  split; [exact Ht|].
  rewrite Hi, Hc, Hs, Hr, Hi3, Hc3, Hs3, Hr3, Hs1.
  repeat (split; [reflexivity || assumption|]).
  exact Hof.
Qed.

End ContractionKernels.

(** ** Contractions: inputs and constraints of the kernel *)

Lemma input_stmt_load_or_constant (vars : Bindings) (l : list string) :
  Forall is_load_or_constant (map (input_stmt vars) l).
Proof.
  apply Forall_forall; intros s Hin; apply in_map_iff in Hin; destruct Hin as (x & <- & _).
  unfold input_stmt; destruct (find x vars) as [b|]; [destruct (btag b)|]; exact I.
Qed.

Section ContractionInputs.

Variable N : Names.
Variable E : Collaborators.
Variable g : StripeGenerator.

(** X7.  In the kernel of a contraction that is not skipped, compiled to
    a contraction with output spec [out] and input specs [ins] and solved
    to [bounds]: the statements start with one statement per input spec,
    in order, which is a constant holding the bound value for a name bound
    to an integer or a float and a load into [$name] otherwise; after the
    Out refinement there is exactly one In refinement per input spec that
    is not such a constant, in order, whose access is the integerized
    polynomials of the spec (each keeping the invariant of the map), whose
    shape is the scalar shape of the tensor and whose constness is that of
    the tensor.  An inlined constant gets no refinement. *)
Theorem contraction_inputs (main : Block) (op : Op) (main' : Block)
    (out_shape : TensorShape) (shapes : list TensorShape) (cion : Contraction)
    (range_cons : list RangeConstraint) (bounds : IndexBounds)
    (simple_cons : list SimpleConstraint) (out : TensorSpec) (ins : list TensorSpec) :
  ProcessContraction N E g main op = OK main' ->
  GetShape g (output op) = OK out_shape ->
  byte_size E out_shape <> 0 ->
  MakeShapes g (c op) = OK shapes ->
  CompileContraction E (c op) shapes = OK (cion, range_cons) ->
  ComputeBounds E range_cons = OK (bounds, simple_cons) ->
  specs cion = out :: ins ->
  exists kernel pre out_ref in_refs rest,
    stmts main' = stmts main ++ pre ++ [BlockStmt kernel]
    /\ stmts kernel = map (input_stmt (vars_ g)) (map id ins) ++ rest
    /\ refs kernel = out_ref :: in_refs
    /\ Forall2 (contraction_in_ref E g bounds) (loaded_specs (vars_ g) ins) in_refs
    /\ Forall (fun r => Forall wf_affine (access r)) (refs kernel).
Proof.
  intros H Hshape Hnz Hms Hcc Hcb Hspecs.
  destruct (ProcessContraction_closed N E g main op H Hshape Hnz)
    as (shape0 & shapes' & cion' & range_cons' & bounds' & simple_cons' & kernel & init
        & Hms' & Hcc' & Hcb' & _ & -> & _ & _ & _ & _ & _ & Hstmts & Hrefs & _).
  rewrite Hms in Hms'; inversion Hms'; subst shapes; clear Hms'.
  rewrite Hcc in Hcc'; inversion Hcc'; subst cion' range_cons'; clear Hcc'.
  rewrite Hcb in Hcb'; inversion Hcb'; subst bounds' simple_cons'; clear Hcb'.
  rewrite Hspecs in Hrefs, Hstmts; destruct Hrefs as (acc & shape & rs & Hacc & _ & Hr & Hins).
  eexists kernel, _, _, rs, _; split; [reflexivity|]; split; [exact Hstmts|].
  split; [exact Hr|]; split; [exact Hins|].
  rewrite Hr; constructor; [exact (spec_access_wf _ _ _ Hacc)|].
  clear Hr; induction Hins as [|sp r sps rs' (_ & _ & _ & Hsp & _) _ IH]; constructor; auto.
  exact (spec_access_wf _ _ _ Hsp).
Qed.

(** X8.  The constraints of a contraction kernel are the simple
    constraints of the solved bounds, one for one and in order, each
    [poly <= rhs] stored as the expression [rhs - poly] to be read as
    [>= 0]: with [lhs] the integerized [poly], the constant is
    [rhs - constant lhs] and the coefficient of every index is that of
    [lhs] negated (both in [int64_t] arithmetic), and the expression keeps
    the invariant of the map. *)
Theorem contraction_constraints (main : Block) (op : Op) (main' : Block)
    (out_shape : TensorShape) (shapes : list TensorShape) (cion : Contraction)
    (range_cons : list RangeConstraint) (bounds : IndexBounds)
    (simple_cons : list SimpleConstraint) :
  ProcessContraction N E g main op = OK main' ->
  GetShape g (output op) = OK out_shape ->
  byte_size E out_shape <> 0 ->
  MakeShapes g (c op) = OK shapes ->
  CompileContraction E (c op) shapes = OK (cion, range_cons) ->
  ComputeBounds E range_cons = OK (bounds, simple_cons) ->
  exists kernel pre,
    stmts main' = stmts main ++ pre ++ [BlockStmt kernel]
    /\ Forall2
         (fun sc con =>
            exists lhs,
              Integerize E (poly sc) bounds = OK lhs
              /\ constant con = wrap64 (rhs sc - constant lhs)
              /\ (forall k, k <> "" -> coeff k con = wrap64 (- coeff k lhs))
              /\ wf_affine con)
         simple_cons (constraints kernel).
Proof.
  intros H Hshape Hnz Hms Hcc Hcb.
  destruct (ProcessContraction_closed N E g main op H Hshape Hnz)
    as (shape0 & shapes' & cion' & range_cons' & bounds' & simple_cons' & kernel & init
        & Hms' & Hcc' & Hcb' & _ & -> & _ & _ & _ & _ & Hflip & _).
  rewrite Hms in Hms'; inversion Hms'; subst shapes; clear Hms'.
  rewrite Hcc in Hcc'; inversion Hcc'; subst cion' range_cons'; clear Hcc'.
  rewrite Hcb in Hcb'; inversion Hcb'; subst bounds' simple_cons'; clear Hcb'.
  eexists kernel, _; split; [reflexivity | exact Hflip].
Qed.

(** X9.  The kernel of a contraction that is not skipped, compiled to
    [cion], carries exactly these tags: kernel, contraction, agg_op_<agg>
    with [agg] the intrinsic name of the aggregation (empty for an
    aggregation without one), and, only when there is more than one input
    spec and the combination has an intrinsic name, comb_op_<comb>. *)
Theorem contraction_tags (main : Block) (op : Op) (main' : Block)
    (out_shape : TensorShape) (shapes : list TensorShape) (cion : Contraction)
    (range_cons : list RangeConstraint) :
  ProcessContraction N E g main op = OK main' ->
  GetShape g (output op) = OK out_shape ->
  byte_size E out_shape <> 0 ->
  MakeShapes g (c op) = OK shapes ->
  CompileContraction E (c op) shapes = OK (cion, range_cons) ->
  exists kernel pre,
    stmts main' = stmts main ++ pre ++ [BlockStmt kernel]
    /\ forall t,
         In t (tags kernel) <->
         t = "kernel" \/ t = "contraction"
         \/ t = String.append "agg_op_" (GetAggOp N (agg_op cion))
         \/ (t = String.append "comb_op_" (GetComboOp N (comb_op cion))
             /\ (1 < List.length (tl (specs cion)))%nat
             /\ GetComboOp N (comb_op cion) <> "").
Proof.
  intros H Hshape Hnz Hms Hcc.
  destruct (ProcessContraction_closed N E g main op H Hshape Hnz)
    as (shape0 & shapes' & cion' & range_cons' & bounds & simple_cons & kernel & init
        & Hms' & Hcc' & _ & _ & -> & _ & _ & Ht & _).
  rewrite Hms in Hms'; inversion Hms'; subst shapes; clear Hms'.
  rewrite Hcc in Hcc'; inversion Hcc'; subst cion' range_cons'; clear Hcc'.
  eexists kernel, _; split; [reflexivity|].
  intros t; rewrite Ht; unfold scalar_names; rewrite length_map.
  destruct (Nat.ltb_spec 1 (List.length (tl (specs cion)))) as [Hlen|Hlen];
    [destruct (String.eqb_spec (GetComboOp N (comb_op cion)) "") as [Hc|Hc]|];
    cbn [andb negb]; rewrite ?In_set_insert, contraction_kernel0_tag_list;
    intuition (congruence || lia).
Qed.

End ContractionInputs.

(** ** What an operation adds to [main] *)

Lemma set_stmts_same (b : Block) : b = set_stmts b (stmts b ++ [] ++ map BlockStmt []).
Proof. unfold set_stmts; simpl; rewrite app_nil_r, block_eta; reflexivity. Qed.

Lemma scalar_of_sizes (s : TensorShape) : Forall (fun d => size d = 1) (dims (scalar_of s)).
Proof. unfold scalar_of; simpl; rewrite Forall_map; apply Forall_forall; reflexivity. Qed.

Lemma ScalarShape_scalar_of (g : StripeGenerator) (x : string) (s : TensorShape) :
  ScalarShape g x = OK s <-> exists b, find x (vars_ g) = Some b /\ s = scalar_of (shape b).
Proof.
  unfold ScalarShape, scalar_of; destruct (find x (vars_ g)) as [b|]; split.
  - intros H; inversion H; eauto.
  - intros (b' & Hb & ->); inversion Hb; reflexivity.
  - discriminate.
  - intros (b' & Hb & _); discriminate.
Qed.

Lemma ScalarShape_sizes (g : StripeGenerator) (x : string) (s : TensorShape) :
  ScalarShape g x = OK s -> Forall (fun d => size d = 1) (dims s).
Proof.
  intros H; apply ScalarShape_scalar_of in H; destruct H as (b & _ & ->).
  apply scalar_of_sizes.
Qed.

Section Operations.

Variable N : Names.
Variable E : Collaborators.
Variable g : StripeGenerator.

Lemma eltwise_kernel_made (main : Block) (op : Op) (out_shape : TensorShape) :
  let k := eltwise_kernel E g main op out_shape in
  made_for E (List.length (stmts main)) op k /\ kernel_body k /\ kernel_refs k
  /\ Forall (plain_ref g) (refs k).
Proof.
  destruct (AddKernel_name E main op) as [Hn Hc].
  destruct (AddKernel_fresh E main op) as (_ & _ & _ & _ & Ht); cbv zeta in *.
  assert (Hin : forall r, In r (eltwise_in_refs g out_shape (inputs op)) ->
                  exists x b, r = eltwise_in_ref g out_shape x b).
  { unfold eltwise_in_refs; intros r Hin.
    apply in_flat_map in Hin; destruct Hin as (x & _ & Hin).
    destruct (find x (vars_ g)) as [b|]; [|destruct Hin].
    destruct (is_tensor_binding b); [|destruct Hin].
    destruct Hin as [<-|[]]; eauto. }
  unfold made_for, kernel_body, kernel_refs, eltwise_kernel; cbn [name comments tags stmts refs].
  split; [|split; [|split]].
  - split; [exact Hn|]; split; [exact Hc|].
    rewrite Ht, !In_set_insert; simpl; auto.
  - exists (map (input_stmt (vars_ g)) (inputs op)),
      [Intrinsic (fn (f op)) (map ScalarName (inputs op)) [ScalarName (output op)]],
      (output op).
    split; [reflexivity|]; split; [apply input_stmt_load_or_constant | eauto].
  - apply Forall_app; split;
      [|constructor; [simpl; repeat split; auto; apply (scalar_of_sizes out_shape)
                     | constructor]].
    apply Forall_forall; intros r Hr; destruct (Hin r Hr) as (x & b & ->).
    simpl; repeat split; auto; apply (scalar_of_sizes (shape b)).
  - apply Forall_app; split; [|repeat constructor].
    apply Forall_forall; intros r Hr; destruct (Hin r Hr) as (x & b & ->).
    repeat split.
Qed.

Lemma contraction_kernel_made (main : Block) (op : Op) (main' : Block)
    (out_shape : TensorShape) :
  ProcessContraction N E g main op = OK main' ->
  GetShape g (output op) = OK out_shape ->
  byte_size E out_shape <> 0 ->
  exists pre k,
    main' = set_stmts main (stmts main ++ pre ++ [BlockStmt k])
    /\ Forall is_special_stmt pre /\ (List.length pre <= 1)%nat
    /\ made_for E (List.length (stmts main)) op k /\ kernel_body k /\ kernel_refs k
    /\ Forall (plain_ref g) (refs k).
Proof.
  intros H Hshape Hnz.
  destruct (ProcessContraction_closed N E g main op H Hshape Hnz)
    as (shape0 & shapes & cion & range_cons & bounds & simple_cons & kernel & init
        & _ & _ & _ & _ & -> & Hn & Hc & Ht & _ & _ & Hstmts & Hrefs & _).
  exists (if init then [init_stmt N op] else []), kernel.
  split; [reflexivity|]; split; [|split; [destruct init; simpl; lia|]].
  { destruct init; [|constructor].
    unfold init_stmt; destruct (String.eqb (use_default (c op)) ""); repeat constructor. }
  split; [|split; [|split]].
  - split; [assumption|]; split; [assumption|].
    rewrite Ht; destruct (_ && _); [apply In_set_insert; right|];
      apply contraction_kernel0_tag_list; auto.
  - exists (map (input_stmt (vars_ g)) (map id (tl (specs cion)))),
      (combination_stmts N cion op (scalar_names (tl (specs cion)))), (output op).
    split; [assumption|]; split; [apply input_stmt_load_or_constant|].
    unfold combination_stmts.
    destruct (Nat.ltb _ _); [destruct (String.eqb _ _)|]; eauto.
  - unfold kernel_refs; destruct (specs cion) as [|out ins]; [rewrite Hrefs; constructor|].
    destruct Hrefs as (acc & shape & rs & _ & Hsh & -> & Hins).
    constructor; [simpl; repeat split; eauto using ScalarShape_sizes|].
    clear - Hins; induction Hins as [|sp r sps rs' (Hd & Hf & Hi & _ & Hsh & _) _ IH];
      constructor; auto.
    split; [congruence|]; split; [exact (ScalarShape_sizes _ _ Hsh) | auto].
  - destruct (specs cion) as [|out ins]; [rewrite Hrefs; constructor|].
    destruct Hrefs as (acc & shape & rs & _ & _ & -> & Hins).
    constructor; [repeat split|].
    clear - Hins;
      induction Hins as [|sp r sps rs' (Hd & _ & Hi & _ & _ & _ & Hc & Ho & Hb) _ IH];
      constructor; auto.
    unfold plain_ref; rewrite Hd, Hi; auto.
Qed.

(** What one operation adds to [main]: at most one special statement,
    then at most one kernel. *)
Lemma ProcessOp_new (main : Block) (op : Op) (main' : Block) :
  ProcessOp N E g main op = OK main' ->
  exists pre ks,
    main' = set_stmts main (stmts main ++ pre ++ map BlockStmt ks)
    /\ Forall is_special_stmt pre
    /\ (List.length pre <= 1)%nat /\ (List.length ks <= 1)%nat
    /\ (tag op = CONSTANT -> pre = [] /\ ks = [])
    /\ Forall (made_for E (List.length (stmts main)) op) ks
    /\ Forall kernel_body ks /\ Forall kernel_refs ks
    /\ Forall (fun k => Forall (plain_ref g) (refs k)) ks.
Proof.
  assert (Hnone : exists pre ks,
             main = set_stmts main (stmts main ++ pre ++ map BlockStmt ks)
             /\ Forall is_special_stmt pre
             /\ (List.length pre <= 1)%nat /\ (List.length ks <= 1)%nat
             /\ (tag op = CONSTANT -> pre = [] /\ ks = [])
             /\ Forall (made_for E (List.length (stmts main)) op) ks
             /\ Forall kernel_body ks /\ Forall kernel_refs ks
             /\ Forall (fun k => Forall (plain_ref g) (refs k)) ks).
  { exists [], []; split; [apply set_stmts_same|]; simpl; repeat split; auto. }
  assert (Hspecial : forall s, is_special_stmt s -> tag op = FUNCTION ->
             exists pre ks,
               push_stmt main s = set_stmts main (stmts main ++ pre ++ map BlockStmt ks)
               /\ Forall is_special_stmt pre
               /\ (List.length pre <= 1)%nat /\ (List.length ks <= 1)%nat
               /\ (tag op = CONSTANT -> pre = [] /\ ks = [])
               /\ Forall (made_for E (List.length (stmts main)) op) ks
               /\ Forall kernel_body ks /\ Forall kernel_refs ks
               /\ Forall (fun k => Forall (plain_ref g) (refs k)) ks).
  { intros s Hs Htag; exists [s], []; split; [reflexivity|].
    simpl; repeat split; auto; congruence. }
  unfold ProcessOp; destruct (tag op) eqn:Htag; intros H.
  - pose proof H as H0.
    apply ProcessContraction_inv in H0; destruct H0 as (out_shape & Hshape & [[_ ->]|[Hnz _]]);
      [exact Hnone|].
    destruct (contraction_kernel_made _ _ H Hshape Hnz)
      as (pre & k & -> & Hpre & Hlen & Hmade & Hbody & Hrefs & Hplain).
    exists pre, [k]; simpl; repeat split; auto; congruence.
  - destruct (is_special E (f op)); [|destruct (String.eqb (fn (f op)) "reshape")].
    + inversion H; subst; apply Hspecial; [exact I | reflexivity].
    + unfold ProcessReshape in H; destruct (inputs op); [discriminate|].
      inversion H; subst; apply Hspecial; [exact I | reflexivity].
    + apply ProcessElementwise_closed in H; destruct H as (b & _ & _ & ->).
      destruct (eltwise_kernel_made main op (shape b)) as (Hmade & Hbody & Hrefs & Hplain).
      exists [], [eltwise_kernel E g main op (shape b)]; simpl; repeat split; auto; congruence.
  - inversion H; subst; exact Hnone.
Qed.

Lemma ProcessOps_new (l : list Op) :
  forall main main',
    foldM (ProcessOp N E g) l main = OK main' ->
    exists new,
      main' = set_stmts main (stmts main ++ new)
      /\ Forall main_stmt new
      /\ forall k, In (BlockStmt k) new -> Forall (plain_ref g) (refs k).
Proof.
  induction l as [|op rest IH]; simpl; intros main main' H.
  - inversion H; subst; exists []; split; [|split; [constructor | intros k []]].
    unfold set_stmts; rewrite app_nil_r, block_eta; reflexivity.
  - inv_bind H as m1 Hm1.
    apply ProcessOp_new in Hm1.
    destruct Hm1 as (pre & ks & -> & Hpre & _ & _ & _ & Hmade & Hbody & Hrefs & Hplain).
    apply IH in H; destruct H as (new & -> & Hnew & Hnewplain).
    exists ((pre ++ map BlockStmt ks) ++ new); split; [|split].
    + unfold set_stmts; simpl; rewrite <- !app_assoc; reflexivity.
    + repeat (apply Forall_app; split); [| |exact Hnew].
      * eapply Forall_impl; [|exact Hpre]; intros [] Hs; simpl in *; tauto.
      * rewrite Forall_map; rewrite Forall_forall in *; intros k Hin.
        destruct (Hmade k Hin) as (_ & _ & Ht); simpl; auto.
    + intros k Hin; apply in_app_or in Hin; destruct Hin as [Hin|Hin]; [|auto].
      apply in_app_or in Hin; destruct Hin as [Hin|Hin].
      * rewrite Forall_forall in Hpre; specialize (Hpre _ Hin); contradiction.
      * apply in_map_iff in Hin; destruct Hin as (k' & Heq & Hin); inversion Heq; subst k'.
        rewrite Forall_forall in Hplain; auto.
Qed.

(** The blocks [Run] starts from and what it returns. *)
Lemma Run_skeleton (prog : Block) :
  Run N E g = OK prog ->
  exists main0 main,
    foldM (ProcessOp N E g) (ops (parsed_ g)) main0 = OK main
    /\ name main0 = "main" /\ tags main0 = ["main"] /\ idxs main0 = []
    /\ constraints main0 = [] /\ stmts main0 = []
    /\ name prog = program_name (runinfo_ g) /\ tags prog = ["program"]
    /\ idxs prog = [] /\ constraints prog = []
    /\ exists temps,
         stmts prog = [BlockStmt (set_refs main (refs main ++ temps))].
Proof.
  unfold Run; rewrite !AddDecls_spec; simpl; intros H.
  inv_bind H as m Hm; inversion H; subst; clear H.
  rewrite add_temporary_loop.
  eexists _, m; split; [exact Hm|].
  repeat (split; [reflexivity|]); eexists; reflexivity.
Qed.

(** X10.  The program [Run] returns is the block named after the
    program and tagged program, with no index and no constraint, whose
    only statement is the block main, tagged main, with no index and no
    constraint.  Every statement of main is a special statement or a
    block tagged kernel; main holds no load, store, constant or intrinsic
    of its own.  The statements of every kernel are loads and constants,
    then at most one intrinsic writing the scalar [$out], then the store of
    [$out] into [out], and no nested block; every refinement of a kernel
    keeps the name of its tensor and is an In refinement or an Out
    refinement that is not marked constant. *)
Theorem Run_structure (prog : Block) :
  Run N E g = OK prog ->
  name prog = program_name (runinfo_ g) /\ tags prog = ["program"]
  /\ idxs prog = [] /\ constraints prog = []
  /\ exists main,
       stmts prog = [BlockStmt main]
       /\ name main = "main" /\ tags main = ["main"]
       /\ idxs main = [] /\ constraints main = []
       /\ Forall main_stmt (stmts main).
Proof.
  intros H; apply Run_skeleton in H.
  destruct H as (main0 & main & Hloop & Hn & Ht & Hi & Hc & Hs & Hpn & Hpt & Hpi & Hpc
                 & temps & Hstmts).
  repeat (split; [assumption|]).
  apply ProcessOps_new in Hloop; destruct Hloop as (new & -> & Hnew & _).
  eexists; split; [exact Hstmts|]; simpl.
  repeat (split; [assumption|]).
  rewrite Hs; exact Hnew.
Qed.

(** X11.  In the program [Run] returns, at the program block, in main and
    in every kernel, no refinement has an offset or a bank, and the
    constness of a refinement is that of its tensor, looked up by name in
    the constant inputs of the run, except that an Out refinement is
    never marked constant, whether or not its tensor is listed. *)
Theorem refinement_flags (prog : Block) :
  Run N E g = OK prog ->
  Forall (plain_ref g) (refs prog)
  /\ exists main,
       stmts prog = [BlockStmt main]
       /\ Forall (plain_ref g) (refs main)
       /\ forall k, In (BlockStmt k) (stmts main) -> Forall (plain_ref g) (refs k).
Proof.
  intros H; pose proof (Run_result N E g H) as (main & Hstmts & Hp & Hm & _).
  assert (Hdecl : forall (A : Type) (decl : A -> Refinement) (l : list A),
             (forall a, plain_ref g (decl a)) -> Forall (plain_ref g) (map decl l)).
  { intros A decl l Hd; rewrite Forall_map; apply Forall_forall; auto. }
  split; [rewrite Hp; apply Forall_app; split; apply Hdecl; repeat split|].
  exists main; split; [assumption|]; split.
  - rewrite Hm; repeat (apply Forall_app; split); apply Hdecl; repeat split.
  - apply Run_skeleton in H.
    destruct H as (main0 & main1 & Hloop & _ & _ & _ & _ & Hs & _ & _ & _ & _ & temps & Hst).
    rewrite Hstmts in Hst; inversion Hst; subst main; simpl.
    apply ProcessOps_new in Hloop; destruct Hloop as (new & -> & _ & Hplain).
    simpl; rewrite Hs; exact Hplain.
Qed.

(** ** The names of the kernels *)

Lemma decimal_inj (n m : nat) : decimal n = decimal m -> n = m.
Proof.
  unfold decimal; intros H.
  apply (f_equal NilEmpty.uint_of_string) in H; rewrite !NilEmpty.usu in H.
  inversion H as [H']; apply (f_equal Nat.of_uint) in H'.
  rewrite !Unsigned.of_to in H'; exact H'.
Qed.

Lemma kernel_name_default (n : nat) (op : Op) :
  no_pid op -> kernel_name n op = String.append "kernel_" (decimal n).
Proof.
  unfold no_pid, kernel_name; intros H.
  destruct (List.find is_pid (rev (attributes op))) as [attr|] eqn:Hf; [|reflexivity].
  apply find_some in Hf; destruct Hf as [Hin Hp].
  apply in_rev in Hin; rewrite Forall_forall in H; rewrite (H _ Hin) in Hp; discriminate.
Qed.

Lemma kernel_names_app (l1 l2 : list Statement) :
  kernel_names (l1 ++ l2) = kernel_names l1 ++ kernel_names l2.
Proof. apply flat_map_app. Qed.

Lemma kernel_names_special (l : list Statement) :
  Forall is_special_stmt l -> kernel_names l = [].
Proof.
  induction 1 as [|s l Hs _ IH]; [reflexivity|].
  destruct s; simpl in *; try contradiction; exact IH.
Qed.

Lemma numbered_names_step (stmts0 pre : list Statement) (ks : list Block) (op : Op) :
  no_pid op ->
  Forall is_special_stmt pre -> (List.length ks <= 1)%nat ->
  Forall (made_for E (List.length stmts0) op) ks ->
  numbered_names (List.length stmts0) (kernel_names stmts0) ->
  numbered_names (List.length (stmts0 ++ pre ++ map BlockStmt ks))
    (kernel_names (stmts0 ++ pre ++ map BlockStmt ks)).
Proof.
  intros Hop Hpre Hlen Hmade [Hnd Hnum].
  rewrite !kernel_names_app, (kernel_names_special Hpre), !length_app, length_map; simpl.
  destruct ks as [|k [|? ?]]; [| |simpl in Hlen; lia]; simpl.
  - rewrite app_nil_r; split; [assumption|].
    intros nm Hin; destruct (Hnum nm Hin) as (m & Hm & ->); exists m; split; [lia | reflexivity].
  - inversion_clear Hmade as [|? ? (Hname & _) _].
    rewrite (kernel_name_default _ Hop) in Hname; rewrite Hname; split.
    + apply NoDup_app; [assumption | repeat constructor; intros [] |].
      intros nm Hin [<-|[]]; destruct (Hnum _ Hin) as (m & Hm & Heq).
      simpl in Heq; inversion Heq as [Hd]; apply decimal_inj in Hd; lia.
    + intros nm Hin; apply in_app_or in Hin; destruct Hin as [Hin|[<-|[]]].
      * destruct (Hnum nm Hin) as (m & Hm & ->); exists m; split; [lia | reflexivity].
      * exists (List.length stmts0); split; [lia | reflexivity].
Qed.

Lemma numbered_names_loop (l : list Op) :
  Forall no_pid l ->
  forall main main',
    foldM (ProcessOp N E g) l main = OK main' ->
    numbered_names (List.length (stmts main)) (kernel_names (stmts main)) ->
    numbered_names (List.length (stmts main')) (kernel_names (stmts main')).
Proof.
  induction 1 as [|op rest Hop _ IH]; simpl; intros main main' H Hinv.
  - inversion H; subst; assumption.
  - inv_bind H as m1 Hm1.
    apply ProcessOp_new in Hm1.
    destruct Hm1 as (pre & ks & -> & Hpre & _ & Hlen & _ & Hmade & _).
    apply (IH _ _ H); simpl.
    apply numbered_names_step with (op := op); assumption.
Qed.

(** X12.  When no operation carries a pid attribute, the kernels of the
    program [Run] returns have pairwise different names: each is named
    [kernel_<m>], where [m] is the number of statements main held when the
    kernel was made, which is below the number of statements of main. *)
Theorem kernel_names_distinct (prog : Block) :
  Forall no_pid (ops (parsed_ g)) ->
  Run N E g = OK prog ->
  exists main,
    stmts prog = [BlockStmt main]
    /\ NoDup (kernel_names (stmts main))
    /\ forall nm, In nm (kernel_names (stmts main)) ->
         exists m, (m < List.length (stmts main))%nat
                   /\ nm = String.append "kernel_" (decimal m).
Proof.
  intros Hops H; apply Run_skeleton in H.
  destruct H as (main0 & main & Hloop & _ & _ & _ & _ & Hs & _ & _ & _ & _ & temps & Hstmts).
  eexists; split; [exact Hstmts|]; simpl.
  apply (numbered_names_loop Hops _ Hloop); rewrite Hs; split; [constructor | intros nm []].
Qed.

End Operations.

(** ** Operations are lowered independently *)

Lemma same_outcome_bind (A B : Type) (R : A -> A -> Prop) (S : B -> B -> Prop)
    (r r' : result A) (k k' : A -> result B) :
  same_outcome R r r' ->
  (forall a a', R a a' -> same_outcome S (k a) (k' a')) ->
  same_outcome S (bind r k) (bind r' k').
Proof.
  destruct r, r'; simpl; intros H Hk; auto; contradiction.
Qed.

Lemma same_outcome_foldM (A B : Type) (R : A -> A -> Prop) (body : A -> B -> result A)
    (l : list B) :
  (forall a a' x, R a a' -> same_outcome R (body a x) (body a' x)) ->
  forall a a', R a a' -> same_outcome R (foldM body l a) (foldM body l a').
Proof.
  intros Hbody; induction l as [|x l IH]; simpl; intros a a' Ha; [exact Ha|].
  eapply same_outcome_bind; [apply Hbody; exact Ha | exact IH].
Qed.

Lemma renamed_push_ref (k k' : Block) (r : Refinement) :
  renamed k k' -> renamed (push_ref k r) (push_ref k' r).
Proof. intros (H1 & H2 & H3 & H4 & H5 & H6); repeat split; simpl; congruence. Qed.

Lemma renamed_push_stmt (k k' : Block) (s : Statement) :
  renamed k k' -> renamed (push_stmt k s) (push_stmt k' s).
Proof. intros (H1 & H2 & H3 & H4 & H5 & H6); repeat split; simpl; congruence. Qed.

Lemma renamed_push_idx (k k' : Block) (i : Index) :
  renamed k k' -> renamed (push_idx k i) (push_idx k' i).
Proof. intros (H1 & H2 & H3 & H4 & H5 & H6); repeat split; simpl; congruence. Qed.

Lemma renamed_push_constraint (k k' : Block) (a : Affine) :
  renamed k k' -> renamed (push_constraint k a) (push_constraint k' a).
Proof. intros (H1 & H2 & H3 & H4 & H5 & H6); repeat split; simpl; congruence. Qed.

Lemma renamed_set_tag (k k' : Block) (t : string) :
  renamed k k' -> renamed (set_tag k t) (set_tag k' t).
Proof. intros (H1 & H2 & H3 & H4 & H5 & H6); repeat split; simpl; congruence. Qed.

Section Independence.

Variable N : Names.
Variable E : Collaborators.
Variable g : StripeGenerator.

Lemma AddKernel_renamed (main1 main2 : Block) (op : Op) :
  renamed (snd (AddKernel E main1 op)) (snd (AddKernel E main2 op)).
Proof.
  destruct (AddKernel_fresh E main1 op) as (Hi1 & Hc1 & Hr1 & Hs1 & Ht1).
  destruct (AddKernel_fresh E main2 op) as (Hi2 & Hc2 & Hr2 & Hs2 & Ht2).
  destruct (AddKernel_name E main1 op) as [_ Hcm1].
  destruct (AddKernel_name E main2 op) as [_ Hcm2].
  cbv zeta in *; repeat split; congruence.
Qed.

Lemma contraction_spec_renamed (cion : Contraction) (bounds : IndexBounds) (i : nat)
    (si : list string) (sp : TensorSpec) (k k' : Block) :
  renamed k k' ->
  same_outcome (fun st st' => renamed (fst st) (fst st') /\ snd st = snd st')
    (contraction_spec N E g cion bounds i k si sp)
    (contraction_spec N E g cion bounds i k' si sp).
Proof.
  intros Hk; unfold contraction_spec.
  destruct (ScalarShape g (id sp)) as [shape|]; [|reflexivity]; cbn [bind].
  destruct (spec_access E bounds sp) as [acc|]; [|reflexivity]; cbn [bind].
  destruct (Nat.eqb i 0);
    [|destruct (find (id sp) (vars_ g)) as [src|]; [destruct (btag src)|]];
    simpl; split; auto using renamed_push_ref, renamed_push_stmt.
Qed.

Lemma contraction_specs_renamed (cion : Contraction) (bounds : IndexBounds)
    (sps : list TensorSpec) :
  forall i si k k',
    renamed k k' ->
    same_outcome (fun st st' => renamed (fst st) (fst st') /\ snd st = snd st')
      (contraction_specs N E g cion bounds i sps k si)
      (contraction_specs N E g cion bounds i sps k' si).
Proof.
  induction sps as [|sp rest IH]; intros i si k k' Hk; simpl; [auto|].
  eapply same_outcome_bind; [apply contraction_spec_renamed; exact Hk|].
  intros [a s] [a' s'] [Ha Hs]; simpl in *; subst s'; apply IH; exact Ha.
Qed.

Lemma contraction_idxs_renamed (bounds : IndexBounds) :
  forall k k', renamed k k' ->
    renamed (fold_left contraction_idx bounds k) (fold_left contraction_idx bounds k').
Proof.
  induction bounds as [|kvp rest IH]; simpl; intros k k' Hk; [exact Hk|].
  apply IH; unfold contraction_idx; destruct (_ =? 1); auto using renamed_push_idx.
Qed.

Lemma contraction_constraint_renamed (bounds : IndexBounds) (sc : SimpleConstraint)
    (k k' : Block) :
  renamed k k' ->
  same_outcome renamed (contraction_constraint E bounds k sc)
    (contraction_constraint E bounds k' sc).
Proof.
  intros Hk; unfold contraction_constraint.
  destruct (Integerize E (poly sc) bounds); simpl; auto using renamed_push_constraint.
Qed.

Lemma NeedsInitialize_renamed (k k' : Block) (out_shape : TensorShape) :
  renamed k k' -> NeedsInitialize k out_shape = NeedsInitialize k' out_shape.
Proof.
  intros (_ & _ & Hi & Hc & Hr & _); apply NeedsInitialize_ext; assumption.
Qed.

Lemma ProcessContraction_independent (main1 main2 : Block) (op : Op) :
  same_outcome (fun _ _ => True)
    (ProcessContraction N E g main1 op) (ProcessContraction N E g main2 op).
Proof.
  unfold ProcessContraction.
  destruct (GetShape g (output op)) as [out_shape|]; [|reflexivity]; cbn [bind].
  destruct (byte_size E out_shape =? 0); [exact I|].
  destruct (MakeShapes g (c op)) as [shapes|]; [|reflexivity]; cbn [bind].
  destruct (CompileContraction E (c op) shapes) as [[cion range_cons]|]; [|reflexivity].
  cbn [bind fst snd].
  destruct (ComputeBounds E range_cons) as [[bounds simple_cons]|]; [|reflexivity].
  cbn [bind fst snd].
  eapply same_outcome_bind.
  { apply contraction_specs_renamed; repeat apply renamed_set_tag; apply AddKernel_renamed. }
  intros [k1 si] [k1' si'] [Hk1 Hsi]; cbn [fst snd] in *; subst si'.
  eapply same_outcome_bind.
  { apply same_outcome_foldM; [|apply contraction_idxs_renamed; exact Hk1].
    intros a a' sc Ha; apply contraction_constraint_renamed; exact Ha. }
  intros k3 k3' Hk3.
  destruct shapes as [|shape0 ?]; [reflexivity|].
  rewrite (NeedsInitialize_renamed shape0 Hk3).
  destruct (NeedsInitialize k3' shape0); simpl; auto.
Qed.

Lemma eltwise_input_renamed (out_shape : TensorShape) (input : string) (k k' : Block) :
  renamed k k' ->
  same_outcome renamed (eltwise_input g out_shape k input) (eltwise_input g out_shape k' input).
Proof.
  intros Hk; unfold eltwise_input.
  destruct (find input (vars_ g)) as [b|]; [|reflexivity].
  destruct (btag b); simpl; auto using renamed_push_stmt.
  rewrite (broadcast_access_ext k k' out_shape (shape b)) by (destruct Hk as (_ & _ & H & _); exact H).
  destruct (broadcast_access k' out_shape (shape b)); [|reflexivity]; cbn [bind].
  destruct (ScalarShape g input); simpl; auto using renamed_push_stmt, renamed_push_ref.
Qed.

Lemma ProcessElementwise_independent (main1 main2 : Block) (op : Op) :
  same_outcome (fun _ _ => True)
    (ProcessElementwise E g main1 op) (ProcessElementwise E g main2 op).
Proof.
  unfold ProcessElementwise.
  destruct (GetShape g (output op)) as [out_shape|]; [|reflexivity]; cbn [bind].
  rewrite !eltwise_out_spec; cbn [fst snd].
  eapply same_outcome_bind.
  { apply same_outcome_foldM; [intros a a' x Ha; apply eltwise_input_renamed; exact Ha|].
    pose proof (AddKernel_renamed main1 main2 op) as Hk.
    set (k1 := snd (AddKernel E main1 op)) in *; set (k2 := snd (AddKernel E main2 op)) in *.
    clearbody k1 k2.
    assert (Ht : renamed (set_tag (set_tag k1 "eltwise") (String.append "eltwise_" (fn (f op))))
                   (set_tag (set_tag k2 "eltwise") (String.append "eltwise_" (fn (f op)))))
      by (repeat apply renamed_set_tag; exact Hk).
    destruct Ht as (H1 & H2 & H3 & H4 & H5 & H6).
    repeat split; simpl in *; congruence. }
  intros k k' Hk.
  destruct (ScalarShape g (output op)); simpl; auto.
Qed.

Lemma ProcessOp_independent (main1 main2 : Block) (op : Op) :
  same_outcome (fun _ _ => True) (ProcessOp N E g main1 op) (ProcessOp N E g main2 op).
Proof.
  unfold ProcessOp; destruct (tag op).
  - apply ProcessContraction_independent.
  - destruct (is_special E (f op)); [exact I|].
    destruct (String.eqb (fn (f op)) "reshape").
    + unfold ProcessReshape; destruct (inputs op); simpl; auto.
    + apply ProcessElementwise_independent.
  - exact I.
Qed.

Lemma ProcessOp_lowers (main : Block) (op : Op) :
  (lowers N E g op <-> exists main', ProcessOp N E g main op = OK main')
  /\ (forall e, ProcessOp N E g new_Block op = Err e <-> ProcessOp N E g main op = Err e).
Proof.
  unfold lowers; pose proof (ProcessOp_independent new_Block main op) as H.
  destruct (ProcessOp N E g new_Block op), (ProcessOp N E g main op); simpl in H;
    try contradiction; subst; (split; [split; eauto | split; try discriminate; auto]).
Qed.

Lemma ProcessOps_outcome (l : list Op) :
  forall main,
    ((exists main', foldM (ProcessOp N E g) l main = OK main') <-> Forall (lowers N E g) l)
    /\ (forall pre op post e,
          l = pre ++ op :: post -> Forall (lowers N E g) pre ->
          ProcessOp N E g new_Block op = Err e ->
          foldM (ProcessOp N E g) l main = Err e).
Proof.
  induction l as [|op rest IH]; intros main; simpl.
  - split; [split; [constructor | eauto]|].
    intros pre op post e H; destruct pre; discriminate.
  - destruct (ProcessOp_lowers main op) as [Hlow Herr].
    destruct (ProcessOp N E g main op) as [m1|e1]; simpl.
    + destruct (IH m1) as [IHok IHerr]; split; [split|].
      * intros H; constructor; [apply Hlow; eauto | apply IHok; exact H].
      * intros H; inversion H; subst; apply IHok; assumption.
      * intros pre op' post e Heq Hpre Hop.
        destruct pre as [|o pre]; simpl in Heq; inversion Heq; subst.
        -- apply Herr in Hop; discriminate.
        -- inversion Hpre; subst; eapply IHerr; eauto.
    + split; [split|].
      * intros [m H]; discriminate.
      * intros H; inversion H as [|? ? Hop _]; subst.
        apply Hlow in Hop; destruct Hop as [m Hm]; discriminate.
      * intros pre op' post e Heq Hpre Hop.
        destruct pre as [|o pre]; simpl in Heq; inversion Heq; subst.
        -- apply Herr in Hop; congruence.
        -- inversion Hpre as [|? ? Ho _]; subst.
           apply Hlow in Ho; destruct Ho as [m Hm]; discriminate.
Qed.

(** X13.  Whether an operation can be lowered, and the exception it
    throws if not, do not depend on what [main] already holds.  So [Run]
    returns a program exactly when every operation of the parsed program
    can be lowered by itself; otherwise it throws the exception of the
    first operation that cannot, and no program is returned: the
    declarations before the operations and the temporaries after them
    never throw. *)
Theorem Run_outcome :
  (forall main op,
     (lowers N E g op <-> exists main', ProcessOp N E g main op = OK main')
     /\ (forall e, ProcessOp N E g new_Block op = Err e <-> ProcessOp N E g main op = Err e))
  /\ ((exists prog, Run N E g = OK prog) <-> Forall (lowers N E g) (ops (parsed_ g)))
  /\ (forall pre op post e,
        ops (parsed_ g) = pre ++ op :: post -> Forall (lowers N E g) pre ->
        ProcessOp N E g new_Block op = Err e ->
        Run N E g = Err e).
Proof.
  split; [exact ProcessOp_lowers|].
  unfold Run; cbv zeta.
  match goal with
  | |- context [foldM (ProcessOp N E g) (ops (parsed_ g)) ?m] =>
      destruct (ProcessOps_outcome (ops (parsed_ g)) m) as [Hok Herr];
      destruct (foldM (ProcessOp N E g) (ops (parsed_ g)) m) as [main|e0]
  end; cbn [bind]; split.
  - split; [intros _; apply Hok; eauto | eauto].
  - intros pre op post e Heq Hpre Hop; specialize (Herr _ _ _ _ Heq Hpre Hop); discriminate.
  - split; [intros [prog H]; discriminate|].
    intros H; apply Hok in H; destruct H as [m H]; discriminate.
  - intros pre op post e Heq Hpre Hop; exact (Herr _ _ _ _ Heq Hpre Hop).
Qed.

End Independence.

(** ** The dispatch of the operations *)

Section Dispatch.

Variable N : Names.
Variable E : Collaborators.
Variable g : StripeGenerator.

(** X14.  An operation that is lowered leaves everything of [main] but
    its statement list as it was, in particular the refinements.  To the
    statements it appends at most one special statement and then at most
    one kernel, and nothing at all for a CONSTANT operation.  The kernel
    is tagged kernel, carries the printed operation as its comment, and is
    named by the first parameter of the last pid attribute that has a
    parameter, else [kernel_<n>] with [n] the number of statements main
    held before the operation.  A special function is passed on as one
    special statement with all its inputs, also when its name is reshape;
    a reshape that is not special keeps its first input only (and reading
    it is undefined when there is none); every other function becomes an
    elementwise kernel. *)
Theorem ProcessOp_adds (main : Block) (op : Op) (main' : Block) :
  ProcessOp N E g main op = OK main' ->
  (name main' = name main /\ comments main' = comments main /\ tags main' = tags main
   /\ idxs main' = idxs main /\ constraints main' = constraints main
   /\ refs main' = refs main)
  /\ (exists pre ks,
        stmts main' = stmts main ++ pre ++ map BlockStmt ks
        /\ Forall is_special_stmt pre
        /\ (List.length pre <= 1)%nat /\ (List.length ks <= 1)%nat
        /\ (tag op = CONSTANT -> pre = [] /\ ks = [])
        /\ Forall (made_for E (List.length (stmts main)) op) ks)
  /\ (tag op = FUNCTION -> is_special E (f op) = true ->
      stmts main'
      = stmts main ++ [Special (fn (f op)) (params (f op)) (inputs op) [output op]])
  /\ (tag op = FUNCTION -> is_special E (f op) = false -> fn (f op) = "reshape" ->
      exists input0 others,
        inputs op = input0 :: others
        /\ stmts main'
           = stmts main ++ [Special (fn (f op)) (params (f op)) [input0] [output op]])
  /\ (tag op = FUNCTION -> is_special E (f op) = false -> fn (f op) <> "reshape" ->
      ProcessElementwise E g main op = OK main').
Proof.
  intros H; pose proof H as H0; apply ProcessOp_new in H0.
  destruct H0 as (pre & ks & Hmain & Hpre & Hlp & Hlk & Hconst & Hmade & _).
  split; [rewrite Hmain; repeat split; reflexivity|].
  split; [exists pre, ks; rewrite Hmain; repeat split; auto; apply Hconst; assumption|].
  unfold ProcessOp in H; split; [|split].
  - intros Ht Hs; rewrite Ht, Hs in H; inversion H; reflexivity.
  - intros Ht Hs Hf; apply String.eqb_eq in Hf; rewrite Ht, Hs, Hf in H.
    unfold ProcessReshape in H; destruct (inputs op) as [|input0 others]; [discriminate|].
    inversion H; eauto.
  - intros Ht Hs Hf; apply String.eqb_neq in Hf; rewrite Ht, Hs, Hf in H; exact H.
Qed.

End Dispatch.

(** ** GenerateStripe *)

(** X15.  [GenerateStripe] parses the code of the run, binds the parsed
    program to the input and output shapes of the run and lowers the
    bound program; an exception of the parser or of the binding is its
    exception.  Its generator starts without externals, so the names
    declared at the program block are exactly the inputs and then the
    outputs of the run, in the order of the shape maps, and [main]
    declares these and then, in the order of the bindings, every bound
    tensor that is neither an input nor an output; integer and float
    bindings are never declared. *)
Theorem GenerateStripe_declares (N : Names) (E : Collaborators) (runinfo : RunInfo) :
  (forall e, Parse E (code runinfo) = Err e -> GenerateStripe N E runinfo = Err e)
  /\ (forall parsed e,
        Parse E (code runinfo) = OK parsed ->
        BindProgram E parsed (input_shapes runinfo) (output_shapes runinfo) = Err e ->
        GenerateStripe N E runinfo = Err e)
  /\ (forall prog,
        GenerateStripe N E runinfo = OK prog ->
        exists parsed bound vars main,
          Parse E (code runinfo) = OK parsed
          /\ BindProgram E parsed (input_shapes runinfo) (output_shapes runinfo)
             = OK (bound, vars)
          /\ Run N E (mkStripeGenerator bound vars runinfo []) = OK prog
          /\ stmts prog = [BlockStmt main]
          /\ map into (refs prog)
             = keys (input_shapes runinfo) ++ keys (output_shapes runinfo)
          /\ map into (refs main)
             = keys (input_shapes runinfo) ++ keys (output_shapes runinfo)
               ++ keys (internal_tensors runinfo vars)).
Proof.
  unfold GenerateStripe, StripeGenerator_new; split; [|split].
  - intros e ->; reflexivity.
  - intros parsed e H1 H2; rewrite H1; cbn [bind]; rewrite H2; reflexivity.
  - intros prog H.
    destruct (Parse E (code runinfo)) as [parsed|] eqn:HP; [|discriminate]; cbn [bind] in H.
    destruct (BindProgram E parsed (input_shapes runinfo) (output_shapes runinfo))
      as [[bound vars]|] eqn:HB; [|discriminate]; cbn [bind fst snd] in H.
    pose proof (Run_result N E _ H) as (main & Hs & Hp & Hm & _); cbn [runinfo_ vars_] in *.
    exists parsed, bound, vars, main.
    repeat (split; [reflexivity || assumption|]).
    unfold keys; split.
    + rewrite Hp, map_app, !map_map; reflexivity.
    + rewrite Hm, !map_app, !map_map.
      apply (f_equal2 (@app string)); [reflexivity|].
      apply (f_equal2 (@app string)); [reflexivity|].
      change (map (fun x => into (temp_decl _ x)) ?l) with (map (@fst string Binding) l).
      apply f_equal; unfold temporaries, internal_tensors, is_external.
      apply filter_ext; intros item; simpl; rewrite negb_orb; reflexivity.
Qed.

(** ** Kernels use the indexes they declare *)

Lemma bound_range_not_unit (b : Bound) :
  in_int64 (min b) -> in_int64 (max b) -> min b <> max b -> bound_range b <> 1.
Proof.
  unfold in_int64, bound_range, wrapu64; intros Hmin Hmax Hne H.
  pose proof (Z.div_mod (max b - min b + 1) (2 ^ 64) ltac:(lia)) as Hdm.
  rewrite H in Hdm; nia.
Qed.

Lemma declared_lookup (bounds : IndexBounds) (k : string) (b : Bound) (block : Block) :
  idxs block = declared_idxs bounds ->
  In (k, b) bounds -> bound_range b <> 1 ->
  exists ix, idx_by_name block k = Some ix /\ idx_name ix = k.
Proof.
  intros Hidxs Hin Hr; unfold idx_by_name; rewrite Hidxs.
  destruct (List.find _ (declared_idxs bounds)) as [ix|] eqn:Hf.
  - apply find_some in Hf; destruct Hf as [_ Heq]; apply String.eqb_eq in Heq; eauto.
  - assert (Hdecl : In (mkIndex k (bound_range b)) (declared_idxs bounds)).
    { unfold declared_idxs; apply in_map_iff; exists (k, b); split; [reflexivity|].
      apply filter_In; split; [assumption|]; simpl.
      apply negb_true_iff, Z.eqb_neq; assumption. }
    pose proof (find_none _ _ Hf _ Hdecl) as Hno; simpl in Hno.
    rewrite String.eqb_refl in Hno; discriminate.
Qed.

Lemma find_key (V : Type) (k : string) (m : smap V) :
  In k (keys m) -> exists v, find k m = Some v /\ In (k, v) m.
Proof.
  induction m as [|[k' v'] m IH]; simpl; [intros []|].
  destruct (String.eqb_spec k k') as [->|Hne]; [eauto|].
  intros [H|H]; [congruence|].
  destruct (IH H) as (v & Hf & Hin); eauto.
Qed.

Section DeclaredIndexes.

Variable N : Names.
Variable E : Collaborators.
Variable g : StripeGenerator.

Lemma Integerize_declared (poly : Polynomial Rational) (bounds : IndexBounds) (a : Affine)
    (block : Block) :
  int64_bounds bounds -> idxs block = declared_idxs bounds ->
  Integerize E poly bounds = OK a -> uses_declared block a.
Proof.
  intros H64 Hidxs Ha k Hk Hne.
  destruct (@Integerize_keys E poly bounds a Ha k Hk Hne) as (b & Hb & Hmm).
  apply find_In in Hb.
  unfold int64_bounds in H64; rewrite Forall_forall in H64.
  destruct (H64 _ Hb) as [Hmin Hmax]; simpl in *.
  apply (@declared_lookup bounds k b block Hidxs Hb), bound_range_not_unit; assumption.
Qed.

Lemma flipped_declared (bounds : IndexBounds) (sc : SimpleConstraint) (con : Affine)
    (block : Block) :
  int64_bounds bounds -> idxs block = declared_idxs bounds ->
  flipped E bounds sc con -> uses_declared block con.
Proof.
  intros H64 Hidxs (lhs & Hlhs & _ & Hcoeff & (_ & Hnz & _)) k Hk Hne.
  apply (@Integerize_declared (poly sc) bounds lhs block H64 Hidxs Hlhs); [|assumption].
  destruct (@find_key _ k con Hk) as (v & Hf & Hin).
  rewrite Forall_forall in Hnz; specialize (Hnz _ Hin); simpl in Hnz.
  specialize (Hcoeff k Hne); unfold coeff in Hcoeff; rewrite Hf in Hcoeff.
  destruct (find k lhs) as [w|] eqn:Hw.
  - apply find_In in Hw; apply in_map_iff; exists (k, w); auto.
  - simpl in Hcoeff; vm_compute in Hcoeff; congruence.
Qed.

(** X16.  When the solved bounds are [int64_t] values, the kernel of a
    contraction is closed: every index named in the access of one of its
    refinements or in one of its constraints is an index the kernel
    declares.  (An index whose bound is degenerate is not declared, and
    [Integerize] has replaced it by its value.) *)
Theorem contraction_kernel_closed (main : Block) (op : Op) (main' : Block)
    (out_shape : TensorShape) (shapes : list TensorShape) (cion : Contraction)
    (range_cons : list RangeConstraint) (bounds : IndexBounds)
    (simple_cons : list SimpleConstraint) :
  ProcessContraction N E g main op = OK main' ->
  GetShape g (output op) = OK out_shape ->
  byte_size E out_shape <> 0 ->
  MakeShapes g (c op) = OK shapes ->
  CompileContraction E (c op) shapes = OK (cion, range_cons) ->
  ComputeBounds E range_cons = OK (bounds, simple_cons) ->
  int64_bounds bounds ->
  exists kernel pre,
    stmts main' = stmts main ++ pre ++ [BlockStmt kernel]
    /\ closed_block kernel.
Proof.
  intros H Hshape Hnz Hms Hcc Hcb H64.
  destruct (ProcessContraction_closed N E g main op H Hshape Hnz)
    as (shape0 & shapes' & cion' & range_cons' & bounds' & simple_cons' & kernel & init
        & Hms' & Hcc' & Hcb' & _ & -> & _ & _ & _ & Hidxs & Hflip & _ & Hrefs & _).
  rewrite Hms in Hms'; inversion Hms'; subst shapes; clear Hms'.
  rewrite Hcc in Hcc'; inversion Hcc'; subst cion' range_cons'; clear Hcc'.
  rewrite Hcb in Hcb'; inversion Hcb'; subst bounds' simple_cons'; clear Hcb'.
  eexists kernel, _; split; [reflexivity|]; split.
  - assert (Hacc : forall sp acc, spec_access E bounds sp = OK acc ->
                     Forall (uses_declared kernel) acc).
    { intros sp acc; apply spec_access_all.
      intros poly a; apply Integerize_declared; assumption. }
    destruct (specs cion) as [|out ins]; [rewrite Hrefs; constructor|].
    destruct Hrefs as (acc & shape & rs & Hout & _ & -> & Hins).
    constructor; [exact (Hacc _ _ Hout)|].
    clear - Hins Hacc; induction Hins as [|sp r sps rs' (_ & _ & _ & Hsp & _) _ IH];
      constructor; eauto.
  - clear - Hflip H64 Hidxs.
    induction Hflip as [|sc con scs cons Hc _ IH]; constructor; [|exact IH].
    exact (@flipped_declared bounds sc con kernel H64 Hidxs Hc).
Qed.

Lemma eltwise_access_keys (ds : list TensorDimension) (s : nat) (a : Affine) (k : string) :
  In a (eltwise_access s ds) -> In k (keys a) ->
  exists j d, nth_error ds j = Some d /\ 1 < size d /\ k = loop_index (s + j).
Proof.
  intros Ha Hk; apply In_nth_error in Ha; destruct Ha as [j Hj].
  destruct (nth_error ds j) as [d|] eqn:Hd.
  - rewrite (eltwise_access_nth ds s j Hd) in Hj; inversion Hj; subst a.
    destruct (Z.ltb_spec 1 (size d)); simpl in Hk; [|contradiction].
    destruct Hk as [<-|[]]; eauto.
  - apply nth_error_None in Hd.
    assert (Hlen : (j < List.length (eltwise_access s ds))%nat)
      by (apply nth_error_Some; congruence).
    rewrite eltwise_access_length in Hlen; lia.
Qed.

Lemma eltwise_lookup (out_dims : list TensorDimension) (i : nat) (od : TensorDimension)
    (block : Block) :
  idxs block = filter (fun idx => negb (range idx =? 1)) (eltwise_idxs 0 out_dims) ->
  nth_error out_dims i = Some od -> size od <> 1 ->
  exists ix, idx_by_name block (loop_index i) = Some ix /\ idx_name ix = loop_index i.
Proof.
  intros Hidxs Hod Hsz; unfold idx_by_name; rewrite Hidxs.
  destruct (List.find _ (filter _ _)) as [ix|] eqn:Hf.
  - apply find_some in Hf; destruct Hf as [_ Heq]; apply String.eqb_eq in Heq; eauto.
  - assert (Hdecl : In (mkIndex (loop_index i) (size od))
                       (filter (fun idx => negb (range idx =? 1)) (eltwise_idxs 0 out_dims))).
    { apply filter_In; split.
      - apply (nth_error_In _ i); rewrite (nth_error_eltwise_idxs out_dims 0 i Hod).
        reflexivity.
      - simpl; apply negb_true_iff, Z.eqb_neq; assumption. }
    pose proof (find_none _ _ Hf _ Hdecl) as Hno; simpl in Hno.
    rewrite String.eqb_refl in Hno; discriminate.
Qed.

(** X17.  The kernel of an elementwise operation declares every index
    its Out refinement names.  It declares every index its In
    refinements name as well when the tensor inputs are broadcast
    compatible with the output, that is, when every input dimension of
    size above 1 has the size of the output dimension it is aligned with;
    the kernel is then closed. *)
Theorem eltwise_kernel_closed (main : Block) (op : Op) (main' : Block) :
  ProcessElementwise E g main op = OK main' ->
  exists out_b kernel in_refs out_ref,
    find (output op) (vars_ g) = Some out_b
    /\ stmts main' = stmts main ++ [BlockStmt kernel]
    /\ refs kernel = in_refs ++ [out_ref]
    /\ Forall (uses_declared kernel) (access out_ref)
    /\ ((forall input b,
           In input (inputs op) -> find input (vars_ g) = Some b -> btag b = TENSOR ->
           broadcast_compatible (dims (shape out_b)) (dims (shape b))) ->
        closed_block kernel).
Proof.
  intros H; apply ProcessElementwise_closed in H; destruct H as (out_b & Hout & Hall & ->).
  set (kernel := eltwise_kernel E g main op (shape out_b)).
  assert (Hidxs : idxs kernel
                  = filter (fun idx => negb (range idx =? 1))
                      (eltwise_idxs 0 (dims (shape out_b)))) by reflexivity.
  assert (Hown : Forall (uses_declared kernel) (eltwise_access 0 (dims (shape out_b)))).
  { apply Forall_forall; intros a Ha k Hk _.
    destruct (@eltwise_access_keys _ _ a k Ha Hk) as (j & d & Hd & Hsz & ->); simpl.
    apply (@eltwise_lookup (dims (shape out_b)) j d kernel Hidxs Hd); lia. }
  eexists out_b, kernel, _, _; split; [assumption|]; split; [reflexivity|].
  split; [reflexivity|]; split; [exact Hown|].
  intros Hcompat; split; [|constructor].
  apply Forall_app; split; [|constructor; [exact Hown | constructor]].
  unfold eltwise_in_refs; apply Forall_forall; intros r Hr.
  apply in_flat_map in Hr; destruct Hr as (input & Hin & Hr).
  destruct (find input (vars_ g)) as [b|] eqn:Hb; [|destruct Hr].
  unfold is_tensor_binding in Hr; destruct (btag b) eqn:Ht; simpl in Hr; try contradiction.
  destruct Hr as [<-|[]]; simpl.
  apply Forall_forall; intros a Ha k Hk _; unfold aligned_access in Ha.
  destruct (@eltwise_access_keys _ _ a k Ha Hk) as (j & d & Hd & Hsz & ->).
  rewrite nth_error_skipn in Hd.
  destruct (Hcompat input b Hin Hb Ht j d Hd Hsz) as (od & Hod & Heq).
  apply (@eltwise_lookup (dims (shape out_b)) _ od kernel Hidxs Hod); lia.
Qed.

End DeclaredIndexes.

(** ** Contractions that cannot be lowered *)

Section ContractionFailures.

Variable N : Names.
Variable E : Collaborators.
Variable g : StripeGenerator.

Lemma MakeShapes_loop (sps : list TensorSpec) :
  forall start,
    Forall (bound_spec (vars_ g)) sps ->
    exists shapes,
      foldM (fun shapes sp => sh <- GetShape g (id sp) ;; OK (shapes ++ [sh])) sps start
      = OK (start ++ shapes)
      /\ Forall2 (fun sp sh => GetShape g (id sp) = OK sh) sps shapes.
Proof.
  unfold bound_spec, GetShape.
  induction sps as [|sp rest IH]; simpl; intros start Hall.
  - exists []; rewrite app_nil_r; split; [reflexivity | constructor].
  - inversion_clear Hall as [|? ? Hsp Hrest].
    destruct (find (id sp) (vars_ g)) as [b|] eqn:Hb; [|congruence]; simpl.
    destruct (IH (start ++ [shape b]) Hrest) as (shapes & -> & Hshapes).
    exists (shape b :: shapes); rewrite <- app_assoc; split; [reflexivity|].
    constructor; [rewrite Hb; reflexivity | assumption].
Qed.

(** X18.  [MakeShapes] returns the shapes of the tensors of the specs,
    one per spec and in order, when all of them are bound, and throws the
    unknown-shape exception naming the first one that is not.  A
    contraction fails in this order: an unbound output gives the
    unknown-shape exception naming it; then, for an output whose byte size
    is not 0, the first spec with an unbound tensor gives the
    unknown-shape exception naming that tensor, before the arity is looked
    at; then a number of specs other than 2, 3 or 4 gives the arity
    exception; then an exception of the compilation or of the bound solver
    is passed on unchanged. *)
Theorem ProcessContraction_failures (main : Block) (op : Op) :
  (Forall (bound_spec (vars_ g)) (specs (c op)) ->
   exists shapes,
     MakeShapes g (c op) = OK shapes
     /\ Forall2 (fun sp sh => GetShape g (id sp) = OK sh) (specs (c op)) shapes)
  /\ (forall pre sp post,
        specs (c op) = pre ++ sp :: post ->
        Forall (bound_spec (vars_ g)) pre -> find (id sp) (vars_ g) = None ->
        MakeShapes g (c op) = Err (UnknownShape (id sp)))
  /\ (find (output op) (vars_ g) = None ->
      ProcessContraction N E g main op = Err (UnknownShape (output op)))
  /\ (forall out_shape,
        GetShape g (output op) = OK out_shape -> byte_size E out_shape <> 0 ->
        (forall e, MakeShapes g (c op) = Err e -> ProcessContraction N E g main op = Err e)
        /\ (Forall (bound_spec (vars_ g)) (specs (c op)) ->
            ~ (2 <= List.length (specs (c op)) <= 4)%nat ->
            ProcessContraction N E g main op = Err UnsupportedArity)
        /\ (forall shapes e,
              MakeShapes g (c op) = OK shapes ->
              CompileContraction E (c op) shapes = Err e ->
              ProcessContraction N E g main op = Err e)
        /\ (forall shapes cion range_cons e,
              MakeShapes g (c op) = OK shapes ->
              CompileContraction E (c op) shapes = OK (cion, range_cons) ->
              ComputeBounds E range_cons = Err e ->
              ProcessContraction N E g main op = Err e)).
Proof.
  split; [|split; [|split]].
  - intros Hall; destruct (MakeShapes_loop [] Hall) as (shapes & H & Hshapes).
    exists shapes; split; assumption.
  - intros pre sp post Hspecs Hpre Hsp; unfold MakeShapes; rewrite Hspecs, foldM_app.
    destruct (MakeShapes_loop [] Hpre) as (shapes & -> & _); simpl.
    unfold GetShape; rewrite Hsp; reflexivity.
  - intros Hout; unfold ProcessContraction, GetShape; rewrite Hout; reflexivity.
  - intros out_shape Hout Hnz; unfold ProcessContraction; rewrite Hout; cbn [bind].
    apply Z.eqb_neq in Hnz; rewrite Hnz.
    split; [|split; [|split]].
    + intros e ->; reflexivity.
    + intros Hall Harity; destruct (MakeShapes_loop [] Hall) as (shapes & Hms & _).
      unfold MakeShapes; rewrite Hms; cbn [bind app].
      rewrite (CompileContraction_bad_arity E (c op) shapes Harity); reflexivity.
    + intros shapes e -> Hcc; cbn [bind]; rewrite Hcc; reflexivity.
    + intros shapes cion range_cons e -> Hcc Hcb; cbn [bind]; rewrite Hcc; cbn [bind fst snd].
      rewrite Hcb; reflexivity.
Qed.

End ContractionFailures.

(** ** The value of an integerized polynomial *)

Lemma wrap64_mod (a b : Z) : wrap64 a = wrap64 b <-> a mod 2 ^ 64 = b mod 2 ^ 64.
Proof.
  unfold wrap64.
  replace (a mod 2 ^ 64) with (((a + 2 ^ 63) mod 2 ^ 64 + 2 ^ 63) mod 2 ^ 64).
  2: { rewrite Z.add_mod_idemp_l by lia; replace (a + 2 ^ 63 + 2 ^ 63) with (a + 1 * 2 ^ 64) by lia.
       apply Z.mod_add; lia. }
  replace (b mod 2 ^ 64) with (((b + 2 ^ 63) mod 2 ^ 64 + 2 ^ 63) mod 2 ^ 64).
  2: { rewrite Z.add_mod_idemp_l by lia; replace (b + 2 ^ 63 + 2 ^ 63) with (b + 1 * 2 ^ 64) by lia.
       apply Z.mod_add; lia. }
  pose proof (Z.mod_pos_bound (a + 2 ^ 63) (2 ^ 64) ltac:(lia)) as Ha.
  pose proof (Z.mod_pos_bound (b + 2 ^ 63) (2 ^ 64) ltac:(lia)) as Hb.
  set (x := (a + 2 ^ 63) mod 2 ^ 64) in *; set (y := (b + 2 ^ 63) mod 2 ^ 64) in *.
  clearbody x y; split; intros H; [f_equal; lia|].
  assert (x = y); [|lia].
  destruct (Z_lt_le_dec x (2 ^ 63)) as [Hx|Hx]; destruct (Z_lt_le_dec y (2 ^ 63)) as [Hy|Hy].
  - rewrite !Z.mod_small in H by lia; lia.
  - rewrite (Z.mod_small (x + _)) in H by lia.
    replace (y + 2 ^ 63) with ((y - 2 ^ 63) + 1 * 2 ^ 64) in H by lia.
    rewrite Z.mod_add, Z.mod_small in H by lia; lia.
  - rewrite (Z.mod_small (y + _)) in H by lia.
    replace (x + 2 ^ 63) with ((x - 2 ^ 63) + 1 * 2 ^ 64) in H by lia.
    rewrite Z.mod_add, Z.mod_small in H by lia; lia.
  - replace (x + 2 ^ 63) with ((x - 2 ^ 63) + 1 * 2 ^ 64) in H by lia.
    replace (y + 2 ^ 63) with ((y - 2 ^ 63) + 1 * 2 ^ 64) in H by lia.
    rewrite !Z.mod_add, !Z.mod_small in H by lia; lia.
Qed.

Lemma same64_refl (a : Z) : same64 a a.
Proof. reflexivity. Qed.

Lemma same64_sym (a b : Z) : same64 a b -> same64 b a.
Proof. unfold same64; congruence. Qed.

Lemma same64_trans (a b c : Z) : same64 a b -> same64 b c -> same64 a c.
Proof. unfold same64; congruence. Qed.

Lemma same64_wrap (a : Z) : same64 (wrap64 a) a.
Proof. apply wrap64_idem. Qed.

Lemma same64_add (a a' b b' : Z) : same64 a a' -> same64 b b' -> same64 (a + b) (a' + b').
Proof.
  unfold same64; rewrite !wrap64_mod; intros Ha Hb.
  rewrite (Z.add_mod a), (Z.add_mod a'), Ha, Hb by lia; reflexivity.
Qed.

Lemma same64_mul (a a' x : Z) : same64 a a' -> same64 (a * x) (a' * x).
Proof.
  unfold same64; rewrite !wrap64_mod; intros Ha.
  rewrite (Z.mul_mod a), (Z.mul_mod a'), Ha by lia; reflexivity.
Qed.

Lemma same64_opp (a a' : Z) : same64 a a' -> same64 (- a) (- a').
Proof.
  intros H; replace (- a) with (a * -1) by lia; replace (- a') with (a' * -1) by lia.
  apply same64_mul, H.
Qed.

Lemma same64_zero (v : Z) : wrap64 v = 0 -> same64 v 0.
Proof. unfold same64; intros H; rewrite H; reflexivity. Qed.

Lemma affine_value_cons (env : string -> Z) (k : string) (v : Z) (m : Affine) :
  affine_value env ((k, v) :: m) = v * index_value env k + affine_value env m.
Proof. reflexivity. Qed.

Lemma same64_term (acc v v' x : Z) : same64 v v' -> same64 (acc + v * x) (acc + v' * x).
Proof. intros H; apply same64_add; [reflexivity | apply same64_mul, H]. Qed.

Lemma same64_drop (acc v x : Z) : wrap64 v = 0 -> same64 acc (acc + v * x).
Proof.
  intros H; apply same64_sym.
  replace acc with (acc + 0 * x) at 2 by ring.
  apply same64_term, same64_zero, H.
Qed.

Lemma affine_value_add_term (env : string -> Z) (k : string) (v : Z) (m : Affine) :
  same64 (affine_value env (add_term k v m)) (affine_value env m + v * index_value env k).
Proof.
  induction m as [|[k' v'] m' IH]; cbn [add_term].
  - destruct (Z.eqb_spec (wrap64 v) 0) as [Hz|Hz].
    + apply same64_drop, Hz.
    + rewrite affine_value_cons, Z.add_comm; apply same64_term, same64_wrap.
  - destruct (String.compare k k') eqn:Hc.
    + apply compare_Eq in Hc; subst k'.
      rewrite affine_value_cons.
      replace (v' * index_value env k + affine_value env m' + v * index_value env k)
        with (affine_value env m' + (v' + v) * index_value env k) by ring.
      destruct (Z.eqb_spec (wrap64 (v' + v)) 0) as [Hz|Hz].
      * apply same64_drop, Hz.
      * rewrite affine_value_cons, Z.add_comm; apply same64_term, same64_wrap.
    + destruct (Z.eqb_spec (wrap64 v) 0) as [Hz|Hz].
      * apply same64_drop, Hz.
      * rewrite (affine_value_cons env k), Z.add_comm; apply same64_term, same64_wrap.
    + rewrite !affine_value_cons, <- Z.add_assoc.
      apply same64_add; [reflexivity | exact IH].
Qed.

Lemma affine_value_add (env : string -> Z) (b : Affine) :
  forall a,
    same64 (affine_value env (Affine_add a b)) (affine_value env a + affine_value env b).
Proof.
  unfold Affine_add; induction b as [|[k v] b' IH]; intros a; simpl.
  - unfold affine_value at 3; simpl; rewrite Z.add_0_r; reflexivity.
  - eapply same64_trans; [apply IH|].
    rewrite affine_value_cons, Z.add_assoc.
    apply same64_add; [apply affine_value_add_term | reflexivity].
Qed.

Lemma affine_value_sub (env : string -> Z) (b : Affine) :
  forall a,
    same64 (affine_value env (Affine_sub a b)) (affine_value env a - affine_value env b).
Proof.
  unfold Affine_sub; induction b as [|[k v] b' IH]; intros a; simpl.
  - unfold affine_value at 3; simpl; rewrite Z.sub_0_r; reflexivity.
  - eapply same64_trans; [apply IH|].
    rewrite affine_value_cons.
    replace (affine_value env a - (v * index_value env k + affine_value env b'))
      with ((affine_value env a + - v * index_value env k) + - affine_value env b') by ring.
    apply same64_add; [apply affine_value_add_term | reflexivity].
Qed.

Lemma affine_value_neg (env : string -> Z) (a : Affine) :
  same64 (affine_value env (Affine_neg a)) (- affine_value env a).
Proof.
  unfold Affine_neg; induction a as [|[k v] a' IH]; simpl; [reflexivity|].
  rewrite !affine_value_cons; cbn [fst snd].
  replace (- (v * index_value env k + affine_value env a'))
    with (- v * index_value env k + - affine_value env a') by ring.
  apply same64_add; [apply same64_mul, same64_wrap | exact IH].
Qed.

Lemma affine_value_of_int (env : string -> Z) (x : Z) :
  affine_value env (Affine_of_int x) = x.
Proof.
  unfold Affine_of_int; destruct (Z.eqb_spec x 0) as [->|_]; [reflexivity|].
  unfold affine_value, index_value; simpl; lia.
Qed.

Lemma affine_value_of_index (env : string -> Z) (i : string) (x : Z) :
  affine_value env (Affine_of_index i x) = x * index_value env i.
Proof.
  unfold Affine_of_index; destruct (Z.eqb_spec x 0) as [->|_]; [reflexivity|].
  unfold affine_value; simpl; lia.
Qed.

Section Values.

Variable E : Collaborators.
Variable bounds : IndexBounds.
Variable env : string -> Z.

Lemma Integerize_term_value (res res' : Affine) (term : string * Rational) :
  int_value E (snd term) = numerator (snd term) ->
  Integerize_term E bounds res term = OK res' ->
  same64 (affine_value env res')
    (affine_value env res
     + numerator (snd term) * index_value (rebased bounds env) (fst term)).
Proof.
  intros Hval; rewrite <- Hval; clear Hval.
  unfold Integerize_term, index_value, rebased.
  destruct (negb (denominator (snd term) =? 1)); [discriminate|].
  destruct (String.eqb (fst term) "") eqn:Hk.
  - intros H; inversion H; subst; clear H.
    eapply same64_trans; [apply affine_value_add|].
    rewrite affine_value_of_int, Z.mul_1_r; reflexivity.
  - destruct (find (fst term) bounds) as [b|]; [|discriminate].
    destruct (Z.eqb_spec (min b) (max b)) as [Hd|Hd]; simpl;
      intros H; inversion H; subst; clear H.
    + eapply same64_trans; [apply affine_value_add|].
      rewrite affine_value_of_int.
      apply same64_add; [reflexivity | apply same64_wrap].
    + eapply same64_trans; [apply affine_value_add|].
      rewrite affine_value_of_index.
      unfold index_value; rewrite Hk.
      replace (int_value E (snd term) * (min b + env (fst term)))
        with (int_value E (snd term) * min b + int_value E (snd term) * env (fst term))
        by ring.
      rewrite Z.add_assoc.
      apply same64_add; [|reflexivity].
      eapply same64_trans; [apply affine_value_add|].
      rewrite affine_value_of_int.
      apply same64_add; [reflexivity | apply same64_wrap].
Qed.

Lemma Integerize_loop_value (poly : Polynomial Rational) :
  Forall (fun t => int_value E (snd t) = numerator (snd t)) poly ->
  forall start a,
    foldM (Integerize_term E bounds) poly start = OK a ->
    same64 (affine_value env a) (affine_value env start + poly_value bounds env poly).
Proof.
  induction poly as [|term rest IH]; simpl; intros Hval start a H.
  - inversion H; subst; unfold poly_value; simpl; rewrite Z.add_0_r; reflexivity.
  - inversion_clear Hval as [|? ? Hv Hrest].
    inv_bind H as res Hres.
    eapply same64_trans; [apply (IH Hrest _ _ H)|].
    unfold poly_value; simpl; fold (poly_value bounds env rest).
    rewrite Z.add_assoc.
    apply same64_add; [exact (Integerize_term_value _ _ Hv Hres) | reflexivity].
Qed.

Lemma Integerize_same_value (poly : Polynomial Rational) (a : Affine) :
  exact_cast E -> int64_coeffs poly ->
  Integerize E poly bounds = OK a ->
  same64 (affine_value env a) (poly_value bounds env poly).
Proof.
  intros Hcast Hfit H.
  apply (Integerize_loop_value (int_values_exact Hcast Hfit)) in H; exact H.
Qed.

Lemma constraint_of_value (sc : SimpleConstraint) (con : Affine) :
  exact_cast E -> int64_coeffs (poly sc) ->
  constraint_of E bounds sc con ->
  same64 (affine_value env con) (rhs sc - poly_value bounds env (poly sc)).
Proof.
  intros Hcast Hfit (lhs & Hlhs & ->).
  eapply same64_trans; [apply affine_value_neg|].
  replace (rhs sc - poly_value bounds env (poly sc))
    with (- (poly_value bounds env (poly sc) - rhs sc)) by ring.
  apply same64_opp.
  eapply same64_trans; [apply affine_value_sub|].
  rewrite affine_value_of_int.
  apply same64_add; [exact (@Integerize_same_value (poly sc) lhs Hcast Hfit Hlhs) | reflexivity].
Qed.

End Values.
Lemma spec_access_each (E : Collaborators) (bounds : IndexBounds) (sp : TensorSpec)
    (acc : list Affine) :
  spec_access E bounds sp = OK acc ->
  Forall2 (fun poly a => Integerize E poly bounds = OK a) (spec sp) acc.
Proof.
  unfold spec_access.
  assert (Hloop : forall polys start res,
             foldM (fun acc poly => a <- Integerize E poly bounds ;; OK (acc ++ [a])) polys start
             = OK res ->
             exists l,
               res = start ++ l
               /\ Forall2 (fun poly a => Integerize E poly bounds = OK a) polys l).
  { induction polys as [|poly rest IH]; simpl; intros start res H.
    - inversion H; subst; exists []; split; [symmetry; apply app_nil_r | constructor].
    - inv_bind H as mid Hmid; inv_bind Hmid as a Ha; inversion Hmid; subst mid; clear Hmid.
      apply IH in H; destruct H as (l & -> & Hl).
      exists (a :: l); split; [rewrite <- app_assoc; reflexivity | constructor; assumption]. }
  intros H; apply Hloop in H; destruct H as (l & -> & Hl); exact Hl.
Qed.

Lemma Forall2_impl_Forall (A B : Type) (P : A -> Prop) (R Q : A -> B -> Prop)
    (l1 : list A) (l2 : list B) :
  (forall a b, P a -> R a b -> Q a b) ->
  Forall P l1 -> Forall2 R l1 l2 -> Forall2 Q l1 l2.
Proof.
  intros HQ HP HR; induction HR as [|a b l1' l2' Hab _ IH]; [constructor|].
  inversion_clear HP as [|? ? Ha Hrest]; constructor; auto.
Qed.

(** X19.  An integerized polynomial has, as an [int64_t], the value of
    the polynomial it was made from, the coefficient of a term being its
    numerator: with the indexes of the kernel at [env], each index of the
    polynomial is its minimum plus the index of the kernel, and an index
    with one value only is that value.  This holds when the numerators are
    values an [int64_t] holds, which the cast of line 459 returns
    unchanged; the wrap-around of the steps of [Integerize] leaves the
    value unchanged. *)
Theorem Integerize_value (E : Collaborators) (poly : Polynomial Rational)
    (bounds : IndexBounds) (a : Affine) :
  Integerize E poly bounds = OK a ->
  exact_cast E ->
  int64_coeffs poly ->
  forall env : string -> Z,
    wrap64 (affine_value env a) = wrap64 (poly_value bounds env poly).
Proof.
  intros H Hcast Hfit env; exact (@Integerize_same_value E bounds env poly a Hcast Hfit H).
Qed.

Section ContractionValues.

Variable N : Names.
Variable E : Collaborators.
Variable g : StripeGenerator.

(** X20.  What the kernel of a contraction reads, writes and tests: the
    refinements are those of the output spec and of the input specs that
    are not inlined constants, in order, each accessing its tensor at the
    values of the polynomials of the spec, and the constraints are those of
    the solved bounds, in order, the value of each being [rhs - poly]; all
    values as [int64_t], with every index counted from its minimum and the
    numerators as coefficients, which are values an [int64_t] holds and
    the cast returns unchanged. *)
Theorem contraction_values (main : Block) (op : Op) (main' : Block)
    (out_shape : TensorShape) (shapes : list TensorShape) (cion : Contraction)
    (range_cons : list RangeConstraint) (bounds : IndexBounds)
    (simple_cons : list SimpleConstraint) (out : TensorSpec) (ins : list TensorSpec) :
  ProcessContraction N E g main op = OK main' ->
  GetShape g (output op) = OK out_shape ->
  byte_size E out_shape <> 0 ->
  MakeShapes g (c op) = OK shapes ->
  CompileContraction E (c op) shapes = OK (cion, range_cons) ->
  ComputeBounds E range_cons = OK (bounds, simple_cons) ->
  specs cion = out :: ins ->
  exact_cast E ->
  Forall (fun sp => Forall int64_coeffs (spec sp)) (specs cion) ->
  Forall (fun sc => int64_coeffs (poly sc)) simple_cons ->
  exists kernel pre,
    stmts main' = stmts main ++ pre ++ [BlockStmt kernel]
    /\ Forall2
         (fun sp r =>
            from r = id sp
            /\ Forall2
                 (fun poly a =>
                    forall env : string -> Z,
                      wrap64 (affine_value env a) = wrap64 (poly_value bounds env poly))
                 (spec sp) (access r))
         (out :: loaded_specs (vars_ g) ins) (refs kernel)
    /\ Forall2
         (fun sc con =>
            forall env : string -> Z,
              wrap64 (affine_value env con)
              = wrap64 (rhs sc - poly_value bounds env (poly sc)))
         simple_cons (constraints kernel).
Proof.
  intros H Hshape Hnz Hms Hcc Hcb Hspecs Hcast Hfit Hfitc.
  destruct (ProcessContraction_closed N E g main op H Hshape Hnz)
    as (shape0 & shapes' & cion' & range_cons' & bounds' & simple_cons' & kernel & init
        & Hms' & Hcc' & Hcb' & _ & -> & _ & _ & _ & _ & _ & _ & Hrefs & Hof).
  rewrite Hms in Hms'; inversion Hms'; subst shapes; clear Hms'.
  rewrite Hcc in Hcc'; inversion Hcc'; subst cion' range_cons'; clear Hcc'.
  rewrite Hcb in Hcb'; inversion Hcb'; subst bounds' simple_cons'; clear Hcb'.
  rewrite Hspecs in Hrefs, Hfit.
  destruct Hrefs as (acc & shape & rs & Hacc & _ & Hr & Hins).
  inversion_clear Hfit as [|? ? Hfit_out Hfit_ins].
  assert (Heach : forall sp l,
             Forall int64_coeffs (spec sp) ->
             spec_access E bounds sp = OK l ->
             Forall2
               (fun poly a =>
                  forall env : string -> Z,
                    wrap64 (affine_value env a) = wrap64 (poly_value bounds env poly))
               (spec sp) l).
  { intros sp l Hsp Hl; apply spec_access_each in Hl.
    apply (Forall2_impl_Forall (P := int64_coeffs)
             (R := fun poly a => Integerize E poly bounds = OK a)); [|exact Hsp | exact Hl].
    intros poly a Hp Ha env; exact (@Integerize_same_value E bounds env poly a Hcast Hp Ha). }
  eexists kernel, _; split; [reflexivity|]; split.
  - rewrite Hr; constructor; [split; [reflexivity | exact (Heach _ _ Hfit_out Hacc)]|].
    assert (Hloaded : Forall (fun sp => Forall int64_coeffs (spec sp))
                        (loaded_specs (vars_ g) ins)).
    { apply Forall_forall; intros sp Hsp; apply filter_In in Hsp.
      rewrite Forall_forall in Hfit_ins; apply Hfit_ins, Hsp. }
    apply (Forall2_impl_Forall (P := fun sp => Forall int64_coeffs (spec sp))
             (R := contraction_in_ref E g bounds)); [|exact Hloaded | exact Hins].
    intros sp r Hl (_ & Hfrom & _ & Hsp & _).
    split; [exact Hfrom | exact (Heach _ _ Hl Hsp)].
  - apply (Forall2_impl_Forall (P := fun sc => int64_coeffs (poly sc))
             (R := constraint_of E bounds)); [|exact Hfitc | exact Hof].
    intros sc con Hp Hc env; exact (@constraint_of_value E bounds env sc con Hcast Hp Hc).
Qed.

End ContractionValues.

(** ** When a contraction is lowered *)

Lemma NeedsInitialize_dims_defined (block : Block) (front : Refinement)
    (rs : list Refinement) :
  refs block = front :: rs ->
  Forall (uses_declared block) (access front) ->
  forall out_dims i out_idxs,
    (i + List.length out_dims <= List.length (access front))%nat ->
    exists r, NeedsInitialize_dims block out_dims i out_idxs = OK r.
Proof.
  intros Hrefs Hdecl; induction out_dims as [|d rest IH]; intros i out_idxs Hlen;
    cbn [NeedsInitialize_dims]; [eauto|].
  rewrite Hrefs; cbn [List.length] in Hlen.
  destruct (nth_error (access front) i) as [affine|] eqn:Hnth.
  2: { apply nth_error_None in Hnth; lia. }
  assert (Hd : uses_declared block affine).
  { rewrite Forall_forall in Hdecl; apply Hdecl; eapply nth_error_In; eassumption. }
  destruct (Nat.eqb (List.length affine) 0 && (size d =? 1)); [apply IH; lia|].
  destruct (negb (constant affine =? 0) || negb (Nat.eqb (List.length affine) 1))
    eqn:Hsingle; [eauto|].
  apply orb_false_iff in Hsingle; destruct Hsingle as [Hc Hl].
  apply negb_false_iff, Z.eqb_eq in Hc.
  destruct affine as [|[idx mult] more]; [discriminate|].
  destruct (negb (mult =? 1)) eqn:Hm; [eauto|].
  apply negb_false_iff, Z.eqb_eq in Hm.
  destruct (count idx out_idxs); [eauto|].
  destruct (Hd idx) as (ix & Hix & _); [left; reflexivity| |].
  - intros ->; unfold constant in Hc; simpl in Hc; lia.
  - rewrite Hix; destruct (negb (range ix =? size d)); [eauto | apply IH; lia].
Qed.

Section ContractionOutcome.

Variable N : Names.
Variable E : Collaborators.
Variable g : StripeGenerator.
Variable bounds : IndexBounds.

Lemma Integerize_ok_terms (poly : Polynomial Rational) :
  forall acc a,
    foldM (Integerize_term E bounds) poly acc = OK a ->
    integerizable bounds poly.
Proof.
  unfold integerizable, integer_terms, bounded_terms.
  induction poly as [|t rest IH]; simpl; intros acc a H; [split; constructor|].
  inv_bind H as a1 Ha1; apply IH in H; destruct H as [Hi Hb].
  unfold Integerize_term in Ha1.
  destruct (Z.eqb_spec (denominator (snd t)) 1) as [Hden|]; [|discriminate]; simpl in Ha1.
  split; constructor; try assumption.
  intros Hne; apply String.eqb_neq in Hne; rewrite Hne in Ha1.
  destruct (find (fst t) bounds); [discriminate | discriminate].
Qed.

Lemma spec_access_total (sp : TensorSpec) :
  Forall (integerizable bounds) (spec sp) -> exists acc, spec_access E bounds sp = OK acc.
Proof.
  unfold spec_access; intros H.
  assert (Hloop : forall polys start,
             Forall (integerizable bounds) polys ->
             exists acc,
               foldM (fun acc poly => a <- Integerize E poly bounds ;; OK (acc ++ [a]))
                 polys start = OK acc).
  { induction polys as [|poly rest IH]; simpl; intros start Hall; [eauto|].
    inversion_clear Hall as [|? ? [Hi Hb] Hrest].
    destruct (Integerize_prefix E Hi Hb []) as [a Ha].
    unfold Integerize at 1; rewrite Ha; simpl; auto. }
  apply Hloop, H.
Qed.

Lemma spec_access_terms (sp : TensorSpec) (acc : list Affine) :
  spec_access E bounds sp = OK acc -> Forall (integerizable bounds) (spec sp).
Proof.
  intros H; apply spec_access_each in H.
  induction H as [|poly a polys l Ha _ IH]; constructor; [|exact IH].
  exact (Integerize_ok_terms _ _ Ha).
Qed.

Lemma spec_access_errors (sp : TensorSpec) (e : error) :
  spec_access E bounds sp = Err e -> e = NonIntegerTerm \/ e = OutOfRange.
Proof.
  unfold spec_access.
  assert (Hloop : forall polys start,
             foldM (fun acc poly => a <- Integerize E poly bounds ;; OK (acc ++ [a]))
               polys start = Err e ->
             e = NonIntegerTerm \/ e = OutOfRange).
  { induction polys as [|poly rest IH]; simpl; intros start H; [discriminate|].
    destruct (Integerize E poly bounds) as [a|e1] eqn:Ha; simpl in H; [eauto|].
    inversion H; subst e1; exact (Integerize_errors E _ _ _ Ha). }
  apply Hloop.
Qed.

Lemma contraction_spec_outcome (cion : Contraction) (i : nat) (k : Block)
    (si : list string) (sp : TensorSpec) :
  match contraction_spec N E g cion bounds i k si sp with
  | OK _ => lowerable g bounds sp
  | Err e =>
      ~ lowerable g bounds sp
      /\ ((exists n, e = UnknownShape n) \/ e = NonIntegerTerm \/ e = OutOfRange)
  end.
Proof.
  unfold contraction_spec, ScalarShape, lowerable.
  destruct (find (id sp) (vars_ g)) as [b|] eqn:Hb; simpl.
  2: { split; [intros [Hne _]; congruence | eauto]. }
  destruct (spec_access E bounds sp) as [acc|e] eqn:Hacc; simpl.
  - assert (Hl : Some b <> None /\ Forall (integerizable bounds) (spec sp)).
    { split; [discriminate | exact (spec_access_terms _ Hacc)]. }
    destruct (Nat.eqb i 0); [exact Hl|].
    destruct (btag b); exact Hl.
  - split; [|right; exact (spec_access_errors _ Hacc)].
    intros [_ Hall]; destruct (spec_access_total _ Hall) as [acc Hacc']; congruence.
Qed.

Lemma contraction_specs_outcome (cion : Contraction) (sps : list TensorSpec) :
  forall i k si,
    match contraction_specs N E g cion bounds i sps k si with
    | OK _ => Forall (lowerable g bounds) sps
    | Err e =>
        ~ Forall (lowerable g bounds) sps
        /\ ((exists n, e = UnknownShape n) \/ e = NonIntegerTerm \/ e = OutOfRange)
    end.
Proof.
  induction sps as [|sp rest IH]; intros i k si; cbn [contraction_specs]; [constructor|].
  pose proof (contraction_spec_outcome cion i k si sp) as Hsp.
  destruct (contraction_spec N E g cion bounds i k si sp) as [st|e]; simpl.
  - specialize (IH (S i) (fst st) (snd st)).
    destruct (contraction_specs N E g cion bounds (S i) rest (fst st) (snd st)).
    + constructor; assumption.
    + destruct IH as [Hno He]; split; [|exact He].
      intros Hall; inversion Hall; auto.
  - destruct Hsp as [Hno He]; split; [|exact He].
    intros Hall; inversion Hall; auto.
Qed.

Lemma contraction_constraints_outcome (simple_cons : list SimpleConstraint) :
  forall k,
    match foldM (contraction_constraint E bounds) simple_cons k with
    | OK _ => Forall (fun sc => integerizable bounds (poly sc)) simple_cons
    | Err e =>
        ~ Forall (fun sc => integerizable bounds (poly sc)) simple_cons
        /\ (e = NonIntegerTerm \/ e = OutOfRange)
    end.
Proof.
  induction simple_cons as [|sc rest IH]; intros k; simpl; [constructor|].
  unfold contraction_constraint at 1.
  destruct (Integerize E (poly sc) bounds) as [lhs|e] eqn:Hlhs; simpl.
  - specialize (IH (push_constraint k
                      (Affine_neg (Affine_sub lhs (Affine_of_int (rhs sc)))))).
    destruct (foldM _ rest _).
    + constructor; [exact (Integerize_ok_terms _ _ Hlhs) | exact IH].
    + destruct IH as [Hno He]; split; [|exact He].
      intros Hall; inversion Hall; auto.
  - split; [|exact (Integerize_errors E _ _ _ Hlhs)].
    intros Hall; inversion_clear Hall as [|? ? [Hi Hb] _].
    destruct (Integerize_prefix E Hi Hb []) as [a Ha]; unfold Integerize in Hlhs; congruence.
Qed.

End ContractionOutcome.
Section ContractionRuns.

Variable N : Names.
Variable E : Collaborators.
Variable g : StripeGenerator.

(** The three steps of [ProcessContraction] that can fail after the bounds
    are solved. *)
Lemma ProcessContraction_steps (main : Block) (op : Op) (out_shape shape0 : TensorShape)
    (rest : list TensorShape) (cion : Contraction) (range_cons : list RangeConstraint)
    (bounds : IndexBounds) (simple_cons : list SimpleConstraint) :
  GetShape g (output op) = OK out_shape ->
  byte_size E out_shape <> 0 ->
  MakeShapes g (c op) = OK (shape0 :: rest) ->
  CompileContraction E (c op) (shape0 :: rest) = OK (cion, range_cons) ->
  ComputeBounds E range_cons = OK (bounds, simple_cons) ->
  match contraction_specs N E g cion bounds 0 (specs cion)
          (contraction_kernel0 N E main op cion) [] with
  | Err e => ProcessContraction N E g main op = Err e
  | OK st =>
      match foldM (contraction_constraint E bounds) simple_cons
              (fold_left contraction_idx bounds (fst st)) with
      | Err e => ProcessContraction N E g main op = Err e
      | OK k3 =>
          match NeedsInitialize k3 shape0 with
          | Err e => ProcessContraction N E g main op = Err e
          | OK _ => exists main', ProcessContraction N E g main op = OK main'
          end
      end
  end.
Proof.
  intros Hshape Hnz Hms Hcc Hcb.
  unfold ProcessContraction; rewrite Hshape; cbn [bind].
  apply Z.eqb_neq in Hnz; rewrite Hnz, Hms; cbn [bind].
  rewrite Hcc; cbn [bind fst snd]; rewrite Hcb; cbn [bind fst snd].
  fold (contraction_kernel0 N E main op cion).
  destruct (contraction_specs N E g cion bounds 0 (specs cion)
              (contraction_kernel0 N E main op cion) []) as [st|e]; cbn [bind]; [|reflexivity].
  destruct (foldM (contraction_constraint E bounds) simple_cons
              (fold_left contraction_idx bounds (fst st))) as [k3|e]; cbn [bind]; [|reflexivity].
  destruct (NeedsInitialize k3 shape0) as [init|e]; cbn [bind]; [eauto | reflexivity].
Qed.

Lemma contraction_NeedsInitialize_defined (main : Block) (op : Op) (cion : Contraction)
    (bounds : IndexBounds) (simple_cons : list SimpleConstraint) (k1 k3 : Block)
    (si : list string) (out : TensorSpec) (ins : list TensorSpec) (shape0 : TensorShape) :
  contraction_specs N E g cion bounds 0 (specs cion)
    (contraction_kernel0 N E main op cion) [] = OK (k1, si) ->
  foldM (contraction_constraint E bounds) simple_cons (fold_left contraction_idx bounds k1)
    = OK k3 ->
  int64_bounds bounds ->
  specs cion = out :: ins ->
  (List.length (dims shape0) <= List.length (spec out))%nat ->
  exists init, NeedsInitialize k3 shape0 = OK init.
Proof.
  intros Hspecs Hcons H64 Hout Hlen.
  destruct (contraction_kernel_built N E g main op cion bounds simple_cons Hspecs Hcons)
    as (_ & cons & rs & ss & -> & _ & _ & Hrs).
  rewrite Hout in Hrs; destruct Hrs as (acc & shape & rs' & Hacc & _ & -> & _).
  set (k3 := mkBlock _ _ _ _ _ _ _).
  pose proof (@spec_access_each E bounds out acc Hacc) as Heach.
  destruct (@NeedsInitialize_dims_defined k3 (output_ref N cion out acc shape) rs' eq_refl)
    with (out_dims := dims shape0) (i := 0%nat) (out_idxs := @nil string) as [r Hr].
  - cbn [access output_ref].
    apply (@spec_access_all E (uses_declared k3) bounds out acc); [|exact Hacc].
    intros poly a Ha; exact (@Integerize_declared E poly bounds a k3 H64 eq_refl Ha).
  - cbn [access output_ref]; rewrite <- (Forall2_length Heach); simpl; exact Hlen.
  - unfold NeedsInitialize; rewrite Hr; cbn [bind]; destruct r; eauto.
Qed.

(** X21.  A contraction that is not skipped and whose bounds are solved
    is lowered exactly when every spec of the compiled contraction names a
    bound tensor and has polynomials [Integerize] accepts, and so has every
    simple constraint; otherwise the exception is that of an unknown shape
    or one of the two of [Integerize].  This holds when the bounds are
    [int64_t] values and the compiled output spec has a polynomial for each
    dimension of the output shape: then [NeedsInitialize] finds every access
    and every index it looks up. *)
Theorem ProcessContraction_outcome (main : Block) (op : Op) (out_shape shape0 : TensorShape)
    (rest : list TensorShape) (cion : Contraction) (range_cons : list RangeConstraint)
    (bounds : IndexBounds) (simple_cons : list SimpleConstraint)
    (out : TensorSpec) (ins : list TensorSpec) :
  GetShape g (output op) = OK out_shape ->
  byte_size E out_shape <> 0 ->
  MakeShapes g (c op) = OK (shape0 :: rest) ->
  CompileContraction E (c op) (shape0 :: rest) = OK (cion, range_cons) ->
  ComputeBounds E range_cons = OK (bounds, simple_cons) ->
  int64_bounds bounds ->
  specs cion = out :: ins ->
  (List.length (dims shape0) <= List.length (spec out))%nat ->
  ((exists main', ProcessContraction N E g main op = OK main') <->
   Forall (lowerable g bounds) (specs cion)
   /\ Forall (fun sc => integerizable bounds (poly sc)) simple_cons)
  /\ (forall e,
        ProcessContraction N E g main op = Err e ->
        (exists n, e = UnknownShape n) \/ e = NonIntegerTerm \/ e = OutOfRange).
Proof.
  intros Hshape Hnz Hms Hcc Hcb H64 Hout Hlen.
  pose proof (ProcessContraction_steps main op Hshape Hnz Hms Hcc Hcb) as Hsteps.
  pose proof (contraction_specs_outcome N E g bounds cion (specs cion) 0
                (contraction_kernel0 N E main op cion) []) as Hsp.
  destruct (contraction_specs N E g cion bounds 0 (specs cion)
              (contraction_kernel0 N E main op cion) []) as [[k1 si]|e1] eqn:Hspecs.
  - cbn [fst] in Hsteps.
    pose proof (contraction_constraints_outcome E bounds simple_cons
                  (fold_left contraction_idx bounds k1)) as Hsc.
    destruct (foldM (contraction_constraint E bounds) simple_cons
                (fold_left contraction_idx bounds k1)) as [k3|e2] eqn:Hcons.
    + destruct (@contraction_NeedsInitialize_defined main op cion bounds simple_cons k1 k3 si
                  out ins shape0 Hspecs Hcons H64 Hout Hlen)
        as [init Hinit].
      rewrite Hinit in Hsteps; destruct Hsteps as [main' Hrun].
      split; [split; eauto|].
      intros e He; congruence.
    + destruct Hsc as [Hno He2]; split.
      * split; [intros [main' Hrun]; congruence | intros [_ Hall]; contradiction].
      * intros e He; rewrite Hsteps in He; inversion He; subst e; auto.
  - destruct Hsp as [Hno He1]; split.
    + split; [intros [main' Hrun]; congruence | intros [Hall _]; contradiction].
    + intros e He; rewrite Hsteps in He; inversion He; subst e; exact He1.
Qed.

End ContractionRuns.

(** ** Scalars and refinements in scope *)

Lemma ScalarName_inj (a b : string) : ScalarName a = ScalarName b -> a = b.
Proof. unfold ScalarName; simpl; intros H; inversion H; reflexivity. Qed.

Lemma input_stmt_cases (vars : Bindings) (n : string) :
  (is_inlined vars n = true /\ exists v, input_stmt vars n = Constant (ScalarName n) v)
  \/ (is_inlined vars n = false /\ input_stmt vars n = Load n (ScalarName n)).
Proof.
  unfold is_inlined, input_stmt; destruct (find n vars) as [b|]; [|auto].
  destruct (btag b); eauto.
Qed.

(** The statements that bring the inputs in are in scope when every input
    that is loaded has an In refinement; what follows them sees the scalars
    of all the inputs. *)
Lemma scoped_inputs (vars : Bindings) (ins outs : list string) (rest : list Statement)
    (names : list string) :
  forall defined,
    (forall n, In n names -> is_inlined vars n = false -> In n ins) ->
    scoped ins outs (rev (map ScalarName names) ++ defined) rest ->
    scoped ins outs defined (map (input_stmt vars) names ++ rest).
Proof.
  induction names as [|n more IH]; intros defined Hins Hrest; [exact Hrest|].
  assert (Hmore : scoped ins outs (ScalarName n :: defined)
                    (map (input_stmt vars) more ++ rest)).
  { apply IH; [intros m Hm; apply Hins; right; exact Hm|].
    simpl in Hrest; rewrite <- app_assoc in Hrest; exact Hrest. }
  cbn [map app].
  destruct (input_stmt_cases vars n) as [[_ [v ->]]|[Hload ->]]; cbn [scoped]; [exact Hmore|].
  split; [apply Hins; [left; reflexivity | exact Hload] | exact Hmore].
Qed.

(** Conversely, a store after them reads one of their scalars or one
    defined before. *)
Lemma scoped_inputs_store (vars : Bindings) (ins outs : list string) (a b : string)
    (names : list string) :
  forall defined,
    scoped ins outs defined (map (input_stmt vars) names ++ [Store a b]) ->
    In a (map ScalarName names) \/ In a defined.
Proof.
  induction names as [|n more IH]; intros defined H.
  - destruct H as [H _]; auto.
  - cbn [map app] in H.
    assert (Hmore : scoped ins outs (ScalarName n :: defined)
                      (map (input_stmt vars) more ++ [Store a b])).
    { destruct (input_stmt_cases vars n) as [[_ [v Hs]]|[_ Hs]]; rewrite Hs in H;
        cbn [scoped] in H; [exact H | exact (proj2 H)]. }
    apply IH in Hmore; simpl; destruct Hmore as [Hm|[Hm|Hm]]; auto.
Qed.

Section ScopedKernels.

Variable N : Names.
Variable E : Collaborators.
Variable g : StripeGenerator.

Lemma eltwise_in_refs_refined (out_shape : TensorShape) (inputs : list string)
    (n : string) (tail : list Refinement) :
  Forall (usable_input (vars_ g)) inputs ->
  In n inputs -> is_inlined (vars_ g) n = false ->
  In n (map into (filter (is_dir RefIn) (eltwise_in_refs g out_shape inputs ++ tail))).
Proof.
  intros Hall Hin Hload.
  rewrite Forall_forall in Hall; destruct (Hall n Hin) as (b & Hb & Hne).
  apply in_map_iff; exists (eltwise_in_ref g out_shape n b); split; [reflexivity|].
  apply filter_In; split; [|reflexivity].
  apply in_or_app; left; unfold eltwise_in_refs; apply in_flat_map.
  exists n; split; [exact Hin|]; rewrite Hb.
  unfold is_inlined in Hload; rewrite Hb in Hload.
  unfold is_tensor_binding; destruct (btag b); try discriminate; [left; reflexivity | congruence].
Qed.

(** X22.  The kernel of an elementwise operation is in scope: every load
    reads a tensor the kernel has an In refinement for, the intrinsic reads
    only scalars that the loads and constants before it wrote, and the
    store reads the scalar the intrinsic wrote and writes the tensor of the
    Out refinement. *)
Theorem eltwise_kernel_scoped (main : Block) (op : Op) (main' : Block) :
  ProcessElementwise E g main op = OK main' ->
  exists kernel,
    stmts main' = stmts main ++ [BlockStmt kernel]
    /\ well_scoped kernel.
Proof.
  intros H; apply ProcessElementwise_closed in H; destruct H as (b & Hout & Hall & ->).
  eexists; split; [reflexivity|].
  unfold well_scoped, refined, eltwise_kernel; cbn [refs stmts].
  apply scoped_inputs.
  - intros n Hin Hload; exact (@eltwise_in_refs_refined (shape b) (inputs op) n _ Hall Hin Hload).
  - cbn [scoped]; split; [|split; [|split; [|exact I]]].
    + intros x Hx; apply in_or_app; left; apply in_rev in Hx; exact Hx.
    + left; reflexivity.
    + rewrite filter_app, map_app; apply in_or_app; right; left; reflexivity.
Qed.

Lemma Forall2_In_left (A B : Type) (R : A -> B -> Prop) (l1 : list A) (l2 : list B) (a : A) :
  Forall2 R l1 l2 -> In a l1 -> exists b, In b l2 /\ R a b.
Proof.
  induction 1 as [|x y l1' l2' Hxy _ IH]; intros Hin; [contradiction|].
  destruct Hin as [->|Hin]; [exists y; split; [left; reflexivity | exact Hxy]|].
  destruct (IH Hin) as (b & Hb & Hab); exists b; split; [right; exact Hb | exact Hab].
Qed.

(** X23.  The kernel of a contraction whose output spec names the output
    of the operation, and is not also an input, is in scope exactly when
    the combination writes the scalar that the store reads: with one input
    at most it is assigned, with more it is the result of the combination,
    and a combination without an intrinsic leaves it unwritten.  The loads
    read tensors that have an In refinement, and the store writes the
    tensor of the Out refinement. *)
Theorem contraction_kernel_scoped (main : Block) (op : Op) (main' : Block)
    (out_shape : TensorShape) (shapes : list TensorShape) (cion : Contraction)
    (range_cons : list RangeConstraint) (bounds : IndexBounds)
    (simple_cons : list SimpleConstraint) (out : TensorSpec) (ins : list TensorSpec) :
  ProcessContraction N E g main op = OK main' ->
  GetShape g (output op) = OK out_shape ->
  byte_size E out_shape <> 0 ->
  MakeShapes g (c op) = OK shapes ->
  CompileContraction E (c op) shapes = OK (cion, range_cons) ->
  ComputeBounds E range_cons = OK (bounds, simple_cons) ->
  specs cion = out :: ins ->
  id out = output op ->
  ~ In (output op) (map id ins) ->
  exists kernel pre,
    stmts main' = stmts main ++ pre ++ [BlockStmt kernel]
    /\ (well_scoped kernel <->
        (List.length ins <= 1)%nat \/ GetComboOp N (comb_op cion) <> "").
Proof.
  intros H Hshape Hnz Hms Hcc Hcb Hspecs Hid Hfresh.
  destruct (ProcessContraction_closed N E g main op H Hshape Hnz)
    as (shape0 & shapes' & cion' & range_cons' & bounds' & simple_cons' & kernel & init
        & Hms' & Hcc' & Hcb' & _ & -> & _ & _ & _ & _ & _ & Hstmts & Hrefs & _).
  rewrite Hms in Hms'; inversion Hms'; subst shapes; clear Hms'.
  rewrite Hcc in Hcc'; inversion Hcc'; subst cion' range_cons'; clear Hcc'.
  rewrite Hcb in Hcb'; inversion Hcb'; subst bounds' simple_cons'; clear Hcb'.
  rewrite Hspecs in Hrefs, Hstmts; destruct Hrefs as (acc & shape & rs & _ & _ & Hr & Hins).
  cbn [tl] in Hstmts.
  assert (Hsi : scalar_names ins = map ScalarName (map id ins)).
  { unfold scalar_names; rewrite map_map; reflexivity. }
  assert (Hlen : List.length (scalar_names ins) = List.length ins).
  { unfold scalar_names; apply length_map. }
  eexists kernel, _; split; [reflexivity|].
  unfold well_scoped, refined; rewrite Hstmts, Hr; cbn [filter is_dir dir output_ref map into].
  unfold combination_stmts; rewrite Hlen; split.
  - intros Hsc.
    destruct (Nat.ltb_spec 1 (List.length ins)) as [Hmany|Hfew]; [|left; exact Hfew].
    right; intros Hnone; rewrite Hnone in Hsc; cbn [String.eqb app] in Hsc.
    apply scoped_inputs_store in Hsc; destruct Hsc as [Hsc|[]].
    apply in_map_iff in Hsc; destruct Hsc as (n & Heq & Hn).
    apply ScalarName_inj in Heq; subst n; contradiction.
  - intros Hok; apply scoped_inputs.
    + intros n Hn Hload.
      apply in_map_iff in Hn; destruct Hn as (sp & <- & Hsp).
      assert (Hl : In sp (loaded_specs (vars_ g) ins)).
      { apply filter_In; split; [exact Hsp | rewrite Hload; reflexivity]. }
      destruct (@Forall2_In_left _ _ _ _ _ sp Hins Hl) as (r & Hr' & Hd & _ & Hinto & _).
      apply in_map_iff; exists r; split; [exact Hinto|].
      apply filter_In; split; [exact Hr' | unfold is_dir; rewrite Hd; reflexivity].
    + rewrite app_nil_r, Hsi.
      assert (Hstore : forall nm,
                 scoped (map into (filter (is_dir RefIn) rs))
                   (id out :: map into (filter (is_dir RefOut) rs))
                   (rev (map ScalarName (map id ins)))
                   ([Intrinsic nm (map ScalarName (map id ins))
                       [String.append "$" (output op)]]
                    ++ [Store (ScalarName (output op)) (output op)])).
      { intros nm; cbn [app scoped]; split; [|split; [|split; [|exact I]]].
        - intros x Hx; apply in_rev; rewrite rev_involutive; exact Hx.
        - left; reflexivity.
        - left; exact Hid. }
      destruct (Nat.ltb_spec 1 (List.length ins)) as [Hmany|Hfew]; [|apply Hstore].
      destruct (String.eqb_spec (GetComboOp N (comb_op cion)) "") as [Hnone|_]; [|apply Hstore].
      destruct Hok as [Hfew|Hsome]; [lia | contradiction].
Qed.

End ScopedKernels.

(** * The statements on the sample programs *)

(** ** Integerize *)

Example Integerize_sample :
  Integerize eltwise_collaborators sample_poly sample_bounds = OK [("", 13); ("i", 2)].
Proof. reflexivity. Qed.

Lemma sample_poly_sorted : sorted_keys (keys sample_poly).
Proof. repeat constructor. Qed.

Lemma sample_bounds_cover : covers sample_bounds sample_poly.
Proof.
  intros i q Hin Hi; simpl in Hin.
  destruct Hin as [H|[H|[H|[]]]]; inversion H; subst; [congruence | | ]; discriminate.
Qed.

Lemma sample_poly_integer : ~ Exists (@non_integer) sample_poly.
Proof.
  intros H; apply Exists_exists in H; destruct H as (t & Hin & Ht); simpl in Hin.
  destruct Hin as [<-|[<-|[<-|[]]]]; apply Ht; reflexivity.
Qed.

Lemma sample_cast : exact_cast eltwise_collaborators.
Proof. intros z _; reflexivity. Qed.

Lemma sample_poly_int64 : int64_coeffs sample_poly.
Proof. repeat constructor; simpl; unfold in_int64; lia. Qed.

(** 5 + 2 i + 3 j with i in [1, 4] and j in [2, 2]: the constant is
    5 + 2 * 1 + 3 * 2, i keeps its 2 and j has no entry. *)
Lemma Integerize_spec_witness :
  sorted_keys (keys sample_poly)
  /\ covers sample_bounds sample_poly
  /\ exact_cast eltwise_collaborators
  /\ int64_coeffs sample_poly
  /\ const_term sample_poly + shift_sum sample_bounds sample_poly = 13
  /\ kept_coeff sample_bounds sample_poly "i" = Some 2
  /\ kept_coeff sample_bounds sample_poly "j" = None
  /\ ((exists e, Integerize eltwise_collaborators sample_poly sample_bounds = Err e)
      <-> Exists (@non_integer) sample_poly)
  /\ exists a,
       Integerize eltwise_collaborators sample_poly sample_bounds = OK a
       /\ constant a = wrap64 (const_term sample_poly + shift_sum sample_bounds sample_poly)
       /\ (in_int64 (const_term sample_poly + shift_sum sample_bounds sample_poly) ->
           constant a = const_term sample_poly + shift_sum sample_bounds sample_poly)
       /\ forall i, i <> "" -> find i a = kept_coeff sample_bounds sample_poly i.
Proof.
  split; [exact sample_poly_sorted|]; split; [exact sample_bounds_cover|].
  split; [exact sample_cast|]; split; [exact sample_poly_int64|].
  split; [reflexivity|]; split; [reflexivity|]; split; [reflexivity|].
  destruct (Integerize_spec eltwise_collaborators sample_poly_sorted sample_bounds_cover)
    as (Hiff & _ & Hok).
  split; [exact Hiff|].
  destruct (Hok sample_poly_integer) as (a & Ha & Hprops).
  exists a; split; [exact Ha | exact (Hprops sample_cast sample_poly_int64)].
Defined.

(** ** NeedsInitialize *)

Lemma NeedsInitialize_output_only_witness :
  NeedsInitialize_dims output_constrained_kernel (dims shape_4) 0 [] = OK (Some ["i"])
  /\ (NeedsInitialize output_constrained_kernel shape_4 = OK true <->
      exists con, In con (constraints output_constrained_kernel) /\ output_only ["i"] con)
  /\ (NeedsInitialize output_constrained_kernel shape_4 = OK false <->
      ~ exists con, In con (constraints output_constrained_kernel) /\ output_only ["i"] con).
Proof.
  split; [reflexivity|].
  exact (@NeedsInitialize_output_only output_constrained_kernel shape_4 ["i"] eq_refl).
Defined.

(** The kernel constrained on [k] alone: the constraint has only index
    variables outside the output indexes, and no initialization is asked. *)
Lemma outside_constraint_rule_fails :
  NeedsInitialize_dims constrained_kernel (dims shape_4) 0 [] = OK (Some ["i"])
  /\ In input_constraint (constraints constrained_kernel)
  /\ only_outside ["i"] input_constraint
  /\ NeedsInitialize constrained_kernel shape_4 = OK false
  /\ ~ outside_constraint_rule constrained_kernel shape_4.
Proof.
  assert (Hout : only_outside ["i"] input_constraint).
  { intros k Hin Hk; simpl in Hin; destruct Hin as [<-|[<-|[]]]; [congruence | reflexivity]. }
  split; [reflexivity|]; split; [left; reflexivity|]; split; [exact Hout|].
  split; [reflexivity|].
  intros H; destruct (H ["i"] eq_refl) as [_ H2].
  assert (Htrue : NeedsInitialize constrained_kernel shape_4 = OK true).
  { apply H2; exists input_constraint; split; [left; reflexivity | exact Hout]. }
  discriminate Htrue.
Qed.

(** ** The "fancy" classification *)

Lemma offset_contraction_wf : Forall wf_poly (output_polys offset_contraction).
Proof.
  repeat constructor; simpl; discriminate.
Qed.

Lemma is_fancy_spec_witness :
  Forall wf_poly (output_polys offset_contraction)
  /\ (is_fancy offset_contraction = true <->
      exists p, In p (output_polys offset_contraction)
                /\ (2 <= List.length (index_terms p))%nat)
  /\ CompileContraction matmul_collaborators offset_contraction []
     = bind (reduce_and_gather matmul_collaborators [] offset_contraction [])
         (merge_and_defract matmul_collaborators []).
Proof.
  split; [exact offset_contraction_wf|].
  destruct (is_fancy_spec offset_contraction) as (_ & Hindex & Hcompile).
  split; [exact (Hindex offset_contraction_wf)|].
  exact (Hcompile matmul_collaborators [] offset_contraction []
           (conj (le_S _ _ (le_n 2)) (le_S _ _ (le_n 3))) eq_refl eq_refl).
Defined.

(** Two index terms and the constant 3: fancy for the code, not for the
    rule on index terms. *)
Lemma index_term_rule_fails :
  output_polys offset_contraction = [[("", integer 3); ("i", integer 1); ("j", integer 1)]]
  /\ is_fancy offset_contraction = true
  /\ ~ index_term_rule offset_contraction.
Proof.
  split; [reflexivity|]; split; [reflexivity|].
  intros [H _]; destruct (H eq_refl) as (p & Hin & Hp).
  destruct Hin as [<-|[]]; simpl in Hp.
  destruct Hp as [Hp|[_ Hp]]; [lia | discriminate].
Qed.

(** ** The run of the elementwise sample *)

Example eltwise_run :
  Run sample_names eltwise_collaborators eltwise_gen = OK eltwise_program.
Proof. vm_compute; reflexivity. Qed.

Lemma Run_declarations_witness :
  Run sample_names eltwise_collaborators eltwise_gen = OK eltwise_program
  /\ exists main ins outs temps,
       stmts eltwise_program = [BlockStmt main]
       /\ List.length (refs eltwise_program)
          = (List.length (input_shapes (runinfo_ eltwise_gen))
             + List.length (output_shapes (runinfo_ eltwise_gen)))%nat
       /\ Forall2
            (fun item r => dir r = RefNone /\ into r = fst item
                           /\ access r = zero_access (snd item))
            (input_shapes (runinfo_ eltwise_gen) ++ output_shapes (runinfo_ eltwise_gen))
            (refs eltwise_program)
       /\ refs main = ins ++ outs ++ temps
       /\ Forall2
            (fun item r => dir r = RefIn /\ from r = fst item /\ into r = fst item)
            (input_shapes (runinfo_ eltwise_gen)) ins
       /\ Forall2
            (fun item r => dir r = RefOut /\ from r = fst item /\ into r = fst item
                           /\ ref_agg_op r = Intrinsic_ASSIGN sample_names)
            (output_shapes (runinfo_ eltwise_gen)) outs
       /\ Forall2
            (fun item r => dir r = RefNone /\ into r = fst item /\ ref_agg_op r = ""
                           /\ access r = zero_access (shape (snd item)))
            (temporaries eltwise_gen) temps.
Proof.
  split; [exact eltwise_run|].
  exact (@Run_declarations sample_names eltwise_collaborators eltwise_gen eltwise_program
           eltwise_run).
Defined.

(** The sample has two inputs, one output and the temporary T: the program
    block holds three refinements, not four. *)
Lemma temporaries_at_program_scope_fails :
  Run sample_names eltwise_collaborators eltwise_gen = OK eltwise_program
  /\ map fst (temporaries eltwise_gen) = ["T"]
  /\ map into (refs eltwise_program) = ["A"; "B"; "C"]
  /\ ~ temporaries_at_program_scope sample_names eltwise_collaborators eltwise_gen.
Proof.
  split; [exact eltwise_run|]; split; [reflexivity|]; split; [reflexivity|].
  intros H; specialize (H eltwise_program eltwise_run); discriminate H.
Qed.

Lemma kernels_without_unit_index_witness :
  Run sample_names eltwise_collaborators eltwise_gen = OK eltwise_program
  /\ exists main,
       stmts eltwise_program = [BlockStmt main] /\ kernels_no_unit_index (stmts main).
Proof.
  split; [exact eltwise_run|].
  exact (proj1 (kernels_without_unit_index sample_names eltwise_collaborators eltwise_gen)
           eltwise_program eltwise_run).
Defined.

(** ** The broadcast of the sample *)

Example eltwise_add :
  ProcessElementwise eltwise_collaborators eltwise_gen new_Block add_op = OK eltwise_main.
Proof. vm_compute; reflexivity. Qed.

Lemma eltwise_broadcast_witness :
  ProcessElementwise eltwise_collaborators eltwise_gen new_Block add_op = OK eltwise_main
  /\ exists out_shape kernel in_refs out_ref,
       GetShape eltwise_gen (output add_op) = OK out_shape
       /\ stmts eltwise_main = stmts new_Block ++ [BlockStmt kernel]
       /\ refs kernel = in_refs ++ [out_ref]
       /\ dir out_ref = RefOut /\ from out_ref = output add_op
       /\ access out_ref = eltwise_access 0 (dims out_shape)
       /\ Forall2
            (fun input r =>
               dir r = RefIn /\ from r = input
               /\ forall b,
                    find input (vars_ eltwise_gen) = Some b ->
                    (List.length (dims (shape b)) <= List.length (dims out_shape))%nat ->
                    let lead :=
                      (List.length (dims out_shape) - List.length (dims (shape b)))%nat in
                    List.length (access r) = List.length (dims (shape b))
                    /\ forall j d,
                         nth_error (dims (shape b)) j = Some d ->
                         nth_error (access r) j
                         = Some (if 1 <? size d then [(loop_index (lead + j), 1)] else [])
                         /\ nth_error (eltwise_idxs 0 (dims out_shape)) (lead + j)
                            = option_map
                                (fun od => mkIndex (loop_index (lead + j)) (size od))
                                (nth_error (dims out_shape) (lead + j)))
            (tensor_inputs (vars_ eltwise_gen) (inputs add_op)) in_refs
       /\ (forall a rest sa,
             inputs add_op = a :: rest ->
             find a (vars_ eltwise_gen) = Some sa ->
             btag sa = TENSOR ->
             map size (dims (shape sa)) = [4; 1] ->
             map size (dims out_shape) = [4; 8] ->
             access out_ref = [[("i1", 1)]; [("i2", 1)]]
             /\ exists first, hd_error (refs kernel) = Some first
                              /\ from first = a
                              /\ access first = [[("i1", 1)]; []]).
Proof.
  split; [exact eltwise_add|].
  exact (@eltwise_broadcast eltwise_collaborators eltwise_gen new_Block add_op eltwise_main
           eltwise_add).
Defined.

(** ** The matrix product *)

Example matmul_run :
  ProcessContraction sample_names matmul_collaborators (matmul_gen Comb_MULTIPLY) new_Block
    (matmul_op Comb_MULTIPLY) = OK (matmul_result matmul_collaborators Comb_MULTIPLY).
Proof. vm_compute; reflexivity. Qed.

Example matmul_constrained_run :
  ProcessContraction sample_names constrained_collaborators (matmul_gen Comb_MULTIPLY)
    new_Block (matmul_op Comb_MULTIPLY)
  = OK (matmul_result constrained_collaborators Comb_MULTIPLY).
Proof. vm_compute; reflexivity. Qed.

Example matmul_uncombined_run :
  ProcessContraction sample_names matmul_collaborators (matmul_gen Comb_NONE) new_Block
    (matmul_op Comb_NONE) = OK (matmul_result matmul_collaborators Comb_NONE).
Proof. vm_compute; reflexivity. Qed.

Lemma matmul_not_empty : byte_size matmul_collaborators shape_2_4 <> 0.
Proof. discriminate. Qed.

Lemma matmul_shapes (comb : CombinationOp) :
  MakeShapes (matmul_gen comb) (c (matmul_op comb)) = OK [shape_2_4; shape_2_3; shape_3_4].
Proof. reflexivity. Qed.

Lemma matmul_compiled (comb : CombinationOp) :
  CompileContraction matmul_collaborators (c (matmul_op comb))
    [shape_2_4; shape_2_3; shape_3_4] = OK (matmul comb, []).
Proof. reflexivity. Qed.

Lemma contraction_combination_witness :
  ProcessContraction sample_names matmul_collaborators (matmul_gen Comb_MULTIPLY) new_Block
    (matmul_op Comb_MULTIPLY) = OK (matmul_result matmul_collaborators Comb_MULTIPLY)
  /\ GetShape (matmul_gen Comb_MULTIPLY) (output (matmul_op Comb_MULTIPLY)) = OK shape_2_4
  /\ byte_size matmul_collaborators shape_2_4 <> 0
  /\ MakeShapes (matmul_gen Comb_MULTIPLY) (c (matmul_op Comb_MULTIPLY))
     = OK [shape_2_4; shape_2_3; shape_3_4]
  /\ CompileContraction matmul_collaborators (c (matmul_op Comb_MULTIPLY))
       [shape_2_4; shape_2_3; shape_3_4] = OK (matmul Comb_MULTIPLY, [])
  /\ exists kernel pre loads,
       stmts (matmul_result matmul_collaborators Comb_MULTIPLY)
       = stmts new_Block ++ pre ++ [BlockStmt kernel]
       /\ Forall is_load_or_constant loads
       /\ ((1 < List.length (scalar_names (tl (specs (matmul Comb_MULTIPLY)))))%nat ->
           GetComboOp sample_names (comb_op (matmul Comb_MULTIPLY)) <> "" ->
           stmts kernel
           = loads ++ [Intrinsic (GetComboOp sample_names (comb_op (matmul Comb_MULTIPLY)))
                         (scalar_names (tl (specs (matmul Comb_MULTIPLY)))) ["$C"];
                       Store "$C" "C"]
           /\ In (String.append "comb_op_"
                    (GetComboOp sample_names (comb_op (matmul Comb_MULTIPLY))))
                (tags kernel))
       /\ ((List.length (scalar_names (tl (specs (matmul Comb_MULTIPLY)))) <= 1)%nat ->
           stmts kernel
           = loads ++ [Intrinsic "assign" (scalar_names (tl (specs (matmul Comb_MULTIPLY))))
                         ["$C"];
                       Store "$C" "C"]
           /\ ~ In (String.append "comb_op_"
                      (GetComboOp sample_names (comb_op (matmul Comb_MULTIPLY))))
                  (tags kernel))
       /\ ((1 < List.length (scalar_names (tl (specs (matmul Comb_MULTIPLY)))))%nat ->
           GetComboOp sample_names (comb_op (matmul Comb_MULTIPLY)) = "" ->
           stmts kernel = loads ++ [Store "$C" "C"]
           /\ ~ In (String.append "comb_op_"
                      (GetComboOp sample_names (comb_op (matmul Comb_MULTIPLY))))
                  (tags kernel)).
Proof.
  split; [exact matmul_run|]; split; [reflexivity|]; split; [exact matmul_not_empty|].
  split; [reflexivity|]; split; [reflexivity|].
  exact (@contraction_combination sample_names matmul_collaborators (matmul_gen Comb_MULTIPLY)
           new_Block (matmul_op Comb_MULTIPLY) _ shape_2_4 _ _ _
           matmul_run eq_refl matmul_not_empty (matmul_shapes Comb_MULTIPLY)
           (matmul_compiled Comb_MULTIPLY)).
Defined.

(** The matrix product with two scalar inputs and no combination operator:
    the kernel loads both and stores, with no "assign" in between. *)
Lemma assign_for_empty_operator_fails :
  ProcessContraction sample_names matmul_collaborators (matmul_gen Comb_NONE) new_Block
    (matmul_op Comb_NONE) = OK (matmul_result matmul_collaborators Comb_NONE)
  /\ stmts (matmul_result matmul_collaborators Comb_NONE)
     = [BlockStmt (matmul_kernel matmul_collaborators Comb_NONE)]
  /\ scalar_names (tl (specs (matmul Comb_NONE))) = ["$A"; "$B"]
  /\ GetComboOp sample_names (comb_op (matmul Comb_NONE)) = ""
  /\ stmts (matmul_kernel matmul_collaborators Comb_NONE)
     = [Load "A" "$A"; Load "B" "$B"; Store "$C" "C"]
  /\ ~ assign_for_empty_operator sample_names matmul_collaborators (matmul_gen Comb_NONE)
         new_Block (matmul_op Comb_NONE).
Proof.
  assert (Hstmts : stmts (matmul_result matmul_collaborators Comb_NONE)
                   = stmts new_Block ++ [] ++ [BlockStmt (matmul_kernel matmul_collaborators
                                                            Comb_NONE)])
    by (vm_compute; reflexivity).
  split; [exact matmul_uncombined_run|].
  split; [exact Hstmts|]; split; [reflexivity|]; split; [reflexivity|].
  split; [vm_compute; reflexivity|].
  intros H.
  destruct (H (matmul_result matmul_collaborators Comb_NONE) shape_2_4
              [shape_2_4; shape_2_3; shape_3_4] (matmul Comb_NONE) []
              (matmul_kernel matmul_collaborators Comb_NONE) []
              matmul_uncombined_run eq_refl matmul_not_empty (matmul_shapes Comb_NONE)
              (matmul_compiled Comb_NONE) Hstmts) as [_ Hassign].
  specialize (Hassign (or_intror eq_refl)).
  vm_compute in Hassign.
  repeat (destruct Hassign as [Hassign|Hassign]; [discriminate Hassign|]).
  exact Hassign.
Qed.

Lemma constrained_not_empty : byte_size constrained_collaborators shape_2_4 <> 0.
Proof. discriminate. Qed.

Lemma ProcessContraction_initialization_witness :
  ProcessContraction sample_names constrained_collaborators (matmul_gen Comb_MULTIPLY)
    new_Block (matmul_op Comb_MULTIPLY)
  = OK (matmul_result constrained_collaborators Comb_MULTIPLY)
  /\ GetShape (matmul_gen Comb_MULTIPLY) (output (matmul_op Comb_MULTIPLY)) = OK shape_2_4
  /\ byte_size constrained_collaborators shape_2_4 <> 0
  /\ exists kernel shape0 shapes init,
       MakeShapes (matmul_gen Comb_MULTIPLY) (c (matmul_op Comb_MULTIPLY))
       = OK (shape0 :: shapes)
       /\ NeedsInitialize kernel shape0 = OK init
       /\ (init = true -> use_default (c (matmul_op Comb_MULTIPLY)) = "" ->
           stmts (matmul_result constrained_collaborators Comb_MULTIPLY)
           = stmts new_Block
             ++ [Special (Special_ZERO sample_names) [] []
                   [output (matmul_op Comb_MULTIPLY)];
                 BlockStmt kernel])
       /\ (init = true -> use_default (c (matmul_op Comb_MULTIPLY)) <> "" ->
           stmts (matmul_result constrained_collaborators Comb_MULTIPLY)
           = stmts new_Block
             ++ [Special (Special_COPY sample_names) []
                   [use_default (c (matmul_op Comb_MULTIPLY))]
                   [output (matmul_op Comb_MULTIPLY)];
                 BlockStmt kernel])
       /\ (init = false ->
           stmts (matmul_result constrained_collaborators Comb_MULTIPLY)
           = stmts new_Block ++ [BlockStmt kernel]).
Proof.
  split; [exact matmul_constrained_run|]; split; [reflexivity|].
  split; [exact constrained_not_empty|].
  exact (@ProcessContraction_initialization sample_names constrained_collaborators
           (matmul_gen Comb_MULTIPLY) new_Block (matmul_op Comb_MULTIPLY) _ shape_2_4
           matmul_constrained_run eq_refl constrained_not_empty).
Defined.

(** The constrained product is initialized with ZERO before its kernel. *)
Example matmul_constrained_stmts :
  stmts (matmul_result constrained_collaborators Comb_MULTIPLY)
  = [Special "zero" [] [] ["C"];
     BlockStmt (matmul_kernel constrained_collaborators Comb_MULTIPLY)]
  /\ NeedsInitialize (matmul_kernel constrained_collaborators Comb_MULTIPLY) shape_2_4
     = OK true.
Proof. split; vm_compute; reflexivity. Qed.

Lemma contraction_output_ref_first_witness :
  ProcessContraction sample_names matmul_collaborators (matmul_gen Comb_MULTIPLY) new_Block
    (matmul_op Comb_MULTIPLY) = OK (matmul_result matmul_collaborators Comb_MULTIPLY)
  /\ GetShape (matmul_gen Comb_MULTIPLY) (output (matmul_op Comb_MULTIPLY)) = OK shape_2_4
  /\ byte_size matmul_collaborators shape_2_4 <> 0
  /\ MakeShapes (matmul_gen Comb_MULTIPLY) (c (matmul_op Comb_MULTIPLY))
     = OK [shape_2_4; shape_2_3; shape_3_4]
  /\ CompileContraction matmul_collaborators (c (matmul_op Comb_MULTIPLY))
       [shape_2_4; shape_2_3; shape_3_4] = OK (matmul Comb_MULTIPLY, [])
  /\ specs (matmul Comb_MULTIPLY)
     = mkSpec "C" [[("i", integer 1)]; [("j", integer 1)]]
       :: [mkSpec "A" [[("i", integer 1)]; [("k", integer 1)]];
           mkSpec "B" [[("k", integer 1)]; [("j", integer 1)]]]
  /\ exists kernel pre r rs,
       stmts (matmul_result matmul_collaborators Comb_MULTIPLY)
       = stmts new_Block ++ pre ++ [BlockStmt kernel]
       /\ refs kernel = r :: rs
       /\ dir r = RefOut /\ from r = "C" /\ into r = "C"
       /\ ref_agg_op r = GetAggOp sample_names (agg_op (matmul Comb_MULTIPLY))
       /\ Forall
            (input_ref_of
               [mkSpec "A" [[("i", integer 1)]; [("k", integer 1)]];
                mkSpec "B" [[("k", integer 1)]; [("j", integer 1)]]])
            rs.
Proof.
  split; [exact matmul_run|]; split; [reflexivity|]; split; [exact matmul_not_empty|].
  split; [reflexivity|]; split; [reflexivity|]; split; [reflexivity|].
  exact (@contraction_output_ref_first sample_names matmul_collaborators
           (matmul_gen Comb_MULTIPLY) new_Block (matmul_op Comb_MULTIPLY) _ shape_2_4 _ _ _
           (mkSpec "C" [[("i", integer 1)]; [("j", integer 1)]]) _
           matmul_run eq_refl matmul_not_empty (matmul_shapes Comb_MULTIPLY)
           (matmul_compiled Comb_MULTIPLY) eq_refl).
Defined.

(** ** The contraction with an empty output *)

Lemma ProcessContraction_skips_empty_witness :
  tag (matmul_op Comb_MULTIPLY) = CONTRACTION
  /\ GetShape empty_gen (output (matmul_op Comb_MULTIPLY)) = OK shape_0_4
  /\ byte_size matmul_collaborators shape_0_4 = 0
  /\ ProcessContraction sample_names matmul_collaborators empty_gen new_Block
       (matmul_op Comb_MULTIPLY) = OK new_Block
  /\ forall before after,
       Run sample_names matmul_collaborators
         (with_ops empty_gen (before ++ matmul_op Comb_MULTIPLY :: after))
       = Run sample_names matmul_collaborators (with_ops empty_gen (before ++ after)).
Proof.
  split; [reflexivity|]; split; [reflexivity|]; split; [reflexivity|].
  exact (@ProcessContraction_skips_empty sample_names matmul_collaborators empty_gen new_Block
           (matmul_op Comb_MULTIPLY) shape_0_4 eq_refl eq_refl eq_refl).
Defined.

(** ** Integerize, once more *)

Lemma Integerize_wf_witness :
  Integerize eltwise_collaborators sample_poly sample_bounds = OK [("", 13); ("i", 2)]
  /\ wf_affine [("", 13); ("i", 2)]
  /\ forall k, In k (keys [("", 13); ("i", 2)]) -> k <> "" ->
       exists b, find k sample_bounds = Some b /\ min b <> max b.
Proof.
  split; [exact Integerize_sample|].
  exact (@Integerize_wf eltwise_collaborators sample_poly sample_bounds _ Integerize_sample).
Defined.

Lemma constant_integer : integer_terms [("", integer 5)].
Proof. repeat constructor. Qed.

Lemma constant_bounded : bounded_terms sample_bounds [("", integer 5)].
Proof. constructor; [intros H; exfalso; apply H; reflexivity | constructor]. Qed.

(** The index [k] has no bound: the terms after it are not looked at. *)
Lemma Integerize_first_failure_witness :
  integer_terms [("", integer 5)]
  /\ bounded_terms sample_bounds [("", integer 5)]
  /\ (denominator (snd ("k", integer 2)) <> 1 ->
      Integerize eltwise_collaborators unbound_poly sample_bounds = Err NonIntegerTerm)
  /\ (denominator (snd ("k", integer 2)) = 1 -> fst ("k", integer 2) <> "" ->
      find (fst ("k", integer 2)) sample_bounds = None ->
      Integerize eltwise_collaborators unbound_poly sample_bounds = Err OutOfRange)
  /\ (forall e, Integerize eltwise_collaborators unbound_poly sample_bounds = Err e ->
        e = NonIntegerTerm \/ e = OutOfRange).
Proof.
  split; [exact constant_integer|]; split; [exact constant_bounded|].
  exact (@Integerize_first_failure eltwise_collaborators sample_bounds [("", integer 5)]
           [("z", integer 1)] ("k", integer 2) constant_integer constant_bounded).
Defined.

(** ** The elementwise operation with an input of higher rank *)

Example scale_run :
  ProcessElementwise eltwise_collaborators scale_gen new_Block scale_op = OK scale_main.
Proof. vm_compute; reflexivity. Qed.

Lemma eltwise_statements_witness :
  ProcessElementwise eltwise_collaborators scale_gen new_Block scale_op = OK scale_main
  /\ exists kernel,
       stmts scale_main = stmts new_Block ++ [BlockStmt kernel]
       /\ Forall (usable_input (vars_ scale_gen)) (inputs scale_op)
       /\ stmts kernel
          = map (input_stmt (vars_ scale_gen)) (inputs scale_op)
            ++ [Intrinsic (fn (f scale_op)) (map ScalarName (inputs scale_op))
                  [ScalarName (output scale_op)];
                Store (ScalarName (output scale_op)) (output scale_op)]
       /\ (forall t, In t (tags kernel) <->
                     t = "kernel" \/ t = "eltwise"
                     \/ t = String.append "eltwise_" (fn (f scale_op)))
       /\ constraints kernel = [].
Proof.
  split; [exact scale_run|].
  exact (@eltwise_statements eltwise_collaborators scale_gen new_Block scale_op scale_main
           scale_run).
Defined.

Lemma eltwise_input_alignment_witness :
  ProcessElementwise eltwise_collaborators scale_gen new_Block scale_op = OK scale_main
  /\ exists out_b kernel in_refs out_ref,
       find (output scale_op) (vars_ scale_gen) = Some out_b
       /\ stmts scale_main = stmts new_Block ++ [BlockStmt kernel]
       /\ refs kernel = in_refs ++ [out_ref]
       /\ dir out_ref = RefOut
       /\ List.length (access out_ref) = List.length (dims (ref_shape out_ref))
       /\ Forall2
            (fun input r =>
               exists b,
                 let in_rank := List.length (dims (shape b)) in
                 let out_rank := List.length (dims (shape out_b)) in
                 find input (vars_ scale_gen) = Some b /\ btag b = TENSOR
                 /\ dir r = RefIn /\ from r = input /\ into r = input
                 /\ ref_shape r = scalar_of (shape b)
                 /\ is_const r = IsConst scale_gen input
                 /\ (forall j d,
                       nth_error (dims (shape b)) (in_rank - out_rank + j) = Some d ->
                       nth_error (access r) j
                       = Some (if 1 <? size d
                               then [(loop_index (out_rank - in_rank + j), 1)] else []))
                 /\ List.length (access r) = Nat.min in_rank out_rank
                 /\ (List.length (access r) = List.length (dims (ref_shape r))
                     <-> (in_rank <= out_rank)%nat))
            (tensor_inputs (vars_ scale_gen) (inputs scale_op)) in_refs.
Proof.
  split; [exact scale_run|].
  exact (@eltwise_input_alignment eltwise_collaborators scale_gen new_Block scale_op
           scale_main scale_run).
Defined.

Lemma eltwise_kernel_closed_witness :
  ProcessElementwise eltwise_collaborators scale_gen new_Block scale_op = OK scale_main
  /\ exists out_b kernel in_refs out_ref,
       find (output scale_op) (vars_ scale_gen) = Some out_b
       /\ stmts scale_main = stmts new_Block ++ [BlockStmt kernel]
       /\ refs kernel = in_refs ++ [out_ref]
       /\ Forall (uses_declared kernel) (access out_ref)
       /\ ((forall input b,
              In input (inputs scale_op) -> find input (vars_ scale_gen) = Some b ->
              btag b = TENSOR ->
              broadcast_compatible (dims (shape out_b)) (dims (shape b))) ->
           closed_block kernel).
Proof.
  split; [exact scale_run|].
  exact (@eltwise_kernel_closed eltwise_collaborators scale_gen new_Block scale_op scale_main
           scale_run).
Defined.

Example scale_dispatch :
  ProcessOp sample_names eltwise_collaborators scale_gen new_Block scale_op = OK scale_main.
Proof. vm_compute; reflexivity. Qed.

Lemma ProcessOp_adds_witness :
  ProcessOp sample_names eltwise_collaborators scale_gen new_Block scale_op = OK scale_main
  /\ (name scale_main = name new_Block /\ comments scale_main = comments new_Block
      /\ tags scale_main = tags new_Block /\ idxs scale_main = idxs new_Block
      /\ constraints scale_main = constraints new_Block
      /\ refs scale_main = refs new_Block)
  /\ (exists pre ks,
        stmts scale_main = stmts new_Block ++ pre ++ map BlockStmt ks
        /\ Forall is_special_stmt pre
        /\ (List.length pre <= 1)%nat /\ (List.length ks <= 1)%nat
        /\ (tag scale_op = CONSTANT -> pre = [] /\ ks = [])
        /\ Forall (made_for eltwise_collaborators (List.length (stmts new_Block)) scale_op) ks)
  /\ (tag scale_op = FUNCTION -> is_special eltwise_collaborators (f scale_op) = true ->
      stmts scale_main
      = stmts new_Block
        ++ [Special (fn (f scale_op)) (params (f scale_op)) (inputs scale_op)
              [output scale_op]])
  /\ (tag scale_op = FUNCTION -> is_special eltwise_collaborators (f scale_op) = false ->
      fn (f scale_op) = "reshape" ->
      exists input0 others,
        inputs scale_op = input0 :: others
        /\ stmts scale_main
           = stmts new_Block
             ++ [Special (fn (f scale_op)) (params (f scale_op)) [input0] [output scale_op]])
  /\ (tag scale_op = FUNCTION -> is_special eltwise_collaborators (f scale_op) = false ->
      fn (f scale_op) <> "reshape" ->
      ProcessElementwise eltwise_collaborators scale_gen new_Block scale_op = OK scale_main).
Proof.
  split; [exact scale_dispatch|].
  exact (@ProcessOp_adds sample_names eltwise_collaborators scale_gen new_Block scale_op
           scale_main scale_dispatch).
Defined.

(** ** The run of the elementwise sample, once more *)

Lemma Run_structure_witness :
  Run sample_names eltwise_collaborators eltwise_gen = OK eltwise_program
  /\ name eltwise_program = program_name (runinfo_ eltwise_gen)
  /\ tags eltwise_program = ["program"]
  /\ idxs eltwise_program = [] /\ constraints eltwise_program = []
  /\ exists main,
       stmts eltwise_program = [BlockStmt main]
       /\ name main = "main" /\ tags main = ["main"]
       /\ idxs main = [] /\ constraints main = []
       /\ Forall main_stmt (stmts main).
Proof.
  split; [exact eltwise_run|].
  exact (@Run_structure sample_names eltwise_collaborators eltwise_gen eltwise_program
           eltwise_run).
Defined.

Lemma refinement_flags_witness :
  Run sample_names eltwise_collaborators eltwise_gen = OK eltwise_program
  /\ Forall (plain_ref eltwise_gen) (refs eltwise_program)
  /\ exists main,
       stmts eltwise_program = [BlockStmt main]
       /\ Forall (plain_ref eltwise_gen) (refs main)
       /\ forall k, In (BlockStmt k) (stmts main) -> Forall (plain_ref eltwise_gen) (refs k).
Proof.
  split; [exact eltwise_run|].
  exact (@refinement_flags sample_names eltwise_collaborators eltwise_gen eltwise_program
           eltwise_run).
Defined.

Lemma eltwise_no_pid : Forall no_pid (ops (parsed_ eltwise_gen)).
Proof. repeat constructor. Qed.

Lemma kernel_names_distinct_witness :
  Forall no_pid (ops (parsed_ eltwise_gen))
  /\ Run sample_names eltwise_collaborators eltwise_gen = OK eltwise_program
  /\ exists main,
       stmts eltwise_program = [BlockStmt main]
       /\ NoDup (kernel_names (stmts main))
       /\ forall nm, In nm (kernel_names (stmts main)) ->
            exists m, (m < List.length (stmts main))%nat
                      /\ nm = String.append "kernel_" (decimal m).
Proof.
  split; [exact eltwise_no_pid|]; split; [exact eltwise_run|].
  exact (@kernel_names_distinct sample_names eltwise_collaborators eltwise_gen eltwise_program
           eltwise_no_pid eltwise_run).
Defined.

(** ** The contraction with a constant input and a constraint *)

Example scaled_run :
  ProcessContraction sample_names scaled_collaborators scaled_gen new_Block scaled_op
  = OK scaled_main.
Proof. vm_compute; reflexivity. Qed.

Lemma scaled_not_empty : byte_size scaled_collaborators shape_4 <> 0.
Proof. discriminate. Qed.

Lemma scaled_shapes :
  MakeShapes scaled_gen (c scaled_op) = OK [shape_4; shape_4; shape_scalar].
Proof. reflexivity. Qed.

Lemma scaled_compiled :
  CompileContraction scaled_collaborators (c scaled_op) [shape_4; shape_4; shape_scalar]
  = OK (scaled, []).
Proof. reflexivity. Qed.

Lemma scaled_solved :
  ComputeBounds scaled_collaborators [] = OK (scaled_bounds, [scaled_constraint]).
Proof. reflexivity. Qed.

Lemma scaled_int64 : int64_bounds scaled_bounds.
Proof. repeat constructor; simpl; unfold in_int64; lia. Qed.

Lemma contraction_inputs_witness :
  ProcessContraction sample_names scaled_collaborators scaled_gen new_Block scaled_op
  = OK scaled_main
  /\ GetShape scaled_gen (output scaled_op) = OK shape_4
  /\ byte_size scaled_collaborators shape_4 <> 0
  /\ MakeShapes scaled_gen (c scaled_op) = OK [shape_4; shape_4; shape_scalar]
  /\ CompileContraction scaled_collaborators (c scaled_op) [shape_4; shape_4; shape_scalar]
     = OK (scaled, [])
  /\ ComputeBounds scaled_collaborators [] = OK (scaled_bounds, [scaled_constraint])
  /\ specs scaled
     = mkSpec "O" [[("i", integer 1)]] :: [mkSpec "A" [[("i", integer 1)]]; mkSpec "s" []]
  /\ exists kernel pre out_ref in_refs rest,
       stmts scaled_main = stmts new_Block ++ pre ++ [BlockStmt kernel]
       /\ stmts kernel
          = map (input_stmt (vars_ scaled_gen))
              (map id [mkSpec "A" [[("i", integer 1)]]; mkSpec "s" []])
            ++ rest
       /\ refs kernel = out_ref :: in_refs
       /\ Forall2 (contraction_in_ref scaled_collaborators scaled_gen scaled_bounds)
            (loaded_specs (vars_ scaled_gen)
               [mkSpec "A" [[("i", integer 1)]]; mkSpec "s" []])
            in_refs
       /\ Forall (fun r => Forall wf_affine (access r)) (refs kernel).
Proof.
  split; [exact scaled_run|]; split; [reflexivity|]; split; [exact scaled_not_empty|].
  split; [exact scaled_shapes|]; split; [exact scaled_compiled|].
  split; [exact scaled_solved|]; split; [reflexivity|].
  exact (@contraction_inputs sample_names scaled_collaborators scaled_gen new_Block scaled_op
           scaled_main shape_4 _ _ _ _ _ (mkSpec "O" [[("i", integer 1)]]) _
           scaled_run eq_refl scaled_not_empty scaled_shapes scaled_compiled scaled_solved
           eq_refl).
Defined.

Lemma contraction_constraints_witness :
  ProcessContraction sample_names scaled_collaborators scaled_gen new_Block scaled_op
  = OK scaled_main
  /\ GetShape scaled_gen (output scaled_op) = OK shape_4
  /\ byte_size scaled_collaborators shape_4 <> 0
  /\ MakeShapes scaled_gen (c scaled_op) = OK [shape_4; shape_4; shape_scalar]
  /\ CompileContraction scaled_collaborators (c scaled_op) [shape_4; shape_4; shape_scalar]
     = OK (scaled, [])
  /\ ComputeBounds scaled_collaborators [] = OK (scaled_bounds, [scaled_constraint])
  /\ exists kernel pre,
       stmts scaled_main = stmts new_Block ++ pre ++ [BlockStmt kernel]
       /\ Forall2
            (fun sc con =>
               exists lhs,
                 Integerize scaled_collaborators (poly sc) scaled_bounds = OK lhs
                 /\ constant con = wrap64 (rhs sc - constant lhs)
                 /\ (forall k, k <> "" -> coeff k con = wrap64 (- coeff k lhs))
                 /\ wf_affine con)
            [scaled_constraint] (constraints kernel).
Proof.
  split; [exact scaled_run|]; split; [reflexivity|]; split; [exact scaled_not_empty|].
  split; [exact scaled_shapes|]; split; [exact scaled_compiled|].
  split; [exact scaled_solved|].
  exact (@contraction_constraints sample_names scaled_collaborators scaled_gen new_Block
           scaled_op scaled_main shape_4 _ _ _ _ _
           scaled_run eq_refl scaled_not_empty scaled_shapes scaled_compiled scaled_solved).
Defined.

Lemma contraction_kernel_closed_witness :
  ProcessContraction sample_names scaled_collaborators scaled_gen new_Block scaled_op
  = OK scaled_main
  /\ GetShape scaled_gen (output scaled_op) = OK shape_4
  /\ byte_size scaled_collaborators shape_4 <> 0
  /\ MakeShapes scaled_gen (c scaled_op) = OK [shape_4; shape_4; shape_scalar]
  /\ CompileContraction scaled_collaborators (c scaled_op) [shape_4; shape_4; shape_scalar]
     = OK (scaled, [])
  /\ ComputeBounds scaled_collaborators [] = OK (scaled_bounds, [scaled_constraint])
  /\ int64_bounds scaled_bounds
  /\ exists kernel pre,
       stmts scaled_main = stmts new_Block ++ pre ++ [BlockStmt kernel]
       /\ closed_block kernel.
Proof.
  split; [exact scaled_run|]; split; [reflexivity|]; split; [exact scaled_not_empty|].
  split; [exact scaled_shapes|]; split; [exact scaled_compiled|].
  split; [exact scaled_solved|]; split; [exact scaled_int64|].
  exact (@contraction_kernel_closed sample_names scaled_collaborators scaled_gen new_Block
           scaled_op scaled_main shape_4 _ _ _ _ _
           scaled_run eq_refl scaled_not_empty scaled_shapes scaled_compiled scaled_solved
           scaled_int64).
Defined.

Lemma contraction_tags_witness :
  ProcessContraction sample_names scaled_collaborators scaled_gen new_Block scaled_op
  = OK scaled_main
  /\ GetShape scaled_gen (output scaled_op) = OK shape_4
  /\ byte_size scaled_collaborators shape_4 <> 0
  /\ MakeShapes scaled_gen (c scaled_op) = OK [shape_4; shape_4; shape_scalar]
  /\ CompileContraction scaled_collaborators (c scaled_op) [shape_4; shape_4; shape_scalar]
     = OK (scaled, [])
  /\ exists kernel pre,
       stmts scaled_main = stmts new_Block ++ pre ++ [BlockStmt kernel]
       /\ forall t,
            In t (tags kernel) <->
            t = "kernel" \/ t = "contraction"
            \/ t = String.append "agg_op_" (GetAggOp sample_names (agg_op scaled))
            \/ (t = String.append "comb_op_" (GetComboOp sample_names (comb_op scaled))
                /\ (1 < List.length (tl (specs scaled)))%nat
                /\ GetComboOp sample_names (comb_op scaled) <> "").
Proof.
  split; [exact scaled_run|]; split; [reflexivity|]; split; [exact scaled_not_empty|].
  split; [exact scaled_shapes|]; split; [exact scaled_compiled|].
  exact (@contraction_tags sample_names scaled_collaborators scaled_gen new_Block scaled_op
           scaled_main shape_4 _ _ _
           scaled_run eq_refl scaled_not_empty scaled_shapes scaled_compiled).
Defined.

(** ** What cannot be lowered *)

Lemma ProcessElementwise_outcome_witness :
  find (output unbound_input_op) (vars_ scale_gen)
  = Some (mkBinding TENSOR shape_8 0 (S754_zero false))
  /\ inputs unbound_input_op = ["A"] ++ "u" :: []
  /\ Forall (usable_input (vars_ scale_gen)) ["A"]
  /\ find "u" (vars_ scale_gen) = None
  /\ ProcessElementwise eltwise_collaborators scale_gen new_Block unbound_input_op
     = Err OutOfRange.
Proof.
  assert (Husable : Forall (usable_input (vars_ scale_gen)) ["A"]).
  { repeat constructor; eexists; split; [reflexivity | discriminate]. }
  split; [reflexivity|]; split; [reflexivity|]; split; [exact Husable|].
  split; [reflexivity|].
  exact (proj1
           (proj2 (proj2 (ProcessElementwise_outcome eltwise_collaborators scale_gen new_Block
                            unbound_input_op))
              _ ["A"] "u" [] eq_refl eq_refl Husable)
           eq_refl).
Defined.

Lemma ProcessContraction_failures_witness :
  GetShape scaled_gen (output lone_op) = OK shape_4
  /\ byte_size scaled_collaborators shape_4 <> 0
  /\ Forall (bound_spec (vars_ scaled_gen)) (specs (c lone_op))
  /\ ~ (2 <= List.length (specs (c lone_op)) <= 4)%nat
  /\ ProcessContraction sample_names scaled_collaborators scaled_gen new_Block lone_op
     = Err UnsupportedArity.
Proof.
  assert (Hbound : Forall (bound_spec (vars_ scaled_gen)) (specs (c lone_op)))
    by (repeat constructor; discriminate).
  assert (Harity : ~ (2 <= List.length (specs (c lone_op)) <= 4)%nat) by (simpl; lia).
  split; [reflexivity|]; split; [exact scaled_not_empty|]; split; [exact Hbound|].
  split; [exact Harity|].
  exact (proj1
           (proj2 (proj2 (proj2 (proj2 (ProcessContraction_failures sample_names
                                          scaled_collaborators scaled_gen new_Block lone_op)))
                     shape_4 eq_refl scaled_not_empty))
           Hbound Harity).
Defined.

Lemma Run_outcome_witness :
  Run sample_names eltwise_collaborators eltwise_gen = OK eltwise_program
  /\ Forall (lowers sample_names eltwise_collaborators eltwise_gen)
       (ops (parsed_ eltwise_gen)).
Proof.
  split; [exact eltwise_run|].
  exact (proj1 (proj1 (proj2 (Run_outcome sample_names eltwise_collaborators eltwise_gen)))
           (ex_intro _ eltwise_program eltwise_run)).
Defined.

Example generated_run :
  GenerateStripe sample_names parsing_collaborators eltwise_runinfo = OK generated_program.
Proof. vm_compute; reflexivity. Qed.

(** The three ways of [GenerateStripe]: a text the parser refuses, input
    shapes the binder refuses, and a run that is lowered, whose program
    declares A, B and C and whose main declares the temporary T after
    them. *)
Lemma GenerateStripe_declares_witness :
  Parse eltwise_collaborators (code parse_runinfo) = Err (External "Parse")
  /\ GenerateStripe sample_names eltwise_collaborators parse_runinfo = Err (External "Parse")
  /\ Parse parsing_collaborators (code unbound_runinfo) = OK (mkProgram [add_op; exp_op])
  /\ BindProgram parsing_collaborators (mkProgram [add_op; exp_op])
       (input_shapes unbound_runinfo) (output_shapes unbound_runinfo)
     = Err (External "BindProgram")
  /\ GenerateStripe sample_names parsing_collaborators unbound_runinfo
     = Err (External "BindProgram")
  /\ GenerateStripe sample_names parsing_collaborators eltwise_runinfo = OK generated_program
  /\ exists parsed bound vars main,
       Parse parsing_collaborators (code eltwise_runinfo) = OK parsed
       /\ BindProgram parsing_collaborators parsed (input_shapes eltwise_runinfo)
            (output_shapes eltwise_runinfo)
          = OK (bound, vars)
       /\ Run sample_names parsing_collaborators
            (mkStripeGenerator bound vars eltwise_runinfo []) = OK generated_program
       /\ stmts generated_program = [BlockStmt main]
       /\ map into (refs generated_program) = ["A"; "B"] ++ ["C"]
       /\ map into (refs main) = ["A"; "B"] ++ ["C"] ++ ["T"].
Proof.
  split; [reflexivity|].
  split; [exact (proj1 (GenerateStripe_declares sample_names eltwise_collaborators
                          parse_runinfo) _ eq_refl)|].
  split; [reflexivity|]; split; [reflexivity|].
  split; [exact (proj1 (proj2 (GenerateStripe_declares sample_names parsing_collaborators
                                 unbound_runinfo)) _ _ eq_refl eq_refl)|].
  split; [exact generated_run|].
  destruct (proj2 (proj2 (GenerateStripe_declares sample_names parsing_collaborators
                            eltwise_runinfo)) _ generated_run)
    as (parsed & bound & vars & main & HP & HB & HR & Hs & Hp & Hm).
  exists parsed, bound, vars, main.
  split; [exact HP|]; split; [exact HB|]; split; [exact HR|]; split; [exact Hs|].
  split; [exact Hp|].
  vm_compute in HP; inversion HP; subst parsed.
  vm_compute in HB; inversion HB; subst bound vars.
  exact Hm.
Defined.

(** ** Simple outputs *)

(** The kernel constrained on the input index [k] writes a simple output;
    constrained on the output index [i] it does not. *)
Lemma NeedsInitialize_false_iff_witness :
  NeedsInitialize constrained_kernel shape_4 = OK false
  /\ simple_output constrained_kernel shape_4
  /\ NeedsInitialize output_constrained_kernel shape_4 = OK true
  /\ ~ simple_output output_constrained_kernel shape_4.
Proof.
  split; [reflexivity|].
  split; [exact (proj1 (NeedsInitialize_false_iff constrained_kernel shape_4) eq_refl)|].
  split; [reflexivity|].
  intros H; apply (NeedsInitialize_false_iff output_constrained_kernel shape_4) in H.
  discriminate H.
Defined.

(** ** Values, outcomes and scopes *)

Lemma Integerize_value_witness :
  Integerize eltwise_collaborators sample_poly sample_bounds = OK [("", 13); ("i", 2)]
  /\ exact_cast eltwise_collaborators
  /\ int64_coeffs sample_poly
  /\ forall env : string -> Z,
       wrap64 (affine_value env [("", 13); ("i", 2)])
       = wrap64 (poly_value sample_bounds env sample_poly).
Proof.
  split; [reflexivity|]; split; [exact sample_cast|]; split; [exact sample_poly_int64|].
  exact (@Integerize_value eltwise_collaborators sample_poly sample_bounds
           [("", 13); ("i", 2)] eq_refl sample_cast sample_poly_int64).
Defined.

Lemma scaled_cast : exact_cast scaled_collaborators.
Proof. intros z _; reflexivity. Qed.

Lemma scaled_specs_int64 : Forall (fun sp => Forall int64_coeffs (spec sp)) (specs scaled).
Proof. repeat constructor; simpl; unfold in_int64; lia. Qed.

Lemma scaled_constraint_int64 :
  Forall (fun sc => int64_coeffs (poly sc)) [scaled_constraint].
Proof. repeat constructor; simpl; unfold in_int64; lia. Qed.

Lemma contraction_values_witness :
  ProcessContraction sample_names scaled_collaborators scaled_gen new_Block scaled_op
  = OK scaled_main
  /\ GetShape scaled_gen (output scaled_op) = OK shape_4
  /\ byte_size scaled_collaborators shape_4 <> 0
  /\ MakeShapes scaled_gen (c scaled_op) = OK [shape_4; shape_4; shape_scalar]
  /\ CompileContraction scaled_collaborators (c scaled_op) [shape_4; shape_4; shape_scalar]
     = OK (scaled, [])
  /\ ComputeBounds scaled_collaborators [] = OK (scaled_bounds, [scaled_constraint])
  /\ specs scaled
     = mkSpec "O" [[("i", integer 1)]] :: [mkSpec "A" [[("i", integer 1)]]; mkSpec "s" []]
  /\ exact_cast scaled_collaborators
  /\ Forall (fun sp => Forall int64_coeffs (spec sp)) (specs scaled)
  /\ Forall (fun sc => int64_coeffs (poly sc)) [scaled_constraint]
  /\ exists kernel pre,
       stmts scaled_main = stmts new_Block ++ pre ++ [BlockStmt kernel]
       /\ Forall2
            (fun sp r =>
               from r = id sp
               /\ Forall2
                    (fun poly a =>
                       forall env : string -> Z,
                         wrap64 (affine_value env a)
                         = wrap64 (poly_value scaled_bounds env poly))
                    (spec sp) (access r))
            (mkSpec "O" [[("i", integer 1)]]
             :: loaded_specs (vars_ scaled_gen)
                  [mkSpec "A" [[("i", integer 1)]]; mkSpec "s" []])
            (refs kernel)
       /\ Forall2
            (fun sc con =>
               forall env : string -> Z,
                 wrap64 (affine_value env con)
                 = wrap64 (rhs sc - poly_value scaled_bounds env (poly sc)))
            [scaled_constraint] (constraints kernel).
Proof.
  split; [exact scaled_run|]; split; [reflexivity|]; split; [exact scaled_not_empty|].
  split; [exact scaled_shapes|]; split; [exact scaled_compiled|].
  split; [exact scaled_solved|]; split; [reflexivity|].
  split; [exact scaled_cast|]; split; [exact scaled_specs_int64|].
  split; [exact scaled_constraint_int64|].
  exact (@contraction_values sample_names scaled_collaborators scaled_gen new_Block scaled_op
           scaled_main shape_4 _ _ _ _ _ (mkSpec "O" [[("i", integer 1)]]) _
           scaled_run eq_refl scaled_not_empty scaled_shapes scaled_compiled scaled_solved
           eq_refl scaled_cast scaled_specs_int64 scaled_constraint_int64).
Defined.

Lemma scaled_rank :
  (List.length (dims shape_4) <= List.length (spec (mkSpec "O" [[("i", integer 1)]])))%nat.
Proof. simpl; lia. Qed.

Lemma ProcessContraction_outcome_witness :
  GetShape scaled_gen (output scaled_op) = OK shape_4
  /\ byte_size scaled_collaborators shape_4 <> 0
  /\ MakeShapes scaled_gen (c scaled_op) = OK [shape_4; shape_4; shape_scalar]
  /\ CompileContraction scaled_collaborators (c scaled_op) [shape_4; shape_4; shape_scalar]
     = OK (scaled, [])
  /\ ComputeBounds scaled_collaborators [] = OK (scaled_bounds, [scaled_constraint])
  /\ int64_bounds scaled_bounds
  /\ specs scaled
     = mkSpec "O" [[("i", integer 1)]] :: [mkSpec "A" [[("i", integer 1)]]; mkSpec "s" []]
  /\ (List.length (dims shape_4)
      <= List.length (spec (mkSpec "O" [[("i", integer 1)]])))%nat
  /\ ((exists main',
         ProcessContraction sample_names scaled_collaborators scaled_gen new_Block scaled_op
         = OK main') <->
      Forall (lowerable scaled_gen scaled_bounds) (specs scaled)
      /\ Forall (fun sc => integerizable scaled_bounds (poly sc)) [scaled_constraint])
  /\ (forall e,
        ProcessContraction sample_names scaled_collaborators scaled_gen new_Block scaled_op
        = Err e ->
        (exists n, e = UnknownShape n) \/ e = NonIntegerTerm \/ e = OutOfRange).
Proof.
  split; [reflexivity|]; split; [exact scaled_not_empty|].
  split; [exact scaled_shapes|]; split; [exact scaled_compiled|].
  split; [exact scaled_solved|]; split; [exact scaled_int64|].
  split; [reflexivity|]; split; [exact scaled_rank|].
  exact (@ProcessContraction_outcome sample_names scaled_collaborators scaled_gen new_Block
           scaled_op shape_4 shape_4 _ _ _ _ _ (mkSpec "O" [[("i", integer 1)]]) _
           eq_refl scaled_not_empty scaled_shapes scaled_compiled scaled_solved scaled_int64
           eq_refl scaled_rank).
Defined.

Lemma eltwise_kernel_scoped_witness :
  ProcessElementwise eltwise_collaborators scale_gen new_Block scale_op = OK scale_main
  /\ exists kernel,
       stmts scale_main = stmts new_Block ++ [BlockStmt kernel]
       /\ well_scoped kernel.
Proof.
  split; [exact scale_run|].
  exact (@eltwise_kernel_scoped eltwise_collaborators scale_gen new_Block scale_op scale_main
           scale_run).
Defined.

Lemma scaled_output_fresh :
  ~ In (output scaled_op) (map id [mkSpec "A" [[("i", integer 1)]]; mkSpec "s" []]).
Proof. simpl; intros [H|[H|[]]]; discriminate H. Qed.

Lemma contraction_kernel_scoped_witness :
  ProcessContraction sample_names scaled_collaborators scaled_gen new_Block scaled_op
  = OK scaled_main
  /\ GetShape scaled_gen (output scaled_op) = OK shape_4
  /\ byte_size scaled_collaborators shape_4 <> 0
  /\ MakeShapes scaled_gen (c scaled_op) = OK [shape_4; shape_4; shape_scalar]
  /\ CompileContraction scaled_collaborators (c scaled_op) [shape_4; shape_4; shape_scalar]
     = OK (scaled, [])
  /\ ComputeBounds scaled_collaborators [] = OK (scaled_bounds, [scaled_constraint])
  /\ specs scaled
     = mkSpec "O" [[("i", integer 1)]] :: [mkSpec "A" [[("i", integer 1)]]; mkSpec "s" []]
  /\ id (mkSpec "O" [[("i", integer 1)]]) = output scaled_op
  /\ ~ In (output scaled_op) (map id [mkSpec "A" [[("i", integer 1)]]; mkSpec "s" []])
  /\ exists kernel pre,
       stmts scaled_main = stmts new_Block ++ pre ++ [BlockStmt kernel]
       /\ (well_scoped kernel <->
           (List.length [mkSpec "A" [[("i", integer 1)]]; mkSpec "s" []] <= 1)%nat
           \/ GetComboOp sample_names (comb_op scaled) <> "").
Proof.
  split; [exact scaled_run|]; split; [reflexivity|]; split; [exact scaled_not_empty|].
  split; [exact scaled_shapes|]; split; [exact scaled_compiled|].
  split; [exact scaled_solved|]; split; [reflexivity|]; split; [reflexivity|].
  split; [exact scaled_output_fresh|].
  exact (@contraction_kernel_scoped sample_names scaled_collaborators scaled_gen new_Block
           scaled_op scaled_main shape_4 _ _ _ _ _ (mkSpec "O" [[("i", integer 1)]]) _
           scaled_run eq_refl scaled_not_empty scaled_shapes scaled_compiled scaled_solved
           eq_refl eq_refl scaled_output_fresh).
Defined.

(** Two inputs and a combination without an intrinsic: the store reads
    [$O], which no statement of the kernel writes. *)
Example paired_unwritten :
  ProcessContraction sample_names scaled_collaborators paired_gen new_Block paired_op
  = OK paired_main
  /\ exists kernel pre,
       stmts paired_main = pre ++ [BlockStmt kernel]
       /\ stmts kernel = [Load "A" "$A"; Load "B" "$B"; Store "$O" "O"]
       /\ ~ well_scoped kernel.
Proof.
  split; [vm_compute; reflexivity|].
  exists (match last (stmts paired_main) (Load "" "") with
          | BlockStmt k => k
          | _ => new_Block
          end), (removelast (stmts paired_main)).
  split; [reflexivity|]; split; [reflexivity|].
  unfold well_scoped, refined; simpl.
  intros (_ & _ & [H|[H|[]]] & _); discriminate H.
Qed.
